(** * b4u2cc: the tool-call proxy, its SSE writer, channel resolution and
      configuration, embedded from the TypeScript sources.

    A JavaScript string is modelled as the list of its code units
    ([str]); the sources only ever use code units below 256 in the
    markers and literals the properties depend on.  Mutable objects are
    records passed from state to state; the outgoing SSE connection is the
    list of frames sent so far, oldest first. *)

From Stdlib Require Import ZArith QArith Qabs Qround Lia Ascii String.
From Stdlib Require SpecFloat.
From stdpp Require Import base list sorting strings gmap pretty.

Set Default Proof Using "Type*".

Open Scope Z_scope.

(** ** Strings *)

Definition str : Type := list ascii.

Definition lit (s : string) : str := list_ascii_of_string s.

(** [!s] of JavaScript: the empty string is falsy. *)
Definition falsy (s : str) : bool :=
  match s with [] => true | _ => false end.

(** An optional string ([string | undefined]) is truthy when it is present
    and not empty. *)
Definition truthy (o : option str) : bool :=
  match o with Some (_ :: _) => true | _ => false end.

Definition str_eqb (a b : str) : bool := bool_decide (a = b).

(** [s.slice(i, i + 5)] for [i = 0, 5, 10, ...] while [i < s.length]. *)
Fixpoint chunks (fuel : nat) (s : str) : list str :=
  match fuel with
  | O => []
  | S fuel' =>
      match s with
      | [] => []
      | _ => take 5 s :: chunks fuel' (drop 5 s)
      end
  end.

Definition chunk5 (s : str) : list str := chunks (length s) s.

(** ** Parser events (types.ts, as used by the writer and the handlers) *)

(** The value of an argument is carried as the text found between the
    parameter tags; [JSON.stringify] of the argument object is a parameter
    of the writer. *)
Record ParsedInvokeCall := {
  name : str;
  arguments : list (str * str);
}.

Inductive ParserEvent :=
| Text (content : str)
| Thinking (content : str)
| ToolCall (call : ParsedInvokeCall)
| ToolCallFailed (content priorText : str)
| End.

(** ** SSE frames (the [event]/[data] pairs handed to [SSEWriter.send]) *)

Inductive content_block :=
| TextBlock
| ThinkingBlock
| ToolUseBlock (id : str) (tool : str).

Inductive delta :=
| TextDelta (text : str)
| ThinkingDelta (thinking : str)
| SignatureDelta (signature : str)
| InputJsonDelta (partial_json : str).

Inductive frame :=
| MessageStart (id : str) (input_tokens : Z)
| Ping
| ContentBlockStart (index : Z) (b : content_block)
| ContentBlockDelta (index : Z) (d : delta)
| ContentBlockStop (index : Z)
| MessageDelta (stop_reason : str) (output_tokens : Z)
| MessageStop
| ErrorFrame (type message : str).

(** ** ClaudeStream (claude_writer.ts) *)

Module ClaudeStream.

(** [StreamContext].  [pending] is the text held by the [TextAggregator],
    [sent] is what the [SSEWriter] has been given, [drawn] counts the tool
    ids generated so far. *)
Record StreamContext := {
  requestId : str;
  pending : str;
  sent : list frame;
  nextBlockIndex : Z;
  textBlockOpen : bool;
  thinkingBlockOpen : bool;
  finished : bool;
  totalOutputTokens : Z;
  hasToolCalls : bool;
  inputTokens : Z;
  drawn : nat;
}.

Definition send (f : frame) (c : StreamContext) : StreamContext :=
  {| requestId := requestId c; pending := pending c; sent := sent c ++ [f];
     nextBlockIndex := nextBlockIndex c; textBlockOpen := textBlockOpen c;
     thinkingBlockOpen := thinkingBlockOpen c; finished := finished c;
     totalOutputTokens := totalOutputTokens c; hasToolCalls := hasToolCalls c;
     inputTokens := inputTokens c; drawn := drawn c |}.

Definition set_pending (p : str) (c : StreamContext) : StreamContext :=
  {| requestId := requestId c; pending := p; sent := sent c;
     nextBlockIndex := nextBlockIndex c; textBlockOpen := textBlockOpen c;
     thinkingBlockOpen := thinkingBlockOpen c; finished := finished c;
     totalOutputTokens := totalOutputTokens c; hasToolCalls := hasToolCalls c;
     inputTokens := inputTokens c; drawn := drawn c |}.

Definition set_nextBlockIndex (n : Z) (c : StreamContext) : StreamContext :=
  {| requestId := requestId c; pending := pending c; sent := sent c;
     nextBlockIndex := n; textBlockOpen := textBlockOpen c;
     thinkingBlockOpen := thinkingBlockOpen c; finished := finished c;
     totalOutputTokens := totalOutputTokens c; hasToolCalls := hasToolCalls c;
     inputTokens := inputTokens c; drawn := drawn c |}.

Definition set_textBlockOpen (b : bool) (c : StreamContext) : StreamContext :=
  {| requestId := requestId c; pending := pending c; sent := sent c;
     nextBlockIndex := nextBlockIndex c; textBlockOpen := b;
     thinkingBlockOpen := thinkingBlockOpen c; finished := finished c;
     totalOutputTokens := totalOutputTokens c; hasToolCalls := hasToolCalls c;
     inputTokens := inputTokens c; drawn := drawn c |}.

Definition set_thinkingBlockOpen (b : bool) (c : StreamContext) : StreamContext :=
  {| requestId := requestId c; pending := pending c; sent := sent c;
     nextBlockIndex := nextBlockIndex c; textBlockOpen := textBlockOpen c;
     thinkingBlockOpen := b; finished := finished c;
     totalOutputTokens := totalOutputTokens c; hasToolCalls := hasToolCalls c;
     inputTokens := inputTokens c; drawn := drawn c |}.

Definition set_finished (b : bool) (c : StreamContext) : StreamContext :=
  {| requestId := requestId c; pending := pending c; sent := sent c;
     nextBlockIndex := nextBlockIndex c; textBlockOpen := textBlockOpen c;
     thinkingBlockOpen := thinkingBlockOpen c; finished := b;
     totalOutputTokens := totalOutputTokens c; hasToolCalls := hasToolCalls c;
     inputTokens := inputTokens c; drawn := drawn c |}.

Definition add_tokens (n : Z) (c : StreamContext) : StreamContext :=
  {| requestId := requestId c; pending := pending c; sent := sent c;
     nextBlockIndex := nextBlockIndex c; textBlockOpen := textBlockOpen c;
     thinkingBlockOpen := thinkingBlockOpen c; finished := finished c;
     totalOutputTokens := totalOutputTokens c + n; hasToolCalls := hasToolCalls c;
     inputTokens := inputTokens c; drawn := drawn c |}.

Definition set_hasToolCalls (b : bool) (c : StreamContext) : StreamContext :=
  {| requestId := requestId c; pending := pending c; sent := sent c;
     nextBlockIndex := nextBlockIndex c; textBlockOpen := textBlockOpen c;
     thinkingBlockOpen := thinkingBlockOpen c; finished := finished c;
     totalOutputTokens := totalOutputTokens c; hasToolCalls := b;
     inputTokens := inputTokens c; drawn := drawn c |}.

Definition set_drawn (n : nat) (c : StreamContext) : StreamContext :=
  {| requestId := requestId c; pending := pending c; sent := sent c;
     nextBlockIndex := nextBlockIndex c; textBlockOpen := textBlockOpen c;
     thinkingBlockOpen := thinkingBlockOpen c; finished := finished c;
     totalOutputTokens := totalOutputTokens c; hasToolCalls := hasToolCalls c;
     inputTokens := inputTokens c; drawn := n |}.

Section Writer.

(** What the writer takes from its collaborators: the token counter
    [countTokensWithTiktoken(_, "cl100k_base")], [JSON.stringify] on an
    argument object, the stream of random tool ids of [generateToolId], and
    the floating-point scaling [Math.max(1, Math.ceil(total * tokenMultiplier))]
    applied at [finish]. *)
Variable countTokensWithTiktoken : str -> Z.
Variable JSON_stringify : list (str * str) -> str.
Variable generateToolId : nat -> str.
Variable adjustedOutputTokens : Z -> Z.

(** [new ClaudeStream(writer, config, requestId, inputTokens)] *)
Definition new (rid : str) (input : Z) : StreamContext :=
  {| requestId := rid; pending := []; sent := [];
     nextBlockIndex := 0; textBlockOpen := false; thinkingBlockOpen := false;
     finished := false; totalOutputTokens := 0; hasToolCalls := false;
     inputTokens := input; drawn := 0 |}.

Definition init (c : StreamContext) : StreamContext :=
  let c := send (MessageStart (lit "msg_" ++ requestId c) (inputTokens c)) c in
  send Ping c.

Definition ensureTextBlock (c : StreamContext) : StreamContext :=
  if textBlockOpen c then c
  else
    let index := nextBlockIndex c in
    let c := set_nextBlockIndex (index + 1) c in
    let c := set_textBlockOpen true c in
    send (ContentBlockStart index TextBlock) c.

Definition flushText (text : str) (c : StreamContext) : StreamContext :=
  if falsy text then c
  else
    let c := ensureTextBlock c in
    let c := add_tokens (countTokensWithTiktoken text) c in
    send (ContentBlockDelta (nextBlockIndex c - 1) (TextDelta text)) c.

Definition endTextBlock (c : StreamContext) : StreamContext :=
  if negb (textBlockOpen c) then c
  else
    let c := set_textBlockOpen false c in
    let index := nextBlockIndex c - 1 in
    send (ContentBlockStop index) c.

Definition ensureThinkingBlock (c : StreamContext) : StreamContext :=
  if thinkingBlockOpen c then c
  else
    let index := nextBlockIndex c in
    let c := set_nextBlockIndex (index + 1) c in
    let c := set_thinkingBlockOpen true c in
    send (ContentBlockStart index ThinkingBlock) c.

Definition endThinkingBlock (c : StreamContext) : StreamContext :=
  if negb (thinkingBlockOpen c) then c
  else
    let c := set_thinkingBlockOpen false c in
    let index := nextBlockIndex c - 1 in
    let c := send (ContentBlockDelta index (SignatureDelta [])) c in
    send (ContentBlockStop index) c.

(** The body of the chunk loops: one delta frame per chunk. *)
Definition send_thinking_chunk (c : StreamContext) (chunk : str) : StreamContext :=
  send (ContentBlockDelta (nextBlockIndex c - 1) (ThinkingDelta chunk)) c.

Definition emitThinking (content : str) (c : StreamContext) : StreamContext :=
  if falsy content then c
  else
    let c := ensureThinkingBlock c in
    let c := add_tokens (countTokensWithTiktoken content) c in
    fold_left send_thinking_chunk (chunk5 content) c.

Definition send_json_chunk (index : Z) (c : StreamContext) (chunk : str) : StreamContext :=
  send (ContentBlockDelta index (InputJsonDelta chunk)) c.

Definition emitToolCall (call : ParsedInvokeCall) (c : StreamContext) : StreamContext :=
  let c := endTextBlock c in
  let index := nextBlockIndex c in
  let c := set_nextBlockIndex (index + 1) c in
  let toolId := generateToolId (drawn c) in
  let c := set_drawn (S (drawn c)) c in
  let c := set_hasToolCalls true c in
  let c := send (ContentBlockStart index (ToolUseBlock toolId (name call))) c in
  let inputJson := JSON_stringify (arguments call) in
  let c := add_tokens (countTokensWithTiktoken inputJson) c in
  let c := fold_left (send_json_chunk index) (chunk5 inputJson) c in
  send (ContentBlockStop index) c.

(** Modelled from the spec: [TextAggregator.add] of aggregator.ts, which is
    not among the source files.  The aggregator is a pending string;
    [add] appends to it. *)
Definition aggregator_add (text : str) (c : StreamContext) : StreamContext :=
  set_pending (pending c ++ text) c.

(** Modelled from the spec: [TextAggregator.flushAsync] of aggregator.ts,
    which is not among the source files.  A flush, forced or by the
    aggregator's timer, hands the pending text to the callback [flushText]
    and empties it. *)
Definition aggregator_flushAsync (c : StreamContext) : StreamContext :=
  let text := pending c in
  flushText text (set_pending [] c).

Definition finish (c : StreamContext) : StreamContext :=
  if finished c then c
  else
    let c := set_finished true c in
    let c := aggregator_flushAsync c in
    let c := endTextBlock c in
    let c := endThinkingBlock c in
    let adjusted := adjustedOutputTokens (totalOutputTokens c) in
    let stopReason := if hasToolCalls c then lit "tool_use" else lit "end_turn" in
    let c := send (MessageDelta stopReason adjusted) c in
    send MessageStop c.

Definition handleEvent (c : StreamContext) (event : ParserEvent) : StreamContext :=
  match event with
  | Text content =>
      let c := if thinkingBlockOpen c then endThinkingBlock c else c in
      aggregator_add content c
  | Thinking content =>
      let c := aggregator_flushAsync c in
      let c := endTextBlock c in
      emitThinking content c
  | ToolCall call =>
      let c := aggregator_flushAsync c in
      let c := endTextBlock c in
      let c := endThinkingBlock c in
      emitToolCall call c
  | ToolCallFailed _ _ => c
  | End => finish c
  end.

Definition handleEvents (events : list ParserEvent) (c : StreamContext) : StreamContext :=
  fold_left handleEvent events c.

(** What can happen to one stream object: its two public methods, the
    aggregator's timer firing between two calls, and the frames the stream
    handler writes to the same [SSEWriter] itself (keep-alive pings and
    error frames). *)
Inductive action :=
| Init
| HandleEvents (events : list ParserEvent)
| TimerFire
| HandlerPing
| HandlerError (type message : str).

Definition act (c : StreamContext) (a : action) : StreamContext :=
  match a with
  | Init => init c
  | HandleEvents events => handleEvents events c
  | TimerFire => aggregator_flushAsync c
  | HandlerPing => send Ping c
  | HandlerError type message => send (ErrorFrame type message) c
  end.

Definition run (acts : list action) (c : StreamContext) : StreamContext :=
  fold_left act acts c.

End Writer.

End ClaudeStream.

(** ** Reading a frame sequence *)

Definition start_index (f : frame) : option Z :=
  match f with ContentBlockStart i _ => Some i | _ => None end.

(** The index a delta or stop frame refers to. *)
Definition use_index (f : frame) : option Z :=
  match f with
  | ContentBlockDelta i _ => Some i
  | ContentBlockStop i => Some i
  | _ => None
  end.

Definition start_indices (fs : list frame) : list Z := omap start_index fs.

Definition track_open (o : list Z) (f : frame) : list Z :=
  match f with
  | ContentBlockStart i _ => i :: o
  | ContentBlockStop i => filter (fun j => j <> i) o
  | _ => o
  end.

(** The blocks opened and not yet closed after the frames [fs]. *)
Definition open_blocks (fs : list frame) : list Z := fold_left track_open fs [].

Definition is_tool_use_start (f : frame) : Prop :=
  match f with ContentBlockStart _ (ToolUseBlock _ _) => True | _ => False end.

Definition is_message_delta (f : frame) : Prop :=
  match f with MessageDelta _ _ => True | _ => False end.

Definition is_message_stop (f : frame) : Prop :=
  match f with MessageStop => True | _ => False end.

#[global] Instance is_tool_use_start_dec f : Decision (is_tool_use_start f).
Proof. destruct f as [| | ? []| | | | |]; simpl; apply _. Defined.

#[global] Instance is_message_delta_dec f : Decision (is_message_delta f).
Proof. destruct f; simpl; apply _. Defined.

#[global] Instance is_message_stop_dec f : Decision (is_message_stop f).
Proof. destruct f; simpl; apply _. Defined.

(** Every delta and stop frame refers to a block that is open when it is
    sent. *)
Definition uses_open (fs : list frame) : Prop :=
  forall pre f post i,
    fs = pre ++ f :: post -> use_index f = Some i -> i ∈ open_blocks pre.

(** A frame that neither opens nor uses a block. *)
Definition neutral (f : frame) : Prop :=
  start_index f = None /\ use_index f = None.

(** ** The writer's invariant *)

(** What holds of a stream object between any two of its operations: the
    blocks opened so far are numbered 0, 1, ... up to [nextBlockIndex]; at
    most one block is open, and it is the last one; no text is pending while
    a thinking block is open; an open text block was started as one. *)
Record stream_inv (c : ClaudeStream.StreamContext) : Prop := {
  inv_next : 0 <= ClaudeStream.nextBlockIndex c;
  inv_starts :
    start_indices (ClaudeStream.sent c)
    = Z.of_nat <$> seq 0 (Z.to_nat (ClaudeStream.nextBlockIndex c));
  inv_open :
    open_blocks (ClaudeStream.sent c)
    = if ClaudeStream.textBlockOpen c || ClaudeStream.thinkingBlockOpen c
      then [ClaudeStream.nextBlockIndex c - 1] else [];
  inv_excl :
    ClaudeStream.textBlockOpen c = true -> ClaudeStream.thinkingBlockOpen c = false;
  inv_pending :
    ClaudeStream.thinkingBlockOpen c = true -> ClaudeStream.pending c = [];
  inv_uses : uses_open (ClaudeStream.sent c);
  inv_text :
    ClaudeStream.textBlockOpen c = true ->
    ContentBlockStart (ClaudeStream.nextBlockIndex c - 1) TextBlock
      ∈ ClaudeStream.sent c;
}.

(** Frames other than the two that end a message. *)
Definition body_frame (f : frame) : Prop :=
  ~ is_message_delta f /\ ~ is_message_stop f.

(** Body frames that do not open a tool_use block either. *)
Definition plain_frame (f : frame) : Prop :=
  body_frame f /\ ~ is_tool_use_start f.

(** [c'] is [c] after some plain frames were sent, with the [finished] and
    [hasToolCalls] flags untouched. *)
Definition plain (c c' : ClaudeStream.StreamContext) : Prop :=
  (exists new, ClaudeStream.sent c' = ClaudeStream.sent c ++ new
               /\ Forall plain_frame new)
  /\ ClaudeStream.finished c' = ClaudeStream.finished c
  /\ ClaudeStream.hasToolCalls c' = ClaudeStream.hasToolCalls c.

(** How many tool_use blocks a frame sequence opens. *)
Definition tool_use_blocks (fs : list frame) : nat :=
  length (filter is_tool_use_start fs).

Definition message_deltas (fs : list frame) : nat :=
  length (filter is_message_delta fs).

Definition message_stops (fs : list frame) : nat :=
  length (filter is_message_stop fs).

(** What the [finished] and [hasToolCalls] flags say about the frames. *)
Record finish_inv (c : ClaudeStream.StreamContext) : Prop := {
  fin_tool :
    ClaudeStream.hasToolCalls c = true
    <-> Exists is_tool_use_start (ClaudeStream.sent c);
  fin_reason :
    forall pre sr n post,
      ClaudeStream.sent c = pre ++ MessageDelta sr n :: post ->
      (sr = lit "tool_use" /\ Exists is_tool_use_start pre)
      \/ (sr = lit "end_turn" /\ ~ Exists is_tool_use_start pre);
  fin_open :
    ClaudeStream.finished c = false -> Forall body_frame (ClaudeStream.sent c);
  fin_deltas : (message_deltas (ClaudeStream.sent c) <= 1)%nat;
  fin_stops : (message_stops (ClaudeStream.sent c) <= 1)%nat;
}.

(** [c'] is [c] after some body frames were sent; [hasToolCalls] is set
    exactly when one of them opened a tool_use block. *)
Definition body_step (c c' : ClaudeStream.StreamContext) : Prop :=
  exists new,
    ClaudeStream.sent c' = ClaudeStream.sent c ++ new
    /\ Forall body_frame new
    /\ ClaudeStream.finished c' = ClaudeStream.finished c
    /\ (ClaudeStream.hasToolCalls c' = true
        <-> ClaudeStream.hasToolCalls c = true \/ Exists is_tool_use_start new).

(** ** The stream handlers after end of stream
       (handle_openai_stream.ts and handle_anthropic_stream.ts)

    Both handlers end in the same way once the upstream body is read: the
    parser is finished, its last events are taken, and a failed tool call is
    retried.  [ToolCallRetryHandler.retry] asks the upstream again; what it
    answers at each attempt is a parameter. *)

Module StreamHandler.

(** [config.toolCallRetry], an optional object with optional fields. *)
Record ToolCallRetryConfig := {
  enabled : bool;
  keepAlive : option bool;
  maxRetries : option nat;
}.

Inductive RetryResult :=
| RetrySucceeded (result : ParsedInvokeCall)
| RetryFailed (error : str).

(** What the handler reads besides the parser's events. *)
Record HandlerArgs := {
  toolCallRetry : option ToolCallRetryConfig;
  delimiter : bool;
  originalMessages_length : nat;
  upstreamUrl : str;
}.

Definition tool_call_failed (e : ParserEvent) : bool :=
  match e with ToolCallFailed _ _ => true | _ => false end.

(** [config.toolCallRetry?.enabled] *)
Definition retry_enabled (a : HandlerArgs) : bool :=
  match toolCallRetry a with Some r => enabled r | None => false end.

(** [config.toolCallRetry?.keepAlive !== false] *)
Definition keep_alive (a : HandlerArgs) : bool :=
  match toolCallRetry a with
  | Some r => match keepAlive r with Some false => false | _ => true end
  | None => true
  end.

(** [config.toolCallRetry?.maxRetries || 1] *)
Definition max_retries (a : HandlerArgs) : nat :=
  match toolCallRetry a with
  | Some r => match maxRetries r with Some (S n) => S n | _ => 1%nat end
  | None => 1%nat
  end.

Section Handler.

Variable countTokensWithTiktoken : str -> Z.
Variable JSON_stringify : list (str * str) -> str.
Variable generateToolId : nat -> str.
Variable adjustedOutputTokens : Z -> Z.

(** [retryHandler.retry(failedEvent.content, failedEvent.priorText, delimiter,
    attempt)] *)
Variable retry : str -> str -> nat -> RetryResult.

Local Abbreviation handleEvents :=
  (ClaudeStream.handleEvents countTokensWithTiktoken JSON_stringify
     generateToolId adjustedOutputTokens).

(** [for (let attempt = 1; attempt <= maxRetries; attempt++)], from
    [attempt] on; the loop runs at most [maxRetries] times, which bounds
    [fuel].  The result is [retrySuccess] and the stream. *)
Fixpoint retryLoop (fuel attempt maxRetries : nat) (ka : bool)
    (content priorText : str) (c : ClaudeStream.StreamContext)
    : bool * ClaudeStream.StreamContext :=
  match fuel with
  | O => (false, c)
  | S fuel' =>
      if (attempt <=? maxRetries)%nat then
        match retry content priorText attempt with
        | RetrySucceeded result => (true, handleEvents [ToolCall result] c)
        | RetryFailed _ =>
            let c :=
              if (attempt <? maxRetries)%nat
              then (if ka then ClaudeStream.send Ping c else c)
              else c in
            retryLoop fuel' (S attempt) maxRetries ka content priorText c
        end
      else (false, c)
  end.

(** From [parser.finish()] on: [events] is what [parser.consumeEvents()]
    returns after it. *)
Definition afterEOF (a : HandlerArgs) (events : list ParserEvent)
    (c : ClaudeStream.StreamContext) : ClaudeStream.StreamContext :=
  match find tool_call_failed events with
  | Some (ToolCallFailed content priorText) =>
      if retry_enabled a && delimiter a && (0 <? originalMessages_length a)%nat
         && negb (falsy (upstreamUrl a))
      then
        let c := if keep_alive a then ClaudeStream.send Ping c else c in
        let maxRetries := max_retries a in
        let '(retrySuccess, c) :=
          retryLoop maxRetries 1 maxRetries (keep_alive a) content priorText c in
        if retrySuccess then c
        else handleEvents [Text content] c
      else handleEvents events c
  | _ => handleEvents events c
  end.

End Handler.

(** The condition under which a failed tool call is retried. *)
Definition retries (a : HandlerArgs) : Prop :=
  retry_enabled a = true /\ delimiter a = true
  /\ (0 < originalMessages_length a)%nat /\ upstreamUrl a <> [].

Definition succeeded (r : RetryResult) : Prop :=
  match r with RetrySucceeded _ => True | RetryFailed _ => False end.

End StreamHandler.

(** The stream after [k] keep-alive pings. *)
Definition pings (k : nat) (c : ClaudeStream.StreamContext)
    : ClaudeStream.StreamContext :=
  Nat.iter k (ClaudeStream.send Ping) c.

(** ** More of JavaScript's strings *)

(** The double quote and the single quote. *)
Definition dquote : ascii := ascii_of_nat 34.
Definition squote : ascii := ascii_of_nat 39.

(** White space as [String.prototype.trim] and [parseFloat] see it, among
    the code units below 256: tab, line feed, vertical tab, form feed,
    carriage return, space and no-break space. *)
Definition is_white (a : ascii) : bool :=
  let n := nat_of_ascii a in
  ((9 <=? n) && (n <=? 13) || (n =? 32) || (n =? 160))%nat.

Fixpoint trimStart (s : str) : str :=
  match s with
  | a :: r => if is_white a then trimStart r else s
  | [] => []
  end.

Definition trimEnd (s : str) : str := rev (trimStart (rev s)).

Definition trim (s : str) : str := trimEnd (trimStart s).

Definition startsWith (s t : str) : bool := bool_decide (t `prefix_of` s).

Definition endsWith (s t : str) : bool := bool_decide (t `suffix_of` s).

(** [s.slice(start, end)]; [None] for an omitted [end]. *)
Definition slice (s : str) (start : Z) (end_ : option Z) : str :=
  let len := Z.of_nat (length s) in
  let clamp i := if i <? 0 then Z.max (len + i) 0 else Z.min i len in
  let from := clamp start in
  let to := match end_ with Some e => clamp e | None => len end in
  take (Z.to_nat (to - from)) (drop (Z.to_nat from) s).

(** [s.toLowerCase()] on code units below 256. *)
Definition lower (a : ascii) : ascii :=
  let n := nat_of_ascii a in
  if ((65 <=? n) && (n <=? 90))%nat then ascii_of_nat (n + 32)
  else if ((192 <=? n) && (n <=? 222) && negb (n =? 215))%nat
       then ascii_of_nat (n + 32)
  else a.

Definition toLowerCase (s : str) : str := lower <$> s.

(** [s.indexOf(a)], [None] standing for -1. *)
Fixpoint indexOf (a : ascii) (s : str) : option nat :=
  match s with
  | [] => None
  | b :: r => if bool_decide (b = a) then Some 0%nat else S <$> indexOf a r
  end.

(** ** JavaScript numbers

    A number is an IEEE 754 binary64 value: NaN, an infinity, or finite.  A
    finite number is carried as the rational it stands for, in lowest
    terms; the two zeros are one.  Rounding is that of the Standard
    Library's specification of floating-point arithmetic ([SpecFloat]) at
    precision 53 and maximal exponent 1024: to the nearest value, ties to
    the even one, with gradual underflow and overflow to an infinity. *)

Inductive jsnum :=
| NaN
| PInf
| NInf
| Fin (q : Q).

(** The number a binary64 value stands for. *)
Definition of_spec_float (x : SpecFloat.spec_float) : jsnum :=
  match x with
  | SpecFloat.S754_zero _ => Fin 0
  | SpecFloat.S754_infinity false => PInf
  | SpecFloat.S754_infinity true => NInf
  | SpecFloat.S754_nan => NaN
  | SpecFloat.S754_finite s m e =>
      let v :=
        if 0 <=? e then inject_Z (Zpos m * 2 ^ e)
        else Zpos m # Z.to_pos (2 ^ (- e)) in
      Fin (Qred (if s then - v else v))
  end.

(** The binary64 value nearest to the rational [q]: the correctly rounded
    quotient of its numerator by its denominator. *)
Definition round64 (q : Q) : jsnum :=
  match Qnum q with
  | Z0 => Fin 0
  | Zpos n =>
      of_spec_float
        (SpecFloat.SFdiv 53 1024 (SpecFloat.S754_finite false n 0)
           (SpecFloat.S754_finite false (Qden q) 0))
  | Zneg n =>
      of_spec_float
        (SpecFloat.SFdiv 53 1024 (SpecFloat.S754_finite true n 0)
           (SpecFloat.S754_finite false (Qden q) 0))
  end.

(** [Number.isFinite(x)], [x > 0], [x <= 0] and [x / 100]. *)
Definition isFinite (x : jsnum) : bool :=
  match x with Fin _ => true | _ => false end.

Definition gt0 (x : jsnum) : bool :=
  match x with
  | Fin q => negb (Qle_bool q 0)
  | PInf => true
  | _ => false
  end.

Definition le0 (x : jsnum) : bool :=
  match x with
  | Fin q => Qle_bool q 0
  | NInf => true
  | _ => false
  end.

Definition div100 (x : jsnum) : jsnum :=
  match x with
  | Fin q => round64 (q / 100)
  | other => other
  end.

(** *** [parseFloat] *)

Definition digit_of (a : ascii) : option Z :=
  let n := nat_of_ascii a in
  if ((48 <=? n) && (n <=? 57))%nat then Some (Z.of_nat n - 48) else None.

(** The decimal digits at the head of [s]: their value on top of [acc], how
    many there are on top of [n], and what follows them. *)
Fixpoint digits (s : str) (acc : Z) (n : nat) : Z * nat * str :=
  match s with
  | a :: r =>
      match digit_of a with
      | Some d => digits r (10 * acc + d) (S n)
      | None => (acc, n, s)
      end
  | [] => (acc, n, [])
  end.

(** An optional sign: whether it is a minus, and the rest. *)
Definition sign_of (s : str) : bool * str :=
  match s with
  | a :: r =>
      if bool_decide (a = "-"%char) then (true, r)
      else if bool_decide (a = "+"%char) then (false, r)
      else (false, s)
  | [] => (false, [])
  end.

(** The exponent part at the head of [s], 0 when there is none: [e] or [E],
    an optional sign and at least one digit. *)
Definition exponent_of (s : str) : Z :=
  match s with
  | a :: r =>
      if bool_decide (a = "e"%char) || bool_decide (a = "E"%char) then
        let '(neg, r') := sign_of r in
        let '(v, n, _) := digits r' 0 0%nat in
        match n with
        | O => 0
        | _ => if neg then - v else v
        end
      else 0
  | [] => 0
  end.

(** [mant * 10^scale] *)
Definition decimal (mant scale : Z) : Q :=
  if 0 <=? scale then inject_Z (mant * 10 ^ scale)
  else mant # Z.to_pos (10 ^ (- scale)).

(** [parseFloat(s)]: leading white space is skipped, then the longest prefix
    that is a decimal literal ([Infinity], or digits with an optional
    fraction and exponent, with an optional sign) gives the value; NaN when
    there is none. *)
Definition parseFloat (s : str) : jsnum :=
  let s := trimStart s in
  let '(neg, s) := sign_of s in
  if startsWith s (lit "Infinity") then (if neg then NInf else PInf)
  else
    let '(ip, ni, r1) := digits s 0 0%nat in
    let '(m, nf, r2) :=
      match r1 with
      | a :: r =>
          if bool_decide (a = "."%char) then
            let '(m, nf, r2) := digits r ip 0%nat in (m, nf, r2)
          else (ip, 0%nat, r1)
      | [] => (ip, 0%nat, r1)
      end in
    match (ni + nf)%nat with
    | O => NaN
    | _ =>
        let q := decimal m (exponent_of r2 - Z.of_nat nf) in
        round64 (if neg then - q else q)
    end.

(** ** Configuration (config.ts) *)

Module Config.

Inductive Protocol := openai | anthropic | gemini.

(** [ChannelConfig]; [protocol] is read by request_context.ts and not set by
    [loadChannelConfigs]. *)
Record ChannelConfig := {
  ch_name : str;
  ch_baseUrl : str;
  ch_apiKey : option str;
  ch_protocol : option Protocol;
}.

Record UpstreamConfig := {
  baseUrl : str;
  apiKey : option str;
  requestModel : str;
  nameModel : str;
}.

(** [ProxyConfig]; [defaultProtocol] is read by request_context.ts and not
    set by [loadConfig]. *)
Record ProxyConfig := {
  port : jsnum;
  host : str;
  upstreamConfigs : list UpstreamConfig;
  channelConfigs : list ChannelConfig;
  upstreamBaseUrl : option str;
  upstreamApiKey : option str;
  upstreamModelOverride : option str;
  clientApiKey : option str;
  requestTimeoutMs : jsnum;
  aggregationIntervalMs : jsnum;
  maxRequestsPerMinute : jsnum;
  tokenMultiplier : jsnum;
  autoPort : bool;
  passthroughApiKey : bool;
  defaultProtocol : option Protocol;
}.

(** A function that returns or throws. *)
Inductive result (A : Type) :=
| Ok (a : A)
| Thrown (message : str).

Arguments Ok {A} a.
Arguments Thrown {A} message.

(** The string [parseTokenMultiplier] works on: the value trimmed, and
    without the quotes that wrap it. *)
Definition unquoted (raw : str) : str :=
  let s := trim raw in
  if (startsWith s [dquote] && endsWith s [dquote])
     || (startsWith s [squote] && endsWith s [squote])
  then trim (slice s 1 (Some (-1)))
  else s.

(** The string without an x at its end or, when it has none there, at its
    start. *)
Definition without_x (s : str) : str :=
  if endsWith (toLowerCase s) (lit "x")
  then trim (slice s 0 (Some (-1)))
  else if startsWith (toLowerCase s) (lit "x")
       then trim (slice s 1 None)
       else s.

Definition parseTokenMultiplier (raw : option str) : jsnum :=
  match raw with
  | None => Fin 1
  | Some raw =>
      if falsy raw then Fin 1
      else
        if falsy (trim raw) then Fin 1
        else
          let s := unquoted raw in
          let percent :=
            if endsWith s (lit "%") then
              let num := parseFloat (slice s 0 (Some (-1))) in
              if isFinite num && gt0 num then Some (div100 num) else None
            else None in
          match percent with
          | Some value => value
          | None =>
              let num := parseFloat (without_x s) in
              if negb (isFinite num) || le0 num then Fin 1 else num
          end
  end.

(** The environment [Deno.env]. *)
Definition Env : Type := gmap string str.

Definition env_get (env : Env) (key : string) : option str := env !! key.

Definition channel_key (i : nat) (field : string) : string :=
  "CHANNEL_" +:+ pretty i +:+ field.

Definition upstream_key (i : nat) (field : string) : string :=
  "UPSTREAM_CONFIG_" +:+ pretty i +:+ field.

(** The [while (true)] loop of [loadChannelConfigs] from index [i] on.  Every
    round reads a variable of the environment that no other round reads, so
    there are at most as many rounds as variables, which bounds [fuel]. *)
Fixpoint loadChannelConfigs_from (fuel i : nat) (env : Env) : list ChannelConfig :=
  match fuel with
  | O => []
  | S fuel' =>
      let name := env_get env (channel_key i "_NAME") in
      let baseUrl := env_get env (channel_key i "_BASE_URL") in
      let apiKey := env_get env (channel_key i "_API_KEY") in
      match name, baseUrl with
      | Some (n :: name'), Some (b :: baseUrl') =>
          {| ch_name := n :: name'; ch_baseUrl := b :: baseUrl';
             ch_apiKey := apiKey; ch_protocol := None |}
          :: loadChannelConfigs_from fuel' (S i) env
      | _, _ => []
      end
  end.

Definition loadChannelConfigs (env : Env) : list ChannelConfig :=
  loadChannelConfigs_from (S (size env)) 1 env.

Fixpoint loadUpstreamConfigs_from (fuel i : nat) (env : Env) : list UpstreamConfig :=
  match fuel with
  | O => []
  | S fuel' =>
      let baseUrl := env_get env (upstream_key i "_BASE_URL") in
      let apiKey := env_get env (upstream_key i "_API_KEY") in
      let requestModel := env_get env (upstream_key i "_REQUEST_MODEL") in
      let nameModel := env_get env (upstream_key i "_NAME_MODEL") in
      match baseUrl, requestModel, nameModel with
      | Some (b :: baseUrl'), Some (r :: requestModel'), Some (n :: nameModel') =>
          {| baseUrl := b :: baseUrl'; apiKey := apiKey;
             requestModel := r :: requestModel'; nameModel := n :: nameModel' |}
          :: loadUpstreamConfigs_from fuel' (S i) env
      | _, _, _ => []
      end
  end.

Definition loadUpstreamConfigs (env : Env) : list UpstreamConfig :=
  loadUpstreamConfigs_from (S (size env)) 1 env.

Definition DEFAULT_UPSTREAM_BASE_URL : str :=
  lit "http://127.0.0.1:8000/v1/chat/completions".

Section LoadConfig.

(** [Number(s)], the conversion of a string to a number. *)
Variable Number : str -> jsnum.

Definition loadConfig (env : Env) : result ProxyConfig :=
  let autoPort := bool_decide (env_get env "AUTO_PORT" = Some (lit "true")) in
  let port :=
    if autoPort then Fin 0
    else Number (default (lit "3456") (env_get env "PORT")) in
  let host := default (lit "0.0.0.0") (env_get env "HOST") in
  let clientApiKey := env_get env "CLIENT_API_KEY" in
  let requestTimeoutMs := Number (default (lit "120000") (env_get env "TIMEOUT_MS")) in
  let aggregationIntervalMs :=
    Number (default (lit "35") (env_get env "AGGREGATION_INTERVAL_MS")) in
  let maxRequestsPerMinute :=
    Number (default (lit "10") (env_get env "MAX_REQUESTS_PER_MINUTE")) in
  let tokenMultiplier := parseTokenMultiplier (env_get env "TOKEN_MULTIPLIER") in
  let passthroughApiKey :=
    bool_decide (env_get env "PASSTHROUGH_API_KEY" = Some (lit "true")) in
  let channelConfigs := loadChannelConfigs env in
  let upstreamConfigs := loadUpstreamConfigs env in
  let build upstreamBaseUrl upstreamApiKey upstreamModelOverride :=
    {| port := port; host := host; upstreamConfigs := upstreamConfigs;
       channelConfigs := channelConfigs; upstreamBaseUrl := upstreamBaseUrl;
       upstreamApiKey := upstreamApiKey;
       upstreamModelOverride := upstreamModelOverride;
       clientApiKey := clientApiKey; requestTimeoutMs := requestTimeoutMs;
       aggregationIntervalMs := aggregationIntervalMs;
       maxRequestsPerMinute := maxRequestsPerMinute;
       tokenMultiplier := tokenMultiplier; autoPort := autoPort;
       passthroughApiKey := passthroughApiKey; defaultProtocol := None |} in
  if (length upstreamConfigs =? 0)%nat then
    let upstreamBaseUrl :=
      default DEFAULT_UPSTREAM_BASE_URL (env_get env "UPSTREAM_BASE_URL") in
    if falsy upstreamBaseUrl then
      Thrown (lit "UPSTREAM_BASE_URL must be provided when no UPSTREAM_CONFIG_* defined")
    else
      Ok (build (Some upstreamBaseUrl) (env_get env "UPSTREAM_API_KEY")
            (env_get env "UPSTREAM_MODEL"))
  else Ok (build None None None).

End LoadConfig.

End Config.

(** ** Choosing the upstream (upstream.ts) *)

Module Upstream.

Import Config.

(** [parseChannelModel]: [null] when the model has no plus sign. *)
Definition parseChannelModel (clientModel : str) : option (str * str) :=
  match indexOf "+"%char clientModel with
  | None => None
  | Some plusIndex =>
      let channelName := slice clientModel 0 (Some (Z.of_nat plusIndex)) in
      let modelName := slice clientModel (Z.of_nat plusIndex + 1) None in
      Some (channelName, modelName)
  end.

Definition no_upstream (clientModel : str) : str :=
  lit "No upstream configuration found for model " ++ [dquote] ++ clientModel
    ++ [dquote].

(** The part of [selectUpstreamConfig] after the channel lookup: the
    numbered configurations, then the legacy one, then the error. *)
Definition selectNumberedOrLegacy (config : ProxyConfig) (clientModel : str)
    : result UpstreamConfig :=
  match find (fun u => str_eqb (nameModel u) clientModel) (upstreamConfigs config) with
  | Some upstreamConfig => Ok upstreamConfig
  | None =>
      match upstreamBaseUrl config with
      | Some (b :: url) =>
          Ok {| baseUrl := b :: url;
                apiKey := upstreamApiKey config;
                requestModel := default clientModel (upstreamModelOverride config);
                nameModel := clientModel |}
      | _ => Thrown (no_upstream clientModel)
      end
  end.

Definition selectUpstreamConfig (config : ProxyConfig) (clientModel : str)
    : result UpstreamConfig :=
  let channelModel := parseChannelModel clientModel in
  let channel :=
    match channelModel with
    | Some (channelName, modelName) =>
        match find (fun c => str_eqb (ch_name c) channelName) (channelConfigs config) with
        | Some channel => Some (channel, modelName)
        | None => None
        end
    | None => None
    end in
  match channel with
  | Some (channel, modelName) =>
      Ok {| baseUrl := ch_baseUrl channel;
            apiKey := ch_apiKey channel;
            requestModel := modelName;
            nameModel := clientModel |}
  | None => selectNumberedOrLegacy config clientModel
  end.


End Upstream.

(** ** The request context (ai_client/request_context.ts and types.ts) *)

Module RequestContext.

Import Config.

(** [UpstreamConfig] of ai_client/types.ts.  [baseUrl] and [protocol] are
    optional here because [parseChannelInfo] copies them from optional
    fields of the configuration. *)
Record UpstreamConfig := {
  baseUrl : option str;
  apiKey : option str;
  model : str;
  protocol : option Protocol;
}.

Definition parseChannelInfo (modelName : str) (config : ProxyConfig)
    (clientApiKey : option str) : UpstreamConfig :=
  let plusIndex := indexOf "+"%char modelName in
  let '(baseUrl, apiKey, model, protocol) :=
    match plusIndex with
    | Some plusIndex =>
        let channelName := slice modelName 0 (Some (Z.of_nat plusIndex)) in
        let actualModel := slice modelName (Z.of_nat plusIndex + 1) None in
        match find (fun c => str_eqb (ch_name c) channelName) (channelConfigs config) with
        | Some channel =>
            (Some (ch_baseUrl channel), ch_apiKey channel, actualModel,
             match ch_protocol channel with
             | Some p => Some p
             | None => defaultProtocol config
             end)
        | None =>
            (upstreamBaseUrl config, upstreamApiKey config, modelName,
             defaultProtocol config)
        end
    | None =>
        match channelConfigs config with
        | channel :: _ =>
            (Some (ch_baseUrl channel), ch_apiKey channel, modelName,
             match ch_protocol channel with
             | Some p => Some p
             | None => defaultProtocol config
             end)
        | [] =>
            (upstreamBaseUrl config, upstreamApiKey config,
             default modelName (upstreamModelOverride config),
             defaultProtocol config)
        end
    end in
  let apiKey :=
    if passthroughApiKey config && truthy clientApiKey then clientApiKey
    else apiKey in
  {| baseUrl := baseUrl; apiKey := apiKey; model := model; protocol := protocol |}.

(** The headers [forwardRequest] builds for the upstream request. *)
Definition forwardRequest_headers (upstreamConfig : UpstreamConfig)
    : list (str * str) :=
  let key := match apiKey upstreamConfig with Some (k :: key) => Some (k :: key) | _ => None end in
  (lit "Content-Type", lit "application/json")
  :: match protocol upstreamConfig with
     | Some openai =>
         match key with
         | Some key => [(lit "Authorization", lit "Bearer " ++ key)]
         | None => []
         end
     | _ =>
         match key with
         | Some key => [(lit "x-api-key", key)]
         | None => []
         end
         ++ [(lit "anthropic-version", lit "2023-06-01")]
     end.

End RequestContext.

(** The model string has no plus sign, or what stands before its first plus
    sign is the name of no configured channel. *)
Definition names_no_channel (config : Config.ProxyConfig) (m : str) : Prop :=
  forall ch rest channel,
    m = ch ++ "+"%char :: rest -> "+"%char ∉ ch ->
    channel ∈ Config.channelConfigs config -> Config.ch_name channel <> ch.

(** A configuration as [loadConfig] builds it from one numbered upstream and
    one channel, whose name holds a plus sign: since a numbered upstream is
    defined, the legacy fields are left undefined. *)
Definition numbered_only_config : Config.ProxyConfig :=
  {| Config.port := Fin 3456; Config.host := lit "0.0.0.0";
     Config.upstreamConfigs :=
       [{| Config.baseUrl := lit "https://one.example/v1";
           Config.apiKey := None;
           Config.requestModel := lit "real-model";
           Config.nameModel := lit "named" |}];
     Config.channelConfigs :=
       [{| Config.ch_name := lit "a+b";
           Config.ch_baseUrl := lit "https://ab.example/v1";
           Config.ch_apiKey := None; Config.ch_protocol := None |}];
     Config.upstreamBaseUrl := None; Config.upstreamApiKey := None;
     Config.upstreamModelOverride := None; Config.clientApiKey := None;
     Config.requestTimeoutMs := Fin 120000; Config.aggregationIntervalMs := Fin 35;
     Config.maxRequestsPerMinute := Fin 10; Config.tokenMultiplier := Fin 1;
     Config.autoPort := false; Config.passthroughApiKey := false;
     Config.defaultProtocol := None |}.

(** A configuration with one channel, a legacy upstream with a key and the
    passthrough of client keys switched on. *)
Definition passthrough_config : Config.ProxyConfig :=
  {| Config.port := Fin 3456; Config.host := lit "0.0.0.0";
     Config.upstreamConfigs := [];
     Config.channelConfigs :=
       [{| Config.ch_name := lit "openrouter";
           Config.ch_baseUrl := lit "https://openrouter.example/v1";
           Config.ch_apiKey := Some (lit "sk-channel");
           Config.ch_protocol := Some Config.openai |}];
     Config.upstreamBaseUrl := Some (lit "https://legacy.example/v1");
     Config.upstreamApiKey := Some (lit "sk-legacy");
     Config.upstreamModelOverride := None; Config.clientApiKey := None;
     Config.requestTimeoutMs := Fin 120000; Config.aggregationIntervalMs := Fin 35;
     Config.maxRequestsPerMinute := Fin 10; Config.tokenMultiplier := Fin 1;
     Config.autoPort := false; Config.passthroughApiKey := true;
     Config.defaultProtocol := Some Config.openai |}.

(** ** Collaborators and inputs for the worked examples *)

Module Sample.

Definition count (s : str) : Z := Z.of_nat (length s).

Definition stringify (args : list (str * str)) : str :=
  match args with
  | [] => lit "{}"
  | _ => lit "{...}"
  end.

Definition toolId (n : nat) : str := lit "toolu_" ++ lit (pretty n).

Definition adjust (total : Z) : Z := Z.max 1 total.

Definition get_weather : ParsedInvokeCall :=
  {| name := lit "get_weather"; arguments := [] |}.

Definition run := ClaudeStream.run count stringify toolId adjust.

Definition fresh : ClaudeStream.StreamContext := ClaudeStream.new (lit "req1") 7.

(** The upstream answers the second retry with a well-formed call. *)
Definition second_time (content priorText : str) (attempt : nat)
    : StreamHandler.RetryResult :=
  if (attempt =? 2)%nat then StreamHandler.RetrySucceeded get_weather
  else StreamHandler.RetryFailed (lit "malformed").

Definition retrying (n : nat) : StreamHandler.HandlerArgs :=
  {| StreamHandler.toolCallRetry :=
       Some {| StreamHandler.enabled := true; StreamHandler.keepAlive := None;
               StreamHandler.maxRetries := Some n |};
     StreamHandler.delimiter := true;
     StreamHandler.originalMessages_length := 1;
     StreamHandler.upstreamUrl := lit "https://legacy.example/v1" |}.

Definition failed_call : str := lit "<<CALL_ab12>><invoke name=".

Definition last_events : list ParserEvent := [ToolCallFailed failed_call []; End].

Definition afterEOF :=
  StreamHandler.afterEOF count stringify toolId adjust second_time.

End Sample.

(** ** The incremental stream parser (parser.ts) *)

Module ToolifyParser.

(** Modelled from the spec: the states of [ToolifyParser] of parser.ts,
    which is not among the source files (only the parser's callers and
    its test are), as section 4.5 of the spec lists them. *)
Inductive State :=
| NORMAL
| THINKING
| TOOL_WAIT_INVOKE
| TOOL_NAME
| TOOL_BODY
| TOOL_PARAM_NAME
| TOOL_PARAM_VALUE
| TOOL_DONE.

(** Modelled from the spec: the markers of signals.ts, which is not among the
    source files. *)
Definition THINK_OPEN : str := lit "<thinking>".
Definition THINK_CLOSE : str := lit "</thinking>".
Definition INVOKE_OPEN : str := lit "<invoke name=" ++ [dquote].
Definition INVOKE_CLOSE : str := lit "</invoke>".
Definition PARAM_OPEN : str := lit "<parameter name=" ++ [dquote].
Definition PARAM_CLOSE : str := lit "</parameter>".
Definition ATTR_END : str := [dquote] ++ lit ">".

(** [window] is the rolling window: what was read in the current state and
    is not accounted for yet.  [raw] is the text from the trigger signal on,
    [priorText] the text emitted before it, [ignoring] is set after a tool
    call, [events] are the events not consumed yet, oldest first. *)
Record Parser := {
  TC_START : option str;
  state : State;
  window : str;
  priorText : str;
  raw : str;
  toolName : str;
  paramName : str;
  params : list (str * str);
  malformed : bool;
  ignoring : bool;
  events : list ParserEvent;
}.

Definition new (delimiter : option str) : Parser :=
  {| TC_START := delimiter; state := NORMAL; window := []; priorText := [];
     raw := []; toolName := []; paramName := []; params := [];
     malformed := false; ignoring := false; events := [] |}.

(** [w] without its last [n] characters. *)
Definition drop_end (n : nat) (w : str) : str := take (length w - n) w.

(** The markers watched for in [NORMAL]. *)
Definition watched (delimiter : option str) : list str :=
  THINK_OPEN :: match delimiter with Some tc => [tc] | None => [] end.

(** [s] may still grow into one of the markers. *)
Definition viable (markers : list str) (s : str) : Prop :=
  Exists (fun m => s `prefix_of` m /\ s <> m) markers.

#[global] Instance viable_dec markers s : Decision (viable markers s).
Proof. unfold viable. apply _. Defined.

(** The longest suffix of [w] that may still grow into a marker: the part of
    the window that is not emitted yet. *)
Fixpoint held (markers : list str) (w : str) : str :=
  if decide (viable markers w) then w
  else match w with
       | [] => []
       | _ :: w' => held markers w'
       end.

Definition push (e : ParserEvent) (p : Parser) : Parser :=
  {| TC_START := TC_START p; state := state p; window := window p;
     priorText := priorText p; raw := raw p; toolName := toolName p;
     paramName := paramName p; params := params p; malformed := malformed p;
     ignoring := ignoring p; events := events p ++ [e] |}.

(** Visible text leaves the parser as a [Text] event and is remembered as
    [priorText]. *)
Definition emitText (t : str) (p : Parser) : Parser :=
  match t with
  | [] => p
  | _ =>
      {| TC_START := TC_START p; state := state p; window := window p;
         priorText := priorText p ++ t; raw := raw p; toolName := toolName p;
         paramName := paramName p; params := params p; malformed := malformed p;
         ignoring := ignoring p; events := events p ++ [Text t] |}
  end.

Definition emitThinking (t : str) (p : Parser) : Parser :=
  match t with
  | [] => p
  | _ => push (Thinking t) p
  end.

Definition goto (s : State) (w : str) (p : Parser) : Parser :=
  {| TC_START := TC_START p; state := s; window := w;
     priorText := priorText p; raw := raw p; toolName := toolName p;
     paramName := paramName p; params := params p; malformed := malformed p;
     ignoring := ignoring p; events := events p |}.

Definition set_raw (r : str) (p : Parser) : Parser :=
  {| TC_START := TC_START p; state := state p; window := window p;
     priorText := priorText p; raw := r; toolName := toolName p;
     paramName := paramName p; params := params p; malformed := malformed p;
     ignoring := ignoring p; events := events p |}.

Definition set_toolName (n : str) (p : Parser) : Parser :=
  {| TC_START := TC_START p; state := state p; window := window p;
     priorText := priorText p; raw := raw p; toolName := n;
     paramName := paramName p; params := params p;
     malformed := malformed p || falsy n;
     ignoring := ignoring p; events := events p |}.

Definition set_paramName (n : str) (p : Parser) : Parser :=
  {| TC_START := TC_START p; state := state p; window := window p;
     priorText := priorText p; raw := raw p; toolName := toolName p;
     paramName := n; params := params p;
     malformed := malformed p || falsy n;
     ignoring := ignoring p; events := events p |}.

Definition add_param (v : str) (p : Parser) : Parser :=
  {| TC_START := TC_START p; state := state p; window := window p;
     priorText := priorText p; raw := raw p; toolName := toolName p;
     paramName := []; params := params p ++ [(paramName p, v)];
     malformed := malformed p;
     ignoring := ignoring p; events := events p |}.

Definition set_malformed (p : Parser) : Parser :=
  {| TC_START := TC_START p; state := state p; window := window p;
     priorText := priorText p; raw := raw p; toolName := toolName p;
     paramName := paramName p; params := params p; malformed := true;
     ignoring := ignoring p; events := events p |}.

Definition set_ignoring (p : Parser) : Parser :=
  {| TC_START := TC_START p; state := state p; window := window p;
     priorText := priorText p; raw := raw p; toolName := toolName p;
     paramName := paramName p; params := params p; malformed := malformed p;
     ignoring := true; events := events p |}.

(** Anything but white space between the pieces of an invoke block is an
    illegal interleaving. *)
Definition blank (w : str) : bool := forallb is_white w.

Definition note_junk (w : str) (p : Parser) : Parser :=
  if blank w then p else set_malformed p.

(** Modelled from the spec: the state [TOOL_DONE] of the parser.  The call
    is delivered, or the failure with the raw text; the parser is back in
    [NORMAL] and ignores what follows. *)
Definition tool_done (p : Parser) : Parser :=
  let p := goto TOOL_DONE [] p in
  let p :=
    if malformed p
    then push (ToolCallFailed (raw p) (priorText p)) p
    else push (ToolCall {| name := toolName p; arguments := params p |}) p in
  set_ignoring (goto NORMAL [] p).

(** Modelled from the spec: [ToolifyParser.feedChar], after section 4.5 of
    the spec: the rolling window that holds back a partly matched marker,
    the whitespace consumed after the trigger signal, the pieces of the
    invoke block read state by state, and the text ignored after a tool
    call.  Where the spec is silent the model does the least: a tool call
    that turns out malformed is reported where the spec reports it, at
    [</invoke>] or at [finish]; argument values are kept as the text between
    the parameter tags. *)
Definition feedChar (c : ascii) (p : Parser) : Parser :=
  if ignoring p then p
  else
    let w := window p ++ [c] in
    match state p with
    | NORMAL =>
        if endsWith w THINK_OPEN then
          goto THINKING [] (emitText (drop_end (length THINK_OPEN) w) p)
        else
          match TC_START p with
          | Some tc =>
              if endsWith w tc then
                set_raw tc
                  (goto TOOL_WAIT_INVOKE [] (emitText (drop_end (length tc) w) p))
              else
                let keep := held (watched (TC_START p)) w in
                goto NORMAL keep (emitText (drop_end (length keep) w) p)
          | None =>
              let keep := held (watched (TC_START p)) w in
              goto NORMAL keep (emitText (drop_end (length keep) w) p)
          end
    | THINKING =>
        if endsWith w THINK_CLOSE then
          goto NORMAL [] (emitThinking (drop_end (length THINK_CLOSE) w) p)
        else goto THINKING w p
    | TOOL_WAIT_INVOKE =>
        let p := set_raw (raw p ++ [c]) p in
        if falsy (window p) && is_white c then p
        else if str_eqb w INVOKE_OPEN then goto TOOL_NAME [] p
        else if startsWith INVOKE_OPEN w then goto TOOL_WAIT_INVOKE w p
        else goto TOOL_BODY [] (set_malformed p)
    | TOOL_NAME =>
        let p := set_raw (raw p ++ [c]) p in
        if endsWith w ATTR_END then
          goto TOOL_BODY [] (set_toolName (drop_end (length ATTR_END) w) p)
        else goto TOOL_NAME w p
    | TOOL_BODY =>
        let p := set_raw (raw p ++ [c]) p in
        if endsWith w INVOKE_CLOSE then
          tool_done (note_junk (drop_end (length INVOKE_CLOSE) w) p)
        else if endsWith w PARAM_OPEN then
          goto TOOL_PARAM_NAME [] (note_junk (drop_end (length PARAM_OPEN) w) p)
        else goto TOOL_BODY w p
    | TOOL_PARAM_NAME =>
        let p := set_raw (raw p ++ [c]) p in
        if endsWith w ATTR_END then
          goto TOOL_PARAM_VALUE [] (set_paramName (drop_end (length ATTR_END) w) p)
        else goto TOOL_PARAM_NAME w p
    | TOOL_PARAM_VALUE =>
        let p := set_raw (raw p ++ [c]) p in
        if endsWith w PARAM_CLOSE then
          goto TOOL_BODY [] (add_param (drop_end (length PARAM_CLOSE) w) p)
        else goto TOOL_PARAM_VALUE w p
    | TOOL_DONE => p
    end.

(** [feedReasoning]: a thinking delta of the upstream, delivered as it is. *)
Definition feedReasoning (s : str) (p : Parser) : Parser :=
  emitThinking s p.

(** Modelled from the spec: [ToolifyParser.finish].  What is still held is
    delivered: held text as text, an open thinking block as thinking, an
    unfinished tool call as a failure with its raw text; then [End]. *)
Definition finish (p : Parser) : Parser :=
  let p :=
    if ignoring p then p
    else
      match state p with
      | NORMAL => goto NORMAL [] (emitText (window p) p)
      | THINKING => goto NORMAL [] (emitThinking (window p) p)
      | TOOL_DONE => p
      | _ => set_ignoring (goto NORMAL [] (push (ToolCallFailed (raw p) (priorText p)) p))
      end in
  push End p.

Definition consumeEvents (p : Parser) : list ParserEvent * Parser :=
  (events p,
   {| TC_START := TC_START p; state := state p; window := window p;
      priorText := priorText p; raw := raw p; toolName := toolName p;
      paramName := paramName p; params := params p; malformed := malformed p;
      ignoring := ignoring p; events := [] |}).

(** Feeding a text one character at a time. *)
Definition feed (text : str) (p : Parser) : Parser :=
  fold_left (fun p c => feedChar c p) text p.

(** All the events of a transcript: the text fed character by character,
    then [finish]. *)
Definition parse (delimiter : option str) (text : str) : list ParserEvent :=
  events (finish (feed text (new delimiter))).

End ToolifyParser.

(** The concatenation of the contents of the [Text] events. *)
Fixpoint texts (evs : list ParserEvent) : str :=
  match evs with
  | [] => []
  | Text content :: evs' => content ++ texts evs'
  | _ :: evs' => texts evs'
  end.




(** What the parser lets through as text, read off the whole input at once:
    [acc] is what was read since the last marker.  Outside a thinking block
    the text runs until what was read ends with [<thinking>], which opens a
    thinking block, or with the trigger signal, after which nothing is text
    any more; inside a thinking block nothing is text until what was read
    ends with [</thinking>]. *)
Fixpoint visible_from (delimiter : option str) (thinking : bool) (acc rest : str)
    : str :=
  match rest with
  | [] => if thinking then [] else acc
  | c :: rest' =>
      let w := acc ++ [c] in
      if thinking then
        if endsWith w ToolifyParser.THINK_CLOSE
        then visible_from delimiter false [] rest'
        else visible_from delimiter true w rest'
      else if endsWith w ToolifyParser.THINK_OPEN then
        ToolifyParser.drop_end (length ToolifyParser.THINK_OPEN) w
        ++ visible_from delimiter true [] rest'
      else
        match delimiter with
        | Some tc =>
            if endsWith w tc then ToolifyParser.drop_end (length tc) w
            else visible_from delimiter false w rest'
        | None => visible_from delimiter false w rest'
        end
  end.

Definition visible_text (delimiter : option str) (text : str) : str :=
  visible_from delimiter false [] text.



(** ** Transcripts for the worked examples *)

Module Transcript.

Definition newline : str := [ascii_of_nat 10].

Definition trigger : str := lit "<<CALL_ab12>>".

(** The invoke block of scenario S2 of the spec. *)
Definition invoke_block : str :=
  lit "<invoke name=" ++ [dquote] ++ lit "get_weather" ++ [dquote] ++ lit ">"
  ++ newline
  ++ lit "<parameter name=" ++ [dquote] ++ lit "city" ++ [dquote] ++ lit ">"
  ++ [dquote] ++ lit "SF" ++ [dquote] ++ lit "</parameter>" ++ newline
  ++ lit "</invoke>".

(** The upstream text of scenario S2: text, the trigger signal on its own
    line, the invoke block. *)
Definition tool_call : str :=
  lit "Checking." ++ trigger ++ newline ++ invoke_block.

End Transcript.

(** [m] occurs in [s]. *)
Definition occurs_in (m s : str) : Prop := exists k1 k2, s = k1 ++ m ++ k2.

(** ** What a frame sequence delivers *)

(** A frame that the protocol allows only between blocks: the start of a
    block and the [message_delta] that ends the message. *)
Definition needs_closed (f : frame) : Prop :=
  match f with
  | ContentBlockStart _ _ => True
  | MessageDelta _ _ => True
  | _ => False
  end.

(** Every such frame of [fs] was sent while no block was open. *)
Definition orderly (fs : list frame) : Prop :=
  forall pre f post,
    fs = pre ++ f :: post -> needs_closed f -> open_blocks pre = [].

(** The three kinds of content a response carries in its deltas. *)
Inductive channel :=
| TextChannel
| ThinkingChannel
| ToolInputChannel.

(** What a frame carries on a channel. *)
Definition carried (k : channel) (f : frame) : str :=
  match f, k with
  | ContentBlockDelta _ (TextDelta text), TextChannel => text
  | ContentBlockDelta _ (ThinkingDelta thinking), ThinkingChannel => thinking
  | ContentBlockDelta _ (InputJsonDelta partial_json), ToolInputChannel => partial_json
  | _, _ => []
  end.

(** What a client that puts the deltas of a channel together has received. *)
Definition received (k : channel) (fs : list frame) : str :=
  concat (carried k <$> fs).

(** What a parser event asks the writer to deliver on a channel. *)
Definition produced (JSON_stringify : list (str * str) -> str) (k : channel)
    (e : ParserEvent) : str :=
  match e, k with
  | Text content, TextChannel => content
  | Thinking content, ThinkingChannel => content
  | ToolCall call, ToolInputChannel => JSON_stringify (arguments call)
  | _, _ => []
  end.

(** The parser events among the actions on a stream, in order. *)
Definition handled (acts : list ClaudeStream.action) : list ParserEvent :=
  concat ((fun a => match a with
                    | ClaudeStream.HandleEvents events => events
                    | _ => []
                    end) <$> acts).

(** What the aggregator still holds back of a channel. *)
Definition held_back (k : channel) (c : ClaudeStream.StreamContext) : str :=
  match k with
  | TextChannel => ClaudeStream.pending c
  | _ => []
  end.

(** The [partial_json] pieces sent for the block [i], put together. *)
Definition block_input (fs : list frame) (i : Z) : str :=
  concat ((fun f => match f with
                    | ContentBlockDelta j (InputJsonDelta partial_json) =>
                        if bool_decide (j = i) then partial_json else []
                    | _ => []
                    end) <$> fs).

(** The tool_use blocks started in [fs]: the tool's name and the input JSON
    a client reassembles for the block from the frames [all]. *)
Definition tool_uses_in (all fs : list frame) : list (str * str) :=
  omap (fun f => match f with
                 | ContentBlockStart i (ToolUseBlock _ tool) =>
                     Some (tool, block_input all i)
                 | _ => None
                 end) fs.

(** The tool_use blocks of a frame sequence. *)
Definition tool_uses (fs : list frame) : list (str * str) := tool_uses_in fs fs.

(** A frame that neither starts a tool_use block nor carries tool input. *)
Definition quiet_frame (f : frame) : Prop :=
  ~ is_tool_use_start f /\ carried ToolInputChannel f = [].

(** [c'] is [c] after some quiet frames were sent. *)
Definition quiet (c c' : ClaudeStream.StreamContext) : Prop :=
  exists new, ClaudeStream.sent c' = ClaudeStream.sent c ++ new
              /\ Forall quiet_frame new.

(** The tool calls among parser events: name and [JSON.stringify] of the
    arguments. *)
Definition tool_calls (JSON_stringify : list (str * str) -> str)
    (events : list ParserEvent) : list (str * str) :=
  omap (fun e => match e with
                 | ToolCall call => Some (name call, JSON_stringify (arguments call))
                 | _ => None
                 end) events.

(** ** Reading the numbered variables of the environment *)

(** The numbered upstream [i] of the environment: present when its three
    required variables are set and not empty (the test that ends the loop of
    [loadUpstreamConfigs]). *)
Definition upstream_entry (env : Config.Env) (i : nat) : option Config.UpstreamConfig :=
  match Config.env_get env (Config.upstream_key i "_BASE_URL"),
        Config.env_get env (Config.upstream_key i "_REQUEST_MODEL"),
        Config.env_get env (Config.upstream_key i "_NAME_MODEL") with
  | Some (b :: baseUrl), Some (r :: requestModel), Some (n :: nameModel) =>
      Some {| Config.baseUrl := b :: baseUrl;
              Config.apiKey := Config.env_get env (Config.upstream_key i "_API_KEY");
              Config.requestModel := r :: requestModel;
              Config.nameModel := n :: nameModel |}
  | _, _, _ => None
  end.

(** The channel [i] of the environment: present when its name and base URL
    are set and not empty. *)
Definition channel_entry (env : Config.Env) (i : nat) : option Config.ChannelConfig :=
  match Config.env_get env (Config.channel_key i "_NAME"),
        Config.env_get env (Config.channel_key i "_BASE_URL") with
  | Some (n :: name), Some (b :: baseUrl) =>
      Some {| Config.ch_name := n :: name; Config.ch_baseUrl := b :: baseUrl;
              Config.ch_apiKey := Config.env_get env (Config.channel_key i "_API_KEY");
              Config.ch_protocol := None |}
  | _, _ => None
  end.

(** ** [RequestContext.fromUpstreamInfo] (ai_client/request_context.ts) *)

Module UpstreamInfo.

Import Config.

(** The argument of [fromUpstreamInfo]. *)
Record UpstreamInfo := {
  baseUrl : str;
  apiKey : option str;
  model : str;
  protocol : Protocol;
}.

(** The upstream configuration and the minimal proxy configuration that
    [fromUpstreamInfo] puts in the context it builds.  The minimal
    configuration has no [upstreamConfigs] and no [clientApiKey]. *)
Definition fromUpstreamInfo (upstreamInfo : UpstreamInfo)
    : RequestContext.UpstreamConfig * ProxyConfig :=
  let upstreamConfig :=
    {| RequestContext.baseUrl := Some (baseUrl upstreamInfo);
       RequestContext.apiKey := apiKey upstreamInfo;
       RequestContext.model := model upstreamInfo;
       RequestContext.protocol := Some (protocol upstreamInfo) |} in
  let protocol :=
    match protocol upstreamInfo with
    | gemini => openai
    | other => other
    end in
  let minimalConfig :=
    {| upstreamBaseUrl := Some (baseUrl upstreamInfo);
       upstreamApiKey := apiKey upstreamInfo;
       upstreamModelOverride := Some (model upstreamInfo);
       channelConfigs := [];
       defaultProtocol := Some protocol;
       port := Fin 0;
       host := lit "0.0.0.0";
       requestTimeoutMs := Fin 120000;
       aggregationIntervalMs := Fin 35;
       maxRequestsPerMinute := Fin 10;
       tokenMultiplier := Fin 1;
       autoPort := false;
       passthroughApiKey := false;
       upstreamConfigs := [];
       clientApiKey := None |} in
  (upstreamConfig, minimalConfig).

End UpstreamInfo.

(** An environment with the numbered upstreams 1 and 3 and the channels 1
    and 3, and nothing at index 2. *)
Definition gapped_env : Config.Env :=
  list_to_map
    [("UPSTREAM_CONFIG_1_BASE_URL"%string, lit "https://one.example/v1");
     ("UPSTREAM_CONFIG_1_REQUEST_MODEL"%string, lit "real-one");
     ("UPSTREAM_CONFIG_1_NAME_MODEL"%string, lit "one");
     ("UPSTREAM_CONFIG_3_BASE_URL"%string, lit "https://three.example/v1");
     ("UPSTREAM_CONFIG_3_REQUEST_MODEL"%string, lit "real-three");
     ("UPSTREAM_CONFIG_3_NAME_MODEL"%string, lit "three");
     ("CHANNEL_1_NAME"%string, lit "a");
     ("CHANNEL_1_BASE_URL"%string, lit "https://a.example/v1");
     ("CHANNEL_3_NAME"%string, lit "c");
     ("CHANNEL_3_BASE_URL"%string, lit "https://c.example/v1");
     ("UPSTREAM_BASE_URL"%string, lit "https://legacy.example/v1")].

(** ** The read loop of the stream handlers
       (handle_openai_stream.ts and handle_anthropic_stream.ts)

    Both handlers read the upstream body chunk by chunk, each chunk decoded
    to text and added to a buffer that is cut at line feeds. *)

Module StreamReader.

Definition LF : ascii := ascii_of_nat 10.

(** [s.split("\n")] *)
Fixpoint split_lines (s : str) : list str :=
  match s with
  | [] => [[]]
  | a :: r =>
      if bool_decide (a = LF) then [] :: split_lines r
      else match split_lines r with
           | l :: ls => (a :: l) :: ls
           | [] => [[a]]
           end
  end.

(** One round of the loop:
    [buffer += chunk; lines = buffer.split("\n"); buffer = lines.pop() || ""]. *)
Definition take_lines (buffer chunk : str) : list str * str :=
  let lines := split_lines (buffer ++ chunk) in
  (removelast lines, default [] (last lines)).

(** The lines the loop sees over the chunks it reads, and the buffer it is
    left with at the end of the body. *)
Fixpoint lines_read (buffer : str) (chunks : list str) : list str * str :=
  match chunks with
  | [] => ([], buffer)
  | chunk :: rest =>
      let '(lines, buffer) := take_lines buffer chunk in
      let '(more, buffer) := lines_read buffer rest in
      (lines ++ more, buffer)
  end.

(** What the loops hand to the parser: text for [feedChar], character by
    character, or reasoning for [feedReasoning]. *)
Inductive fed :=
| Content (text : str)
| Reasoning (text : str).

Section OpenAI.

(** [JSON.parse(jsonStr)] as the loop uses it: [delta.content] and
    [delta.reasoning_content] of the first choice, empty when absent or
    falsy; [None] when the parse, or reading the result, throws. *)
Variable JSON_parse : str -> option (str * str).

(** The [for] loop over the lines of one read. *)
Fixpoint openai_lines (lines : list str) : list fed :=
  match lines with
  | [] => []
  | line :: rest =>
      let trimmed := trim line in
      if falsy trimmed || negb (startsWith trimmed (lit "data: ")) then openai_lines rest
      else
        let jsonStr := slice trimmed 6 None in
        if str_eqb jsonStr (lit "[DONE]") then []
        else
          match JSON_parse jsonStr with
          | Some (content, reasoning_content) =>
              (if falsy content then [] else [Content content])
              ++ (if falsy reasoning_content then [] else [Reasoning reasoning_content])
              ++ openai_lines rest
          | None => openai_lines rest
          end
  end.

(** The [while] loop over the reads. *)
Fixpoint openai_reads (buffer : str) (chunks : list str) : list fed :=
  match chunks with
  | [] => []
  | chunk :: rest =>
      let '(lines, buffer) := take_lines buffer chunk in
      openai_lines lines ++ openai_reads buffer rest
  end.

End OpenAI.

Section Anthropic.

(** [JSON.parse(jsonStr)] as the loop uses it: [delta.type] and
    [delta.text], empty when absent; [None] when the parse throws. *)
Variable JSON_parse : str -> option (str * str).

(** The [for] loop over the lines of one read; [eventType] is the type of
    the last [event:] line seen in this read. *)
Fixpoint anthropic_lines (eventType : str) (lines : list str) : list fed :=
  match lines with
  | [] => []
  | line :: rest =>
      let trimmed := trim line in
      if falsy trimmed then anthropic_lines eventType rest
      else if startsWith trimmed (lit "event: ")
      then anthropic_lines (slice trimmed 7 None) rest
      else if startsWith trimmed (lit "data: ") then
        let jsonStr := slice trimmed 6 None in
        match JSON_parse jsonStr with
        | Some (delta_type, text) =>
            (if str_eqb eventType (lit "content_block_delta")
                && str_eqb delta_type (lit "text_delta") && negb (falsy text)
             then [Content text] else [])
            ++ anthropic_lines eventType rest
        | None => anthropic_lines eventType rest
        end
      else anthropic_lines eventType rest
  end.

(** The [while] loop over the reads: [eventType] starts empty in each. *)
Fixpoint anthropic_reads (buffer : str) (chunks : list str) : list fed :=
  match chunks with
  | [] => []
  | chunk :: rest =>
      let '(lines, buffer) := take_lines buffer chunk in
      anthropic_lines [] lines ++ anthropic_reads buffer rest
  end.

End Anthropic.

(** A line that ends the [for] loop of the OpenAI handler. *)
Definition done_line (line : str) : Prop :=
  let trimmed := trim line in
  startsWith trimmed (lit "data: ") = true
  /\ slice trimmed 6 None = lit "[DONE]".

(** A line that sets the event type in the Anthropic handler. *)
Definition event_line (line : str) : Prop :=
  startsWith (trim line) (lit "event: ") = true.

(** A parse for the examples: the payload is the text itself. *)
Definition parse_text (jsonStr : str) : option (str * str) :=
  Some (lit "text_delta", jsonStr).

End StreamReader.

(** ** Building message lists (ai_client/context_builder.ts) *)

Module ContextBuilder.

(** A content block of a message, as far as the builder and the token
    counter look into it: its [type] and the fields read for that type.
    [input] is [JSON.stringify(block.input)]. *)
Inductive ContentBlock :=
| TextContent (text : str)
| ToolUseContent (tool : str) (input : str)
| ToolResultContent (result : str)
| OtherContent.

(** [content: string | ClaudeContentBlock[]] *)
Inductive Content :=
| StringContent (text : str)
| BlockContent (blocks : list ContentBlock).

Record ClaudeMessage := {
  role : str;
  content : Content;
}.

Definition appendUserMessage (messages : list ClaudeMessage) (content : Content)
    : list ClaudeMessage :=
  messages ++ [{| role := lit "user"; content := content |}].

Definition appendAssistantMessage (messages : list ClaudeMessage) (content : Content)
    : list ClaudeMessage :=
  messages ++ [{| role := lit "assistant"; content := content |}].

Definition buildRetryContext (originalMessages : list ClaudeMessage)
    (failedContent priorText correctionPrompt : str) : list ClaudeMessage :=
  let messagesWithFailed :=
    appendAssistantMessage originalMessages
      (StringContent (priorText ++ failedContent)) in
  appendUserMessage messagesWithFailed (StringContent correctionPrompt).

(** [truncateMessages], for an integer [maxMessages].  Where it is reached,
    [messages.length - maxMessages] is positive, and [slice] from a positive
    index drops that many elements. *)
Definition truncateMessages (messages : list ClaudeMessage) (maxMessages : Z)
    : list ClaudeMessage :=
  if Z.of_nat (length messages) <=? maxMessages then messages
  else drop (Z.to_nat (Z.of_nat (length messages) - maxMessages)) messages.

Definition block_length (block : ContentBlock) : nat :=
  match block with
  | TextContent text => length text
  | _ => 0%nat
  end.

Definition message_length (msg : ClaudeMessage) : nat :=
  match content msg with
  | StringContent text => length text
  | BlockContent blocks => fold_left (fun total block => (total + block_length block)%nat) blocks 0%nat
  end.

Definition estimateMessageLength (messages : list ClaudeMessage) : nat :=
  fold_left (fun totalLength msg => (totalLength + message_length msg)%nat) messages 0%nat.

(** *** [mergeMessages]

    [mergeMessages] writes into the message objects it is given: the
    messages are objects of a heap, a message list is a list of
    references. *)

Definition Heap : Type := nat -> ClaudeMessage.

Definition set_content (heap : Heap) (ref : nat) (c : Content) : Heap :=
  fun r =>
    if bool_decide (r = ref) then {| role := role (heap ref); content := c |}
    else heap r.

Definition separator : str := [ascii_of_nat 10; ascii_of_nat 10].

(** The body of the inner loop: [merged] is the list built so far. *)
Definition merge_one (st : Heap * list nat) (msg : nat) : Heap * list nat :=
  let '(heap, merged) := st in
  match last merged with
  | Some lastMsg =>
      if str_eqb (role (heap lastMsg)) (role (heap msg)) then
        match content (heap lastMsg), content (heap msg) with
        | StringContent a, StringContent b =>
            (set_content heap lastMsg (StringContent (a ++ separator ++ b)), merged)
        | _, _ => (heap, merged ++ [msg])
        end
      else (heap, merged ++ [msg])
  | None => (heap, merged ++ [msg])
  end.

Definition mergeMessages (heap : Heap) (messageLists : list (list nat))
    : Heap * list nat :=
  fold_left (fun st messages => fold_left merge_one messages st) messageLists (heap, []).

End ContextBuilder.

(** The message a reference stands for is text. *)
Definition is_text (heap : ContextBuilder.Heap) (ref : nat) : Prop :=
  match ContextBuilder.content (heap ref) with
  | ContextBuilder.StringContent _ => True
  | _ => False
  end.

(** Two messages that [mergeMessages] would merge when one follows the
    other: same role, both text. *)
Definition mergeable (heap : ContextBuilder.Heap) (a b : nat) : Prop :=
  ContextBuilder.role (heap a) = ContextBuilder.role (heap b)
  /\ is_text heap a /\ is_text heap b.

(** No message of the list can be merged into the one before it. *)
Fixpoint merged_through (heap : ContextBuilder.Heap) (refs : list nat) : Prop :=
  match refs with
  | a :: (b :: _) as rest => ~ mergeable heap a b /\ merged_through heap rest
  | _ => True
  end.

(** A heap for the examples: messages 0 and 1 are text of the user, message
    2 is text of the assistant. *)
Definition sample_heap : ContextBuilder.Heap :=
  fun r =>
    match r with
    | 0%nat => {| ContextBuilder.role := lit "user";
                  ContextBuilder.content := ContextBuilder.StringContent (lit "Hello") |}
    | 1%nat => {| ContextBuilder.role := lit "user";
                  ContextBuilder.content := ContextBuilder.StringContent (lit "again") |}
    | _ => {| ContextBuilder.role := lit "assistant";
              ContextBuilder.content := ContextBuilder.StringContent (lit "Hi") |}
    end.

(** The heap [heap'] has the messages of [heap] with the same roles, the
    same blocks, and text that starts with the text it had. *)
Definition grows (heap heap' : ContextBuilder.Heap) : Prop :=
  forall r,
    ContextBuilder.role (heap' r) = ContextBuilder.role (heap r)
    /\ match ContextBuilder.content (heap r) with
       | ContextBuilder.StringContent a =>
           exists b, ContextBuilder.content (heap' r)
                     = ContextBuilder.StringContent (a ++ b)
       | ContextBuilder.BlockContent blocks =>
           ContextBuilder.content (heap' r) = ContextBuilder.BlockContent blocks
       end.

(** ** Intercepting tool_use blocks (tools/tool_use_interceptor.ts) *)

Module ToolUseInterceptor.

(** The switches of [WebToolsConfig] that the interceptor reads when it
    decides. *)
Record WebToolsConfig := {
  enableSearchIntercept : bool;
  enableFetchIntercept : bool;
}.

(** The interceptor's fields, and [ran]: the calls of [executeWebSearch] and
    [executeWebFetch] made so far, each with the tool's name and the input
    buffer it was made with. *)
Record Interceptor := {
  webToolsConfig : WebToolsConfig;
  currentToolUse : option (str * str);
  shouldInterceptCurrent : bool;
  inputJsonBuffer : str;
  ran : list (str * str);
}.

Definition new (config : WebToolsConfig) : Interceptor :=
  {| webToolsConfig := config; currentToolUse := None;
     shouldInterceptCurrent := false; inputJsonBuffer := []; ran := [] |}.

Definition shouldInterceptToolUse (config : WebToolsConfig) (toolName : str) : bool :=
  if str_eqb toolName (lit "web_search") && enableSearchIntercept config then true
  else if str_eqb toolName (lit "web_fetch") && enableFetchIntercept config then true
  else false.

(** The handlers take the data of an SSE event and return whether they
    intercepted it.  An event without a [content_block] of type tool_use
    leaves [handleContentBlockStart] as it found it. *)
Definition handleContentBlockStart (event : frame) (s : Interceptor)
    : Interceptor * bool :=
  match event with
  | ContentBlockStart _ (ToolUseBlock id toolName) =>
      let shouldIntercept := shouldInterceptToolUse (webToolsConfig s) toolName in
      let s :=
        {| webToolsConfig := webToolsConfig s;
           currentToolUse := Some (id, toolName);
           shouldInterceptCurrent := shouldIntercept;
           inputJsonBuffer := [];
           ran := ran s |} in
      if shouldIntercept then (s, true) else (s, false)
  | _ => (s, false)
  end.

Definition handleContentBlockDelta (event : frame) (s : Interceptor)
    : Interceptor * bool :=
  if negb (shouldInterceptCurrent s) then (s, false)
  else
    let s :=
      match event, currentToolUse s with
      | ContentBlockDelta _ (InputJsonDelta partialJson), Some _ =>
          if falsy partialJson then s
          else
            {| webToolsConfig := webToolsConfig s;
               currentToolUse := currentToolUse s;
               shouldInterceptCurrent := shouldInterceptCurrent s;
               inputJsonBuffer := inputJsonBuffer s ++ partialJson;
               ran := ran s |}
      | _, _ => s
      end in
    (s, true).

(** [handleContentBlockStop]: the tool is run with the buffer, and whether
    that succeeds or throws the state is reset. *)
Definition handleContentBlockStop (event : frame) (s : Interceptor)
    : Interceptor * bool :=
  match shouldInterceptCurrent s, currentToolUse s with
  | true, Some (toolId, toolName) =>
      let ran' :=
        if str_eqb toolName (lit "web_search") || str_eqb toolName (lit "web_fetch")
        then ran s ++ [(toolName, inputJsonBuffer s)]
        else ran s in
      ({| webToolsConfig := webToolsConfig s; currentToolUse := None;
          shouldInterceptCurrent := false; inputJsonBuffer := []; ran := ran' |},
       true)
  | _, _ => (s, false)
  end.

(** A caller that hands each content-block event to the handler of its
    type, and forwards the other events. *)
Definition handle (s : Interceptor) (event : frame) : Interceptor * bool :=
  match event with
  | ContentBlockStart _ _ => handleContentBlockStart event s
  | ContentBlockDelta _ _ => handleContentBlockDelta event s
  | ContentBlockStop _ => handleContentBlockStop event s
  | _ => (s, false)
  end.

(** The interceptor after a sequence of events, and for each event whether
    it was intercepted. *)
Fixpoint observe (s : Interceptor) (events : list frame) : Interceptor * list bool :=
  match events with
  | [] => (s, [])
  | event :: rest =>
      let '(s, intercepted) := handle s event in
      let '(s, more) := observe s rest in
      (s, intercepted :: more)
  end.

End ToolUseInterceptor.

(** ** Cleaning log metadata (ai_client/logger.ts) *)

Module AIClientLogger.

(** [s.includes(m)] *)
Fixpoint includes (s m : str) : bool :=
  startsWith s m
  || match s with
     | [] => false
     | _ :: r => includes r m
     end.

(** A value of a metadata record, as far as [sanitizeMetadata] tells values
    apart: an object that is not an array is given by its entries in the
    order of [Object.entries]; an array by its items; anything else, a
    string, a number, a boolean, [null] or [undefined], by its text. *)
#[warnings="-register-all"] Inductive Value :=
| Primitive (text : str)
| ArrayValue (items : list Value)
| ObjectValue (entries : list (str * Value)).

(** [o[key] = v] on the entries of an object: the value of the entry is
    replaced, or an entry is added at the end.  On a plain object the key
    [__proto__] is the setter of [Object.prototype], which adds no entry. *)
Fixpoint set_entry (o : list (str * Value)) (key : str) (v : Value)
    : list (str * Value) :=
  match o with
  | [] => [(key, v)]
  | (k, w) :: r =>
      if str_eqb k key then (k, v) :: r else (k, w) :: set_entry r key v
  end.

Definition assign (o : list (str * Value)) (key : str) (v : Value)
    : list (str * Value) :=
  if str_eqb key (lit "__proto__") then o else set_entry o key v.

Definition sensitiveKeys : list str :=
  [lit "apikey"; lit "api_key"; lit "authorization"; lit "token";
   lit "password"; lit "secret"].

(** [sensitiveKeys.some(sk => key.toLowerCase().includes(sk))] *)
Definition sensitive (key : str) : bool :=
  let keyLower := toLowerCase key in
  existsb (fun sk => includes keyLower sk) sensitiveKeys.

Definition REDACTED : Value := Primitive (lit "[REDACTED]").

(** The inner loop, over the entries of a value that is a plain object. *)
Definition sanitize_object (objValue : list (str * Value)) : list (str * Value) :=
  fold_left
    (fun sanitizedObj '(objKey, objVal) =>
       if sensitive objKey then assign sanitizedObj objKey REDACTED
       else assign sanitizedObj objKey objVal)
    objValue [].

(** The body of the outer loop. *)
Definition sanitize_entry (sanitized : list (str * Value)) (entry : str * Value)
    : list (str * Value) :=
  let '(key, value) := entry in
  if str_eqb key (lit "requestId") then sanitized
  else if sensitive key then assign sanitized key REDACTED
  else
    match value with
    | ObjectValue objValue => assign sanitized key (ObjectValue (sanitize_object objValue))
    | _ => assign sanitized key value
    end.

(** [sanitizeMetadata]; [None] is an omitted argument. *)
Definition sanitizeMetadata (metadata : option (list (str * Value)))
    : list (str * Value) :=
  match metadata with
  | None => []
  | Some metadata => fold_left sanitize_entry metadata []
  end.

End AIClientLogger.

(** The keys that plain assignment stores and [sanitizeMetadata] does not
    skip. *)
Definition kept_key (key : str) : bool :=
  negb (str_eqb key (lit "requestId")) && negb (str_eqb key (lit "__proto__")).

(** Every entry of [entries] with a sensitive key holds the redaction
    mark. *)
Definition redacted (entries : list (str * AIClientLogger.Value)) : Prop :=
  forall key value,
    (key, value) ∈ entries -> AIClientLogger.sensitive key = true ->
    value = AIClientLogger.REDACTED.

(** The entries of an object as the loops leave it: distinct keys, none of
    them [__proto__]. *)
Definition tidy (o : list (str * AIClientLogger.Value)) : Prop :=
  NoDup o.*1 /\ lit "__proto__" ∉ o.*1.

(** What holds of the entries [sanitizeMetadata] has put together. *)
Definition clean (o : list (str * AIClientLogger.Value)) : Prop :=
  tidy o /\ (lit "requestId" ∉ o.*1) /\ redacted o
  /\ forall key entries,
       (key, AIClientLogger.ObjectValue entries) ∈ o -> tidy entries /\ redacted entries.

(** Metadata as AIClient.request passes to [logResponse], and metadata with
    a secret two levels down and one inside an array. *)
Definition response_metadata (finishReason inputTokens outputTokens : str)
    : list (str * AIClientLogger.Value) :=
  [(lit "finishReason", AIClientLogger.Primitive finishReason);
   (lit "inputTokens", AIClientLogger.Primitive inputTokens);
   (lit "outputTokens", AIClientLogger.Primitive outputTokens)].

Definition deep_metadata : list (str * AIClientLogger.Value) :=
  [(lit "requestId", AIClientLogger.Primitive (lit "req1"));
   (lit "upstream",
    AIClientLogger.ObjectValue
      [(lit "apiKey", AIClientLogger.Primitive (lit "sk-1"));
       (lit "headers",
        AIClientLogger.ObjectValue
          [(lit "Authorization", AIClientLogger.Primitive (lit "Bearer sk-1"))])]);
   (lit "channels",
    AIClientLogger.ArrayValue
      [AIClientLogger.ObjectValue
         [(lit "apiKey", AIClientLogger.Primitive (lit "sk-2"))]])].

(** ** Model names for token counting (tiktoken.ts) *)

Module Tiktoken.

Definition normalizeModelName (model : str) : str :=
  let plusIndex := indexOf "+"%char model in
  let actualModel :=
    match plusIndex with
    | Some plusIndex => slice model (Z.of_nat plusIndex + 1) None
    | None => model
    end in
  let actualModel := toLowerCase actualModel in
  if startsWith actualModel (lit "claude-") then lit "gpt-4" else actualModel.

End Tiktoken.

(** ** Escaping text for the tool list (prompt_inject.ts) *)

Module PromptInject.

(** [text.replace(/a/g, by)] for a pattern of one character [a]. *)
Definition replace_char (a : ascii) (by_ : str) (text : str) : str :=
  concat ((fun b => if bool_decide (b = a) then by_ else [b]) <$> text).

Definition escapeText (text : str) : str :=
  replace_char ">"%char (lit "&gt;") (replace_char "<"%char (lit "&lt;") text).

End PromptInject.

(** ** Protocol adapters (ai_client/protocol_adapter.ts) *)

Module ProtocolAdapter.

Import Config.

Inductive Adapter :=
| OpenAIAdapter
| AnthropicAdapter
| GeminiAdapter.

Definition getName (adapter : Adapter) : Protocol :=
  match adapter with
  | OpenAIAdapter => openai
  | AnthropicAdapter => anthropic
  | GeminiAdapter => gemini
  end.

(** [buildHeaders]: the entries of the headers object, in the order they are
    set. *)
Definition buildHeaders (adapter : Adapter) (apiKey : option str)
    : result (list (str * str)) :=
  match adapter with
  | OpenAIAdapter =>
      Ok ([(lit "Content-Type", lit "application/json")]
          ++ match apiKey with
             | Some (k :: key) => [(lit "Authorization", lit "Bearer " ++ k :: key)]
             | _ => []
             end)
  | AnthropicAdapter =>
      Ok ([(lit "Content-Type", lit "application/json");
           (lit "anthropic-version", lit "2023-06-01")]
          ++ match apiKey with
             | Some (k :: key) => [(lit "x-api-key", k :: key)]
             | _ => []
             end)
  | GeminiAdapter => Thrown (lit "GeminiAdapter not implemented yet")
  end.

(** [Protocol] as text, [undefined] for a protocol that is not set. *)
Definition protocol_text (protocol : option Protocol) : str :=
  match protocol with
  | Some openai => lit "openai"
  | Some anthropic => lit "anthropic"
  | Some gemini => lit "gemini"
  | None => lit "undefined"
  end.

(** The map of [ProtocolAdapterFactory] as it is initialised: no adapter is
    registered for gemini.  [register], which would change the map, is
    called nowhere in the sources. *)
Definition adapters (protocol : option Protocol) : option Adapter :=
  match protocol with
  | Some openai => Some OpenAIAdapter
  | Some anthropic => Some AnthropicAdapter
  | _ => None
  end.

(** [ProtocolAdapterFactory.create] *)
Definition create (protocol : option Protocol) : result Adapter :=
  match adapters protocol with
  | Some adapter => Ok adapter
  | None => Thrown (lit "Unsupported protocol: " ++ protocol_text protocol)
  end.

End ProtocolAdapter.

(** An upstream of protocol anthropic with a key. *)
Definition anthropic_upstream : RequestContext.UpstreamConfig :=
  {| RequestContext.baseUrl := Some (lit "https://a.example/v1/messages");
     RequestContext.apiKey := Some (lit "sk-1");
     RequestContext.model := lit "claude-3";
     RequestContext.protocol := Some Config.anthropic |}.

(** * Properties *)

(** ** Frame sequences *)

Lemma start_indices_snoc fs f :
  start_indices (fs ++ [f]) = start_indices fs ++ option_list (start_index f).
Proof.
  unfold start_indices. rewrite omap_app. simpl.
  destruct (start_index f); reflexivity.
Qed.

Lemma open_blocks_snoc fs f :
  open_blocks (fs ++ [f]) = track_open (open_blocks fs) f.
Proof. unfold open_blocks. now rewrite fold_left_app. Qed.

Lemma filter_ne_self (n : Z) : filter (fun j => j <> n) [n] = [].
Proof.
  rewrite filter_cons, decide_False by (intros H; now apply H). reflexivity.
Qed.

Lemma uses_open_nil : uses_open [].
Proof. intros [|? ?] ? ? ? H; discriminate H. Qed.

Lemma uses_open_snoc fs f :
  uses_open fs ->
  (forall i, use_index f = Some i -> i ∈ open_blocks fs) ->
  uses_open (fs ++ [f]).
Proof.
  intros Hfs Hf pre g post i Heq Hg.
  destruct post as [|x post _] using rev_ind.
  - apply app_inj_tail in Heq as [-> ->]. now apply Hf.
  - rewrite app_comm_cons, app_assoc in Heq.
    apply app_inj_tail in Heq as [-> _]. now apply (Hfs pre g post i).
Qed.

(** ** The writer keeps its invariant *)

Section WriterInvariant.

Import ClaudeStream.

Variable countTokensWithTiktoken : str -> Z.
Variable JSON_stringify : list (str * str) -> str.
Variable generateToolId : nat -> str.
Variable adjustedOutputTokens : Z -> Z.

Local Abbreviation flushText := (flushText countTokensWithTiktoken).
Local Abbreviation emitThinking := (emitThinking countTokensWithTiktoken).
Local Abbreviation emitToolCall :=
  (emitToolCall countTokensWithTiktoken JSON_stringify generateToolId).
Local Abbreviation aggregator_flushAsync := (aggregator_flushAsync countTokensWithTiktoken).
Local Abbreviation finish := (finish countTokensWithTiktoken adjustedOutputTokens).
Local Abbreviation handleEvent :=
  (handleEvent countTokensWithTiktoken JSON_stringify generateToolId
     adjustedOutputTokens).
Local Abbreviation handleEvents :=
  (handleEvents countTokensWithTiktoken JSON_stringify generateToolId
     adjustedOutputTokens).
Local Abbreviation act :=
  (act countTokensWithTiktoken JSON_stringify generateToolId adjustedOutputTokens).
Local Abbreviation run :=
  (run countTokensWithTiktoken JSON_stringify generateToolId adjustedOutputTokens).

(** Propositional steps that must not pick up the section's parameters. *)
Ltac prop_solve :=
  try clear adjustedOutputTokens; try clear generateToolId;
  try clear JSON_stringify; try clear countTokensWithTiktoken;
  tauto.

Lemma seq_to_nat_succ n :
  0 <= n ->
  Z.of_nat <$> seq 0 (Z.to_nat (n + 1))
  = (Z.of_nat <$> seq 0 (Z.to_nat n)) ++ [n].
Proof.
  intros Hn. replace (Z.to_nat (n + 1)) with (S (Z.to_nat n)) by lia.
  rewrite seq_S, fmap_app. simpl. now rewrite Z2Nat.id.
Qed.

Lemma inv_new rid input : stream_inv (new rid input).
Proof. split; simpl; try done. apply uses_open_nil. Qed.

Lemma track_open_neutral o f : neutral f -> track_open o f = o.
Proof. intros [H1 H2]. destruct f; simpl in *; congruence. Qed.

Lemma inv_send_neutral f c : neutral f -> stream_inv c -> stream_inv (send f c).
Proof.
  intros Hn [H1 H2 H3 H4 H5 H6 H7]. split; simpl; try assumption.
  - rewrite start_indices_snoc. destruct Hn as [-> _]. simpl.
    now rewrite app_nil_r.
  - now rewrite open_blocks_snoc, track_open_neutral.
  - apply uses_open_snoc; [assumption|]. destruct Hn as [_ ->]. discriminate.
  - intros Ht. apply elem_of_app. left. auto.
Qed.

Lemma inv_set_pending p c :
  (thinkingBlockOpen c = true -> p = []) ->
  stream_inv c -> stream_inv (set_pending p c).
Proof. intros Hp [H1 H2 H3 H4 H5 H6 H7]. split; simpl; assumption. Qed.

Lemma inv_add_tokens n c : stream_inv c -> stream_inv (add_tokens n c).
Proof. intros [H1 H2 H3 H4 H5 H6 H7]. split; simpl; assumption. Qed.

Lemma inv_set_finished b c : stream_inv c -> stream_inv (set_finished b c).
Proof. intros [H1 H2 H3 H4 H5 H6 H7]. split; simpl; assumption. Qed.

(** Sending a delta for the block that is open. *)
Lemma inv_send_delta d c :
  textBlockOpen c || thinkingBlockOpen c = true ->
  stream_inv c ->
  stream_inv (send (ContentBlockDelta (nextBlockIndex c - 1) d) c).
Proof.
  intros Ho [H1 H2 H3 H4 H5 H6 H7]. rewrite Ho in H3.
  split; simpl; try assumption.
  - rewrite start_indices_snoc. simpl. now rewrite app_nil_r.
  - rewrite open_blocks_snoc. simpl. now rewrite Ho.
  - apply uses_open_snoc; [assumption|]. simpl. intros i [= <-].
    rewrite H3. apply list_elem_of_here.
  - intros Ht. apply elem_of_app. left. auto.
Qed.

Lemma inv_ensureTextBlock c :
  thinkingBlockOpen c = false ->
  stream_inv c ->
  stream_inv (ensureTextBlock c) /\ textBlockOpen (ensureTextBlock c) = true
  /\ thinkingBlockOpen (ensureTextBlock c) = false.
Proof.
  intros Hth Hc. unfold ensureTextBlock.
  destruct (textBlockOpen c) eqn:Ht; [done|].
  destruct Hc as [H1 H2 H3 H4 H5 H6 H7]. rewrite Ht, Hth in H3. simpl in H3.
  split; [|done]. split; simpl.
  - lia.
  - rewrite start_indices_snoc, H2. simpl. now rewrite seq_to_nat_succ.
  - rewrite open_blocks_snoc, H3. simpl. f_equal. lia.
  - intros _. assumption.
  - assumption.
  - apply uses_open_snoc; [assumption|]. discriminate.
  - intros _. apply elem_of_app. right.
    replace (nextBlockIndex c + 1 - 1) with (nextBlockIndex c) by lia.
    apply list_elem_of_here.
Qed.

Lemma inv_endTextBlock c :
  stream_inv c ->
  stream_inv (endTextBlock c) /\ textBlockOpen (endTextBlock c) = false
  /\ thinkingBlockOpen (endTextBlock c) = thinkingBlockOpen c
  /\ pending (endTextBlock c) = pending c.
Proof.
  intros Hc. unfold endTextBlock.
  destruct (textBlockOpen c) eqn:Ht; simpl; [|done].
  destruct Hc as [H1 H2 H3 H4 H5 H6 H7]. rewrite Ht in H3. simpl in H3.
  specialize (H4 Ht).
  split; [|done]. split; simpl.
  - assumption.
  - rewrite start_indices_snoc. simpl. now rewrite app_nil_r.
  - rewrite open_blocks_snoc, H3, H4. simpl. apply filter_ne_self.
  - discriminate.
  - assumption.
  - apply uses_open_snoc; [assumption|]. simpl. intros i [= <-].
    rewrite H3. apply list_elem_of_here.
  - discriminate.
Qed.

Lemma inv_ensureThinkingBlock c :
  textBlockOpen c = false -> pending c = [] ->
  stream_inv c ->
  stream_inv (ensureThinkingBlock c)
  /\ thinkingBlockOpen (ensureThinkingBlock c) = true
  /\ textBlockOpen (ensureThinkingBlock c) = false.
Proof.
  intros Ht Hp Hc. unfold ensureThinkingBlock.
  destruct (thinkingBlockOpen c) eqn:Hth; [done|].
  destruct Hc as [H1 H2 H3 H4 H5 H6 H7]. rewrite Ht, Hth in H3. simpl in H3.
  split; [|done]. split; simpl.
  - lia.
  - rewrite start_indices_snoc, H2. simpl. now rewrite seq_to_nat_succ.
  - rewrite open_blocks_snoc, H3, Ht. simpl. f_equal. lia.
  - congruence.
  - intros _. assumption.
  - apply uses_open_snoc; [assumption|]. discriminate.
  - congruence.
Qed.

Lemma inv_endThinkingBlock c :
  stream_inv c ->
  stream_inv (endThinkingBlock c) /\ thinkingBlockOpen (endThinkingBlock c) = false
  /\ textBlockOpen (endThinkingBlock c) = textBlockOpen c
  /\ pending (endThinkingBlock c) = pending c.
Proof.
  intros Hc. unfold endThinkingBlock.
  destruct (thinkingBlockOpen c) eqn:Hth; simpl; [|done].
  assert (Ht : textBlockOpen c = false).
  { destruct (textBlockOpen c) eqn:Ht; [|done].
    pose proof (inv_excl c Hc Ht). congruence. }
  destruct Hc as [H1 H2 H3 H4 H5 H6 H7]. rewrite Ht, Hth in H3. simpl in H3.
  split; [|done]. split; simpl.
  - assumption.
  - rewrite !start_indices_snoc. simpl. now rewrite !app_nil_r.
  - rewrite !open_blocks_snoc, H3, Ht. simpl. apply filter_ne_self.
  - intros _. reflexivity.
  - discriminate.
  - apply uses_open_snoc; [apply uses_open_snoc; [assumption|]|]; simpl.
    + intros i [= <-]. rewrite H3. apply list_elem_of_here.
    + intros i [= <-]. rewrite open_blocks_snoc. simpl. rewrite H3.
      apply list_elem_of_here.
  - congruence.
Qed.

Lemma inv_flushText text c :
  (text <> [] -> thinkingBlockOpen c = false) ->
  stream_inv c ->
  stream_inv (flushText text c)
  /\ thinkingBlockOpen (flushText text c) = thinkingBlockOpen c
  /\ pending (flushText text c) = pending c.
Proof.
  intros Hth Hc. unfold flushText. destruct text as [|a text]; simpl; [done|].
  specialize (Hth ltac:(discriminate)).
  destruct (inv_ensureTextBlock c Hth Hc) as (Hc' & Ht' & Hth').
  assert (Hp : pending (ensureTextBlock c) = pending c).
  { unfold ensureTextBlock. now destruct (textBlockOpen c). }
  split; [|split].
  - apply (inv_send_delta _ (add_tokens _ (ensureTextBlock c))).
    + simpl. now rewrite Ht'.
    + now apply inv_add_tokens.
  - simpl. congruence.
  - simpl. assumption.
Qed.

Lemma inv_flushAsync c :
  stream_inv c ->
  stream_inv (aggregator_flushAsync c)
  /\ pending (aggregator_flushAsync c) = []
  /\ thinkingBlockOpen (aggregator_flushAsync c) = thinkingBlockOpen c.
Proof.
  intros Hc. unfold aggregator_flushAsync.
  destruct (inv_flushText (pending c) (set_pending [] c)) as (H1 & H2 & H3).
  - simpl. intros Hne. destruct (thinkingBlockOpen c) eqn:Hth; [|done].
    now pose proof (inv_pending c Hc Hth).
  - now apply inv_set_pending.
  - split; [assumption|]. split; [now rewrite H3 | now rewrite H2].
Qed.

Lemma inv_thinking_chunks l c :
  thinkingBlockOpen c = true ->
  stream_inv c ->
  stream_inv (fold_left send_thinking_chunk l c).
Proof.
  revert c. induction l as [|chunk l IH]; intros c Hth Hc; simpl; [assumption|].
  apply IH; [done|]. apply inv_send_delta; [|assumption].
  rewrite Hth. apply orb_true_r.
Qed.

Lemma inv_emitThinking content c :
  textBlockOpen c = false -> pending c = [] ->
  stream_inv c -> stream_inv (emitThinking content c).
Proof.
  intros Ht Hp Hc. unfold emitThinking. destruct content as [|a content]; [done|].
  cbv [falsy].
  destruct (inv_ensureThinkingBlock c Ht Hp Hc) as (Hc' & Hth' & _).
  apply inv_thinking_chunks; [exact Hth'|]. now apply inv_add_tokens.
Qed.

(** The chunk loop of [emitToolCall] only appends delta frames for [index]. *)
Lemma json_chunks_sent index l c :
  exists c', c' = fold_left (send_json_chunk index) l c /\
  sent c' = sent c ++ (ContentBlockDelta index <$> (InputJsonDelta <$> l))
  /\ nextBlockIndex c' = nextBlockIndex c
  /\ textBlockOpen c' = textBlockOpen c
  /\ thinkingBlockOpen c' = thinkingBlockOpen c
  /\ pending c' = pending c
  /\ finished c' = finished c
  /\ hasToolCalls c' = hasToolCalls c.
Proof.
  eexists; split; [reflexivity|].
  revert c. induction l as [|chunk l IH]; intros c; simpl.
  - now rewrite app_nil_r.
  - destruct (IH (send_json_chunk index c chunk)) as (H1 & H2 & H3 & H4 & H5 & H6 & H7).
    simpl in *. rewrite H1, <- app_assoc. done.
Qed.

Lemma deltas_after index (ds : list delta) fs :
  index ∈ open_blocks fs ->
  uses_open fs ->
  uses_open (fs ++ (ContentBlockDelta index <$> ds))
  /\ open_blocks (fs ++ (ContentBlockDelta index <$> ds)) = open_blocks fs
  /\ start_indices (fs ++ (ContentBlockDelta index <$> ds)) = start_indices fs.
Proof.
  revert fs. induction ds as [|d ds IH]; intros fs Hin Hu.
  - now rewrite fmap_nil, app_nil_r.
  - rewrite fmap_cons, cons_middle, app_assoc.
    destruct (IH (fs ++ [ContentBlockDelta index d])) as (H1 & H2 & H3).
    + rewrite open_blocks_snoc. exact Hin.
    + apply uses_open_snoc; [assumption|]. simpl. now intros i [= <-].
    + split; [assumption|]. split.
      * now rewrite H2, open_blocks_snoc.
      * rewrite H3, start_indices_snoc. simpl. now rewrite app_nil_r.
Qed.

Lemma inv_emitToolCall call c :
  thinkingBlockOpen c = false ->
  stream_inv c ->
  stream_inv (emitToolCall call c)
  /\ textBlockOpen (emitToolCall call c) = false
  /\ thinkingBlockOpen (emitToolCall call c) = false
  /\ pending (emitToolCall call c) = pending c.
Proof.
  intros Hth Hc. unfold emitToolCall.
  destruct (inv_endTextBlock c Hc) as (Hc1 & Ht1 & Hth1 & Hp1).
  rewrite Hth in Hth1. set (c1 := endTextBlock c) in *.
  set (index := nextBlockIndex c1).
  set (c2 := send _ (set_hasToolCalls true _)).
  set (c3 := add_tokens _ c2).
  destruct (json_chunks_sent index (chunk5 (JSON_stringify (arguments call))) c3)
    as (c4 & <- & Hs & Hn & Ht & Hh & Hp & _ & _).
  simpl in Hs, Hn, Ht, Hh, Hp.
  destruct Hc1 as [H1 H2 H3 H4 H5 H6 H7]. rewrite Ht1, Hth1 in H3. simpl in H3.
  assert (Ho2 : open_blocks (sent c1 ++ [ContentBlockStart index
            (ToolUseBlock (generateToolId (drawn c1)) (name call))]) = [index]).
  { now rewrite open_blocks_snoc, H3. }
  edestruct (deltas_after index
               (InputJsonDelta <$> chunk5 (JSON_stringify (arguments call))))
    as (Hu' & Ho' & Hs').
  { rewrite Ho2. apply list_elem_of_here. }
  { apply uses_open_snoc; [exact H6|]. discriminate. }
  split; [|simpl; rewrite Ht, Hh, Hp; simpl; done].
  split; simpl.
  - rewrite Hn. simpl. fold index. lia.
  - rewrite start_indices_snoc, Hs, Hs', start_indices_snoc, H2, Hn. simpl.
    rewrite app_nil_r. fold index. now rewrite seq_to_nat_succ.
  - rewrite open_blocks_snoc, Hs, Ho', Ho2, Ht, Hh. simpl.
    rewrite Ht1, Hth1. simpl. apply filter_ne_self.
  - rewrite Hh. simpl. intros _. exact Hth1.
  - rewrite Hh. simpl. rewrite Hth1. discriminate.
  - apply uses_open_snoc.
    + rewrite Hs. exact Hu'.
    + simpl. intros i [= <-]. rewrite Hs, Ho', Ho2. apply list_elem_of_here.
  - rewrite Ht. simpl. congruence.
Qed.

Lemma inv_finish c : stream_inv c -> stream_inv (finish c).
Proof.
  intros Hc. unfold finish. destruct (finished c); [assumption|].
  destruct (inv_flushAsync (set_finished true c)) as (H1 & _ & _).
  { now apply inv_set_finished. }
  destruct (inv_endTextBlock _ H1) as (H2 & _).
  destruct (inv_endThinkingBlock _ H2) as (H3 & _).
  apply inv_send_neutral; [done|]. apply inv_send_neutral; [done|]. exact H3.
Qed.

Lemma inv_handleEvent c event : stream_inv c -> stream_inv (handleEvent c event).
Proof.
  intros Hc. destruct event as [content|content|call|content prior|]; simpl.
  - unfold aggregator_add.
    destruct (thinkingBlockOpen c) eqn:Hth.
    + destruct (inv_endThinkingBlock c Hc) as (H1 & H2 & _).
      apply inv_set_pending; [|assumption]. congruence.
    + apply inv_set_pending; [|assumption]. congruence.
  - destruct (inv_flushAsync c Hc) as (H1 & Hp1 & _).
    destruct (inv_endTextBlock _ H1) as (H2 & Ht2 & _ & Hp2).
    apply inv_emitThinking; [assumption|congruence|assumption].
  - destruct (inv_flushAsync c Hc) as (H1 & _).
    destruct (inv_endTextBlock _ H1) as (H2 & _).
    destruct (inv_endThinkingBlock _ H2) as (H3 & Hth3 & _).
    now apply inv_emitToolCall.
  - assumption.
  - now apply inv_finish.
Qed.

Lemma inv_handleEvents events c :
  stream_inv c -> stream_inv (handleEvents events c).
Proof.
  revert c. induction events as [|e events IH]; intros c Hc; simpl; [assumption|].
  apply IH. now apply inv_handleEvent.
Qed.

Lemma inv_act c a : stream_inv c -> stream_inv (act c a).
Proof.
  intros Hc. destruct a; simpl.
  - unfold init. apply inv_send_neutral; [done|]. now apply inv_send_neutral.
  - now apply inv_handleEvents.
  - now apply inv_flushAsync.
  - now apply inv_send_neutral.
  - now apply inv_send_neutral.
Qed.

Lemma inv_run acts c : stream_inv c -> stream_inv (run acts c).
Proof.
  revert c. induction acts as [|a acts IH]; intros c Hc; simpl; [assumption|].
  apply IH. now apply inv_act.
Qed.

Lemma seq_Z_sorted n : StronglySorted Z.lt (Z.of_nat <$> seq 0 n).
Proof.
  induction n as [|n IH]; [constructor|].
  rewrite seq_S, fmap_app. simpl.
  apply StronglySorted_app_2; [|assumption|repeat constructor].
  intros x y Hx Hy. apply list_elem_of_fmap in Hx as (k & -> & Hk).
  apply list_elem_of_In, in_seq in Hk. apply list_elem_of_singleton in Hy as ->. lia.
Qed.

(** C2.  In the frames one stream object has sent, after any sequence of
    calls and timer flushes: the [k]-th [content_block_start] carries the
    index [k] (so the indices start at 0, increase strictly and are never
    used twice), and every [content_block_delta] and [content_block_stop]
    carries the index of a block that was opened before it and not closed
    since. *)
Theorem block_index_discipline rid input acts :
  let fs := sent (run acts (new rid input)) in
  (forall k i, start_indices fs !! k = Some i -> i = Z.of_nat k)
  /\ StronglySorted Z.lt (start_indices fs)
  /\ NoDup (start_indices fs)
  /\ (forall pre f post i,
        fs = pre ++ f :: post -> use_index f = Some i ->
        i ∈ open_blocks pre /\ i ∈ start_indices pre).
Proof.
  intros fs.
  pose proof (inv_run acts _ (inv_new rid input)) as [H1 H2 H3 H4 H5 H6 H7].
  fold fs in H2, H6. split; [|split; [|split]].
  - intros k i Hk. rewrite H2, list_lookup_fmap in Hk.
    destruct (seq 0 _ !! k) as [j|] eqn:Hj; [|discriminate].
    apply lookup_seq in Hj as [-> _]. simpl in Hk. congruence.
  - rewrite H2. apply seq_Z_sorted.
  - rewrite H2. apply NoDup_fmap_2; [intros ? ? ?; lia|]. apply NoDup_seq.
  - intros pre f post i Heq Hi. pose proof (H6 pre f post i Heq Hi) as Ho.
    split; [assumption|]. clear - Ho.
    revert Ho. induction pre as [|g pre IH] using rev_ind.
    + intros Ho. inversion Ho.
    + rewrite open_blocks_snoc, start_indices_snoc. intros Ho.
      apply elem_of_app. destruct g; simpl in *; auto.
      * apply elem_of_cons in Ho as [->|Ho]; [right; apply list_elem_of_here|auto].
      * apply list_elem_of_filter in Ho as [_ Ho]. auto.
Qed.

(** *** Plain steps *)

Lemma plain_refl c : plain c c.
Proof. split; [|done]. exists []. now rewrite app_nil_r. Qed.

Lemma plain_trans c1 c2 c3 : plain c1 c2 -> plain c2 c3 -> plain c1 c3.
Proof.
  intros ((n1 & E1 & F1) & A1 & B1) ((n2 & E2 & F2) & A2 & B2).
  split; [|split; congruence].
  exists (n1 ++ n2). rewrite E2, E1, app_assoc. split; [done|].
  now apply Forall_app.
Qed.

Lemma plain_send c0 c f : plain_frame f -> plain c0 c -> plain c0 (send f c).
Proof.
  intros Hf ((n & E & F) & A & B). split; [|done].
  exists (n ++ [f]). simpl. rewrite E, app_assoc. split; [done|].
  apply Forall_app. split; [done|]. now constructor.
Qed.

Lemma plain_set_pending c0 c p : plain c0 c -> plain c0 (set_pending p c).
Proof. intros H. exact H. Qed.

Lemma plain_set_nextBlockIndex c0 c n :
  plain c0 c -> plain c0 (set_nextBlockIndex n c).
Proof. intros H. exact H. Qed.

Lemma plain_set_textBlockOpen c0 c b :
  plain c0 c -> plain c0 (set_textBlockOpen b c).
Proof. intros H. exact H. Qed.

Lemma plain_set_thinkingBlockOpen c0 c b :
  plain c0 c -> plain c0 (set_thinkingBlockOpen b c).
Proof. intros H. exact H. Qed.

Lemma plain_add_tokens c0 c n : plain c0 c -> plain c0 (add_tokens n c).
Proof. intros H. exact H. Qed.

Lemma plain_set_drawn c0 c n : plain c0 c -> plain c0 (set_drawn n c).
Proof. intros H. exact H. Qed.

Ltac plain_frame_tac :=
  match goal with
  | |- plain_frame _ => split; [split|]; simpl; prop_solve
  end.

Ltac plain_step :=
  first
    [ assumption
    | apply plain_refl
    | apply plain_send; [plain_frame_tac|]
    | apply plain_set_pending
    | apply plain_set_nextBlockIndex
    | apply plain_set_textBlockOpen
    | apply plain_set_thinkingBlockOpen
    | apply plain_add_tokens
    | apply plain_set_drawn ].

Lemma plain_ensureTextBlock c0 c : plain c0 c -> plain c0 (ensureTextBlock c).
Proof.
  intros H. unfold ensureTextBlock. destruct (textBlockOpen c); repeat plain_step.
Qed.

Lemma plain_flushText text c0 c : plain c0 c -> plain c0 (flushText text c).
Proof.
  intros H. unfold flushText. destruct (falsy text); [assumption|].
  apply plain_send; [plain_frame_tac|]. apply plain_add_tokens.
  now apply plain_ensureTextBlock.
Qed.

Lemma plain_endTextBlock c0 c : plain c0 c -> plain c0 (endTextBlock c).
Proof.
  intros H. unfold endTextBlock. destruct (textBlockOpen c); simpl; repeat plain_step.
Qed.

Lemma plain_ensureThinkingBlock c0 c :
  plain c0 c -> plain c0 (ensureThinkingBlock c).
Proof.
  intros H. unfold ensureThinkingBlock.
  destruct (thinkingBlockOpen c); repeat plain_step.
Qed.

Lemma plain_endThinkingBlock c0 c : plain c0 c -> plain c0 (endThinkingBlock c).
Proof.
  intros H. unfold endThinkingBlock.
  destruct (thinkingBlockOpen c); simpl; repeat plain_step.
Qed.

Lemma plain_thinking_chunks l c0 c :
  plain c0 c -> plain c0 (fold_left send_thinking_chunk l c).
Proof.
  revert c. induction l as [|chunk l IH]; intros c H; simpl; [assumption|].
  apply IH. unfold send_thinking_chunk. repeat plain_step.
Qed.

Lemma plain_emitThinking content c0 c :
  plain c0 c -> plain c0 (emitThinking content c).
Proof.
  intros H. unfold emitThinking. destruct (falsy content); [assumption|].
  apply plain_thinking_chunks, plain_add_tokens.
  now apply plain_ensureThinkingBlock.
Qed.

Lemma plain_flushAsync c0 c : plain c0 c -> plain c0 (aggregator_flushAsync c).
Proof.
  intros H. unfold aggregator_flushAsync. now apply plain_flushText, plain_set_pending.
Qed.

Lemma plain_aggregator_add text c0 c :
  plain c0 c -> plain c0 (aggregator_add text c).
Proof. intros H. exact H. Qed.

(** *** Counting frames *)

Lemma tool_use_blocks_app l1 l2 :
  tool_use_blocks (l1 ++ l2) = (tool_use_blocks l1 + tool_use_blocks l2)%nat.
Proof. unfold tool_use_blocks. now rewrite filter_app, length_app. Qed.

Lemma message_deltas_app l1 l2 :
  message_deltas (l1 ++ l2) = (message_deltas l1 + message_deltas l2)%nat.
Proof. unfold message_deltas. now rewrite filter_app, length_app. Qed.

Lemma message_stops_app l1 l2 :
  message_stops (l1 ++ l2) = (message_stops l1 + message_stops l2)%nat.
Proof. unfold message_stops. now rewrite filter_app, length_app. Qed.

Lemma filter_none {A} (P : A -> Prop) `{forall x, Decision (P x)} (l : list A) :
  Forall (fun x => ~ P x) l -> filter P l = [].
Proof.
  induction 1 as [|x l Hx Hl IH]; [done|].
  now rewrite filter_cons, decide_False.
Qed.

Lemma plain_no_tool_use l : Forall plain_frame l -> tool_use_blocks l = 0%nat.
Proof.
  intros Hl. unfold tool_use_blocks. rewrite filter_none; [done|].
  eapply Forall_impl; [exact Hl|]. now intros f [_ Hf].
Qed.

Lemma plain_not_Exists l : Forall plain_frame l -> ~ Exists is_tool_use_start l.
Proof.
  intros Hl He. apply Exists_exists in He as (f & Hin & Hf).
  rewrite Forall_forall in Hl. now destruct (Hl f Hin) as [_ Hn].
Qed.

Lemma plain_body l : Forall plain_frame l -> Forall body_frame l.
Proof. intros Hl. eapply Forall_impl; [exact Hl|]. now intros f [Hf _]. Qed.

Lemma body_no_message_delta l : Forall body_frame l -> message_deltas l = 0%nat.
Proof.
  intros Hl. unfold message_deltas. rewrite filter_none; [done|].
  eapply Forall_impl; [exact Hl|]. now intros f [Hf _].
Qed.

Lemma body_no_message_stop l : Forall body_frame l -> message_stops l = 0%nat.
Proof.
  intros Hl. unfold message_stops. rewrite filter_none; [done|].
  eapply Forall_impl; [exact Hl|]. now intros f [_ Hf].
Qed.

(** A frame that is not among [new] and sits in [fs ++ new] sits in [fs]. *)
Lemma split_before_new (P : frame -> Prop) fs new pre x post :
  Forall P new -> ~ P x ->
  fs ++ new = pre ++ x :: post ->
  exists post', fs = pre ++ x :: post' /\ post = post' ++ new.
Proof.
  intros Hnew Hx. revert Hnew post.
  induction new as [|y new IH] using rev_ind; intros Hnew post Heq.
  - rewrite app_nil_r in Heq. exists post. now rewrite app_nil_r.
  - apply Forall_app in Hnew as [Hnew Hy]. apply Forall_inv in Hy.
    specialize (IH Hnew).
    destruct post as [|z post _] using rev_ind.
    + rewrite app_assoc in Heq. apply app_inj_tail in Heq as [_ Heq].
      subst y. contradiction.
    + rewrite app_assoc, app_comm_cons, (app_assoc pre) in Heq.
      apply app_inj_tail in Heq as [Heq ->].
      destruct (IH post Heq) as (post' & -> & ->).
      exists post'. split; [done|]. now rewrite app_assoc.
Qed.

(** *** Body steps *)

Lemma plain_body_step c c' : plain c c' -> body_step c c'.
Proof.
  intros ((new & E & F) & A & B). exists new.
  split; [done|]. split; [now apply plain_body|]. split; [done|].
  rewrite B. split; [auto|]. intros [H|H]; [done|].
  now apply plain_not_Exists in H.
Qed.

Lemma body_step_refl c : body_step c c.
Proof. apply plain_body_step, plain_refl. Qed.

Lemma body_step_trans c1 c2 c3 :
  body_step c1 c2 -> body_step c2 c3 -> body_step c1 c3.
Proof.
  intros (n1 & E1 & F1 & A1 & B1) (n2 & E2 & F2 & A2 & B2).
  exists (n1 ++ n2). rewrite E2, E1, app_assoc. split; [done|].
  split; [now apply Forall_app|]. split; [congruence|].
  rewrite B2, B1, Exists_app. prop_solve.
Qed.

(** [emitToolCall] sends body frames, exactly one of which opens a tool_use
    block, and sets [hasToolCalls]. *)
Lemma emitToolCall_effect call c :
  exists new,
    sent (emitToolCall call c) = sent c ++ new
    /\ Forall body_frame new
    /\ tool_use_blocks new = 1%nat
    /\ finished (emitToolCall call c) = finished c
    /\ hasToolCalls (emitToolCall call c) = true
    /\ pending (emitToolCall call c) = pending c.
Proof.
  unfold emitToolCall.
  destruct (plain_endTextBlock c c (plain_refl c)) as ((n1 & E1 & F1) & A1 & B1).
  assert (P1 : pending (endTextBlock c) = pending c).
  { unfold endTextBlock. now destruct (textBlockOpen c). }
  set (c1 := endTextBlock c) in *. set (index := nextBlockIndex c1).
  set (c3 := add_tokens _ _).
  destruct (json_chunks_sent index (chunk5 (JSON_stringify (arguments call))) c3)
    as (c4 & <- & Hs & _ & _ & _ & Hp & Hf & Hh).
  set (ds := ContentBlockDelta index <$> _) in Hs.
  assert (Hds : Forall plain_frame ds).
  { subst ds. apply Forall_fmap, Forall_fmap, Forall_true. intros ch.
    split; [split|]; simpl; prop_solve. }
  exists (n1 ++ [ContentBlockStart index
                   (ToolUseBlock (generateToolId (drawn c1)) (name call))]
             ++ ds ++ [ContentBlockStop index]).
  split; [|split; [|split; [|split; [|split]]]].
  - simpl. rewrite Hs. simpl. rewrite E1. now rewrite <- !app_assoc.
  - apply Forall_app. split; [now apply plain_body|].
    apply Forall_app. split; [repeat constructor; simpl; prop_solve|].
    apply Forall_app. split; [now apply plain_body|].
    repeat constructor; simpl; prop_solve.
  - rewrite !tool_use_blocks_app, (plain_no_tool_use n1), (plain_no_tool_use ds)
      by assumption.
    reflexivity.
  - simpl. rewrite Hf. simpl. exact A1.
  - simpl. rewrite Hh. reflexivity.
  - simpl. rewrite Hp. simpl. exact P1.
Qed.

Lemma tool_use_blocks_Exists l :
  (0 < tool_use_blocks l)%nat <-> Exists is_tool_use_start l.
Proof.
  unfold tool_use_blocks. induction l as [|f l IH]; simpl.
  - split; [lia|]. intros H. inversion H.
  - rewrite filter_cons, Exists_cons. destruct (decide (is_tool_use_start f)); simpl.
    + split; [auto|lia].
    + rewrite IH. prop_solve.
Qed.

Lemma body_step_emitToolCall call c : body_step c (emitToolCall call c).
Proof.
  destruct (emitToolCall_effect call c) as (new & E & F & N & A & B & _).
  exists new. split; [done|]. split; [done|]. split; [done|].
  rewrite B. split; [|done]. intros _. right.
  apply tool_use_blocks_Exists. lia.
Qed.

(** *** [finish] *)

Lemma finish_effect c :
  finished c = false ->
  exists mid n,
    sent (finish c)
    = sent c ++ mid
      ++ [MessageDelta (if hasToolCalls c then lit "tool_use" else lit "end_turn") n;
          MessageStop]
    /\ Forall plain_frame mid
    /\ finished (finish c) = true
    /\ hasToolCalls (finish c) = hasToolCalls c.
Proof.
  intros Hf. unfold finish. rewrite Hf.
  set (c1 := set_finished true c).
  assert (H : plain c1 (endThinkingBlock (endTextBlock (aggregator_flushAsync c1)))).
  { apply plain_endThinkingBlock, plain_endTextBlock, plain_flushAsync, plain_refl. }
  destruct H as ((mid & E & F) & A & B).
  set (c4 := endThinkingBlock _) in *.
  exists mid, (adjustedOutputTokens (totalOutputTokens c4)).
  simpl. rewrite E, A, B. simpl. rewrite <- !app_assoc. done.
Qed.

Lemma finish_done c : finished c = true -> finish c = c.
Proof. intros Hf. unfold finish. now rewrite Hf. Qed.

Lemma fin_new rid input : finish_inv (new rid input).
Proof.
  split; simpl; try done.
  - split; [discriminate|]. intros H. inversion H.
  - intros [|? ?] ? ? ? H; discriminate H.
  - unfold message_deltas. simpl. lia.
  - unfold message_stops. simpl. lia.
Qed.

Lemma fin_body_step c c' : body_step c c' -> finish_inv c -> finish_inv c'.
Proof.
  intros (new & E & F & A & B) [H1 H2 H3 H4 H5]. split.
  - rewrite B, E, Exists_app, H1. prop_solve.
  - intros pre sr n post Heq. rewrite E in Heq.
    apply (split_before_new body_frame) in Heq as (post' & Heq & _);
      [|assumption|intros [Hn _]; now apply Hn].
    now apply (H2 pre sr n post').
  - rewrite A, E. intros Hf. apply Forall_app. auto.
  - rewrite E, message_deltas_app, (body_no_message_delta new) by assumption. lia.
  - rewrite E, message_stops_app, (body_no_message_stop new) by assumption. lia.
Qed.

Lemma fin_finish c : finish_inv c -> finish_inv (finish c).
Proof.
  intros Hc. destruct (finished c) eqn:Hf; [now rewrite finish_done|].
  destruct (finish_effect c Hf) as (mid & n & E & F & A & B).
  destruct Hc as [H1 H2 H3 H4 H5]. specialize (H3 Hf).
  assert (Hb : Forall body_frame (sent c ++ mid)).
  { apply Forall_app. split; [assumption|now apply plain_body]. }
  assert (Ht : Exists is_tool_use_start (sent c ++ mid)
               <-> Exists is_tool_use_start (sent c)).
  { rewrite Exists_app. pose proof (plain_not_Exists mid F). prop_solve. }
  rewrite app_assoc in E.
  split.
  - rewrite B, E, H1, Exists_app, Ht. split; [auto|]. intros [H|H]; [done|].
    apply Exists_cons in H as [[]|H]. apply Exists_cons in H as [[]|H].
    inversion H.
  - intros pre sr n' post Heq. rewrite E in Heq.
    assert (Hpre : pre = sent c ++ mid /\
                   sr = (if hasToolCalls c then lit "tool_use" else lit "end_turn")).
    { clear - Heq Hb.
      destruct post as [|z post _] using rev_ind.
      - change [MessageDelta ?a ?b; MessageStop]
          with ([MessageDelta a b] ++ [MessageStop]) in Heq.
        rewrite app_assoc in Heq. apply app_inj_tail in Heq as [_ Heq]. discriminate.
      - change [MessageDelta ?a ?b; MessageStop]
          with ([MessageDelta a b] ++ [MessageStop]) in Heq.
        rewrite app_assoc, app_comm_cons, (app_assoc pre) in Heq.
        apply app_inj_tail in Heq as [Heq _].
        destruct post as [|z' post _] using rev_ind.
        + apply app_inj_tail in Heq as [<- [= <- _]]. done.
        + rewrite app_comm_cons, (app_assoc pre) in Heq.
          apply app_inj_tail in Heq as [Heq _].
          rewrite Heq in Hb. apply Forall_app in Hb as [_ Hb].
          apply Forall_inv in Hb as [Hb _]. now destruct Hb. }
    destruct Hpre as [-> ->]. rewrite Ht, <- H1.
    destruct (hasToolCalls c); [left|right]; split; done.
  - rewrite A. discriminate.
  - rewrite E, message_deltas_app, (body_no_message_delta _ Hb).
    unfold message_deltas. simpl. lia.
  - rewrite E, message_stops_app, (body_no_message_stop _ Hb).
    unfold message_stops. simpl. lia.
Qed.

(** Every event but [End] is a body step. *)
Lemma handleEvent_body_step c event :
  event <> End -> body_step c (handleEvent c event).
Proof.
  intros Hne. destruct event as [content|content|call|content prior|]; simpl.
  - apply plain_body_step, plain_aggregator_add.
    destruct (thinkingBlockOpen c); [apply plain_endThinkingBlock|]; apply plain_refl.
  - apply plain_body_step, plain_emitThinking, plain_endTextBlock, plain_flushAsync,
      plain_refl.
  - eapply body_step_trans; [|apply body_step_emitToolCall].
    apply plain_body_step, plain_endThinkingBlock, plain_endTextBlock,
      plain_flushAsync, plain_refl.
  - apply body_step_refl.
  - done.
Qed.

Lemma fin_handleEvent c event : finish_inv c -> finish_inv (handleEvent c event).
Proof.
  intros Hc. destruct event;
    try (eapply fin_body_step; [|exact Hc]; now apply handleEvent_body_step).
  now apply fin_finish.
Qed.

Lemma fin_handleEvents events c :
  finish_inv c -> finish_inv (handleEvents events c).
Proof.
  revert c. induction events as [|e events IH]; intros c Hc; simpl; [assumption|].
  apply IH. now apply fin_handleEvent.
Qed.

Lemma fin_act c a : finish_inv c -> finish_inv (act c a).
Proof.
  intros Hc. destruct a; simpl.
  - eapply fin_body_step; [|exact Hc]. apply plain_body_step. unfold init.
    repeat plain_step.
  - now apply fin_handleEvents.
  - eapply fin_body_step; [|exact Hc]. apply plain_body_step, plain_flushAsync,
      plain_refl.
  - eapply fin_body_step; [|exact Hc]. apply plain_body_step. repeat plain_step.
  - eapply fin_body_step; [|exact Hc]. apply plain_body_step. repeat plain_step.
Qed.

Lemma fin_run acts c : finish_inv c -> finish_inv (run acts c).
Proof.
  revert c. induction acts as [|a acts IH]; intros c Hc; simpl; [assumption|].
  apply IH. now apply fin_act.
Qed.

(** Once set, [finished] stays set. *)
Lemma finished_handleEvent c event :
  finished c = true -> finished (handleEvent c event) = true.
Proof.
  intros Hf.
  destruct event;
    try (edestruct (handleEvent_body_step c) as (new & _ & _ & A & _);
         [|rewrite A; exact Hf]; discriminate).
  simpl. now rewrite finish_done.
Qed.

Lemma finished_act c a : finished c = true -> finished (act c a) = true.
Proof.
  intros Hf. destruct a as [|events| | |]; simpl; try assumption.
  - revert c Hf. induction events as [|e events IH]; intros c Hf; simpl; [done|].
    apply IH. now apply finished_handleEvent.
  - pose proof (plain_flushAsync c c (plain_refl c)) as (_ & A & _). congruence.
Qed.

Lemma finished_run acts c : finished c = true -> finished (run acts c) = true.
Proof.
  revert c. induction acts as [|a acts IH]; intros c Hf; simpl; [assumption|].
  apply IH. now apply finished_act.
Qed.

(** C3.  Whenever a [message_delta] frame appears among the frames of a
    stream, its [stop_reason] is "tool_use" if and only if a tool_use block
    was opened before it, and it is "end_turn" otherwise. *)
Theorem stop_reason_tool_use rid input acts pre sr n post :
  sent (run acts (new rid input)) = pre ++ MessageDelta sr n :: post ->
  (sr = lit "tool_use" <-> Exists is_tool_use_start pre)
  /\ (~ Exists is_tool_use_start pre -> sr = lit "end_turn").
Proof.
  intros Heq.
  pose proof (fin_run acts _ (fin_new rid input)) as [_ H2 _ _ _].
  destruct (H2 pre sr n post Heq) as [[-> He]|[-> He]].
  - split; [prop_solve|contradiction].
  - split; [|reflexivity]. split; [discriminate|contradiction].
Qed.

(** The same for a response completed by [End] as the last event: the
    response ends with [message_delta; message_stop] and the stop reason
    tells whether the response has a tool_use block. *)
Lemma stop_reason_at_end rid input acts :
  let c := run acts (new rid input) in
  finished c = false ->
  exists body sr n,
    sent (handleEvents [End] c) = body ++ [MessageDelta sr n; MessageStop]
    /\ (sr = lit "tool_use" <-> Exists is_tool_use_start body)
    /\ (~ Exists is_tool_use_start body -> sr = lit "end_turn").
Proof.
  intros c Hf. simpl.
  destruct (finish_effect c Hf) as (mid & n & E & F & A & B).
  pose proof (fin_run acts _ (fin_new rid input)) as [H1 _ _ _ _]. fold c in H1.
  exists (sent c ++ mid), (if hasToolCalls c then lit "tool_use" else lit "end_turn"), n.
  rewrite E, <- app_assoc. split; [done|].
  assert (Ht : Exists is_tool_use_start (sent c ++ mid) <-> hasToolCalls c = true).
  { rewrite Exists_app, H1. pose proof (plain_not_Exists mid F). prop_solve. }
  rewrite Ht. destruct (hasToolCalls c); split; done.
Qed.

(** C8.  The first [End] event a stream handles sends [message_delta] and
    then [message_stop] as its last two frames and sets [finished]; once
    [finished] is set, whatever happens next, an [End] event leaves the
    stream as it is, so it sends nothing; hence the frames of a stream hold
    at most one [message_delta] and at most one [message_stop]. *)
Theorem finish_idempotent :
  (forall c, finished c = false ->
     exists mid sr n,
       sent (handleEvents [End] c)
       = sent c ++ mid ++ [MessageDelta sr n; MessageStop]
       /\ Forall body_frame mid
       /\ finished (handleEvents [End] c) = true)
  /\ (forall c acts, finished c = true ->
        handleEvents [End] (run acts c) = run acts c)
  /\ (forall rid input acts,
        (message_deltas (sent (run acts (new rid input))) <= 1)%nat
        /\ (message_stops (sent (run acts (new rid input))) <= 1)%nat).
Proof.
  split; [|split].
  - intros c Hf. destruct (finish_effect c Hf) as (mid & n & E & F & A & _).
    exists mid, (if hasToolCalls c then lit "tool_use" else lit "end_turn"), n.
    simpl. split; [exact E|]. split; [now apply plain_body|exact A].
  - intros c acts Hf. simpl. apply finish_done. now apply finished_run.
  - intros rid input acts.
    pose proof (fin_run acts _ (fin_new rid input)) as [_ _ _ H4 H5]. done.
Qed.

End WriterInvariant.

(** ** Retrying a failed tool call *)

Section HandlerFacts.

Import ClaudeStream StreamHandler.

Variable countTokensWithTiktoken : str -> Z.
Variable JSON_stringify : list (str * str) -> str.
Variable generateToolId : nat -> str.
Variable adjustedOutputTokens : Z -> Z.
Variable retry : str -> str -> nat -> RetryResult.

Local Abbreviation handleEvents :=
  (handleEvents countTokensWithTiktoken JSON_stringify generateToolId
     adjustedOutputTokens).
Local Abbreviation run :=
  (run countTokensWithTiktoken JSON_stringify generateToolId adjustedOutputTokens).
Local Abbreviation flushAsync := (aggregator_flushAsync countTokensWithTiktoken).
Local Abbreviation retryLoop :=
  (retryLoop countTokensWithTiktoken JSON_stringify generateToolId
     adjustedOutputTokens retry).
Local Abbreviation afterEOF :=
  (afterEOF countTokensWithTiktoken JSON_stringify generateToolId
     adjustedOutputTokens retry).

Ltac prop_solve :=
  try clear retry; try clear adjustedOutputTokens; try clear generateToolId;
  try clear JSON_stringify; try clear countTokensWithTiktoken;
  tauto.

Lemma pings_succ k c : pings (S k) c = pings k (send Ping c).
Proof. unfold pings. now rewrite Nat.iter_succ_r. Qed.

Lemma pings_plain k c : plain c (pings k c).
Proof.
  induction k as [|k IH]; [apply plain_refl|]. unfold pings. simpl.
  apply plain_send; [|exact IH]. split; [split|]; simpl; prop_solve.
Qed.

Lemma pings_inv k c : stream_inv c -> stream_inv (pings k c).
Proof.
  intros Hc. induction k as [|k IH]; [assumption|]. unfold pings. simpl.
  now apply inv_send_neutral.
Qed.

Lemma pings_fields k c :
  pending (pings k c) = pending c
  /\ thinkingBlockOpen (pings k c) = thinkingBlockOpen c.
Proof. induction k as [|k IH]; [done|]. unfold pings. simpl. exact IH. Qed.

(** The retry loop from [attempt] on: it stops at the first attempt that
    succeeds and hands its call to the writer, and sends a keep-alive ping
    after every failed attempt but the last one allowed. *)
Lemma retryLoop_spec fuel attempt M ka content prior c :
  (fuel + attempt = S M)%nat ->
  match retryLoop fuel attempt M ka content prior c with
  | (true, c') =>
      exists k call,
        (attempt <= k <= M)%nat
        /\ retry content prior k = RetrySucceeded call
        /\ (forall j, (attempt <= j < k)%nat -> ~ succeeded (retry content prior j))
        /\ c' = handleEvents [ToolCall call]
                  (pings (if ka then k - attempt else 0) c)
  | (false, c') =>
      (forall j, (attempt <= j <= M)%nat -> ~ succeeded (retry content prior j))
      /\ c' = pings (if ka then M - attempt else 0) c
  end.
Proof.
  revert attempt c. induction fuel as [|fuel IH]; intros attempt c Hf; simpl.
  - split; [intros j Hj; lia|].
    replace (M - attempt)%nat with 0%nat by lia. now destruct ka.
  - destruct (Nat.leb_spec attempt M) as [Hle|Hgt]; [|lia].
    destruct (retry content prior attempt) as [call|err] eqn:Hr.
    + exists attempt, call. split; [lia|]. split; [done|].
      split; [intros j Hj; lia|].
      replace (attempt - attempt)%nat with 0%nat by lia. now destruct ka.
    + set (c1 := if (attempt <? M)%nat then _ else c).
      assert (Hc1 : c1 = pings (if ka then (if (attempt <? M)%nat then 1 else 0) else 0) c).
      { subst c1. destruct (attempt <? M)%nat; [|now destruct ka]. now destruct ka. }
      specialize (IH (S attempt) c1 ltac:(lia)).
      destruct (retryLoop fuel (S attempt) M ka content prior c1) as [[|] c'].
      * destruct IH as (k & call & Hk & Hs & Hfirst & ->).
        exists k, call. split; [lia|]. split; [done|]. split.
        -- intros j Hj. destruct (decide (j = attempt)) as [->|Hne].
           ++ now rewrite Hr.
           ++ apply Hfirst. lia.
        -- rewrite Hc1. unfold pings. rewrite <- Nat.iter_add.
           replace ((if ka then k - S attempt else 0)
                    + (if ka then if attempt <? M then 1 else 0 else 0))%nat
             with (if ka then k - attempt else 0)%nat; [reflexivity|].
           destruct ka; [|reflexivity].
           destruct (Nat.ltb_spec attempt M); lia.
      * destruct IH as (Hall & ->). split.
        -- intros j Hj. destruct (decide (j = attempt)) as [->|Hne].
           ++ now rewrite Hr.
           ++ apply Hall. lia.
        -- rewrite Hc1. unfold pings. rewrite <- Nat.iter_add.
           replace ((if ka then M - S attempt else 0)
                    + (if ka then if attempt <? M then 1 else 0 else 0))%nat
             with (if ka then M - attempt else 0)%nat; [reflexivity|].
           destruct ka; [|reflexivity].
           destruct (Nat.ltb_spec attempt M); lia.
Qed.

End HandlerFacts.

(** ** Strings *)

Lemma slice_prefix (s : str) (n : nat) :
  slice s 0 (Some (Z.of_nat n)) = take n s.
Proof.
  unfold slice. change (0 <? 0) with false. cbv iota.
  rewrite (Z.min_l 0) by lia. change (Z.to_nat 0) with 0%nat. rewrite drop_0.
  destruct (Z.ltb_spec (Z.of_nat n) 0) as [H|_]; [lia|].
  destruct (le_lt_dec n (length s)) as [Hle|Hgt].
  - rewrite Z.min_l by lia. f_equal. lia.
  - rewrite Z.min_r by lia. rewrite !take_ge; [done|lia..].
Qed.

Lemma slice_from (s : str) (n : nat) :
  slice s (Z.of_nat n + 1) None = drop (S n) s.
Proof.
  unfold slice.
  destruct (Z.ltb_spec (Z.of_nat n + 1) 0) as [H|_]; [lia|].
  destruct (le_lt_dec (S n) (length s)) as [Hle|Hgt].
  - rewrite Z.min_l by lia. replace (Z.to_nat (Z.of_nat n + 1)) with (S n) by lia.
    apply take_ge. rewrite length_drop. lia.
  - rewrite Z.min_r by lia. rewrite Nat2Z.id, !drop_ge by lia. apply take_nil.
Qed.

Lemma drop_after (a : ascii) (pre post : str) :
  drop (S (length pre)) (pre ++ a :: post) = post.
Proof. induction pre as [|b pre IH]; simpl; [done|exact IH]. Qed.

Lemma indexOf_None a s : indexOf a s = None <-> a ∉ s.
Proof.
  induction s as [|b s IH]; simpl.
  - split; [intros _ H; inversion H|done].
  - rewrite not_elem_of_cons. case_bool_decide as Hb.
    + split; [discriminate|]. intros [Hne _]. congruence.
    + destruct (indexOf a s); simpl.
      * split; [discriminate|]. intros [_ Hn]. now apply IH in Hn.
      * split; [|done]. intros _. split; [congruence|]. now apply IH.
Qed.

(** [indexOf] finds the first occurrence. *)
Lemma indexOf_Some a s i :
  indexOf a s = Some i <->
  exists pre post, s = pre ++ a :: post /\ (a ∉ pre) /\ i = length pre.
Proof.
  revert i. induction s as [|b s IH]; intros i; simpl.
  - split; [discriminate|]. intros ([|? ?] & ? & H & _); discriminate H.
  - case_bool_decide as Hb.
    + subst b. split.
      * intros [= <-]. exists [], s. split; [done|]. split; [|done].
        intros H; inversion H.
      * intros (pre & post & Heq & Hn & ->). destruct pre as [|c pre]; [done|].
        injection Heq as <- _. exfalso. apply Hn. apply list_elem_of_here.
    + destruct (indexOf a s) as [j|] eqn:Hj; simpl.
      * split.
        -- intros [= <-]. destruct (proj1 (IH j) eq_refl) as (pre & post & -> & Hn & ->).
           exists (b :: pre), post. split; [done|]. split; [|done].
           rewrite not_elem_of_cons. split; [congruence|done].
        -- intros (pre & post & Heq & Hn & ->). destruct pre as [|c pre].
           ++ injection Heq as -> _. contradiction.
           ++ injection Heq as <- ->. apply not_elem_of_cons in Hn as [_ Hn].
              simpl. do 2 f_equal.
              assert (H : Some j = Some (length pre)); [|congruence].
              apply IH. now exists pre, post.
      * split; [discriminate|]. intros (pre & post & Heq & Hn & ->).
        destruct pre as [|c pre].
        -- injection Heq as -> _. contradiction.
        -- injection Heq as <- ->. apply indexOf_None in Hj.
           exfalso. apply Hj, elem_of_app. right. apply list_elem_of_here.
Qed.

Lemma indexOf_split a pre post :
  a ∉ pre -> indexOf a (pre ++ a :: post) = Some (length pre).
Proof. intros Hn. apply indexOf_Some. now exists pre, post. Qed.

Lemma str_eqb_eq a b : str_eqb a b = true <-> a = b.
Proof. unfold str_eqb. apply bool_decide_eq_true. Qed.

(** [find] by name finds nothing when no element has the name. *)
Lemma find_none {A} (f : A -> bool) (l : list A) :
  (forall x, x ∈ l -> f x = false) -> find f l = None.
Proof.
  induction l as [|x l IH]; intros H; simpl; [done|].
  rewrite (H x) by apply list_elem_of_here. apply IH.
  intros y Hy. apply H. now apply list_elem_of_further.
Qed.

Lemma find_some_elem {A} (f : A -> bool) (l : list A) x :
  find f l = Some x -> x ∈ l /\ f x = true.
Proof.
  intros H. apply find_some in H as [H1 H2]. split; [|done].
  now apply list_elem_of_In.
Qed.

(** ** Choosing the upstream *)

Section Resolution.

Import Config.

Lemma parseChannelModel_split ch rest :
  "+"%char ∉ ch ->
  Upstream.parseChannelModel (ch ++ "+"%char :: rest) = Some (ch, rest).
Proof.
  intros Hn. unfold Upstream.parseChannelModel.
  rewrite (indexOf_split _ _ _ Hn), slice_prefix, slice_from.
  now rewrite take_app_length, drop_after.
Qed.

Lemma parseChannelModel_None m :
  "+"%char ∉ m -> Upstream.parseChannelModel m = None.
Proof.
  intros Hn. unfold Upstream.parseChannelModel.
  now rewrite (proj2 (indexOf_None _ _) Hn).
Qed.

(** Every model string either has no plus sign or splits at its first one. *)
Lemma first_plus m :
  "+"%char ∉ m
  \/ exists ch rest, m = ch ++ "+"%char :: rest /\ "+"%char ∉ ch.
Proof.
  destruct (indexOf "+"%char m) as [i|] eqn:Hi.
  - right. apply indexOf_Some in Hi as (pre & post & -> & Hn & _). eauto.
  - left. now apply indexOf_None.
Qed.

Lemma find_channel_none config ch :
  (forall channel, channel ∈ channelConfigs config -> ch_name channel <> ch) ->
  find (fun c => str_eqb (ch_name c) ch) (channelConfigs config) = None.
Proof.
  intros H. apply find_none. intros c Hc.
  destruct (str_eqb (ch_name c) ch) eqn:He; [|done].
  apply str_eqb_eq in He. now apply H in Hc.
Qed.

Lemma select_no_channel config m :
  names_no_channel config m ->
  Upstream.selectUpstreamConfig config m = Upstream.selectNumberedOrLegacy config m.
Proof.
  intros Hno. unfold Upstream.selectUpstreamConfig.
  destruct (first_plus m) as [Hn|(ch & rest & -> & Hn)].
  - now rewrite parseChannelModel_None.
  - rewrite parseChannelModel_split by assumption.
    rewrite find_channel_none; [done|].
    intros channel Hc. now apply (Hno ch rest).
Qed.

(** C4, as amended.  [selectUpstreamConfig] resolves in the order channel,
    numbered configuration, legacy upstream: a model [ch+X], split at its
    first plus sign, whose [ch] names a configured channel gets the first
    such channel's baseUrl and apiKey with request model [X]; otherwise a
    model equal to a configured nameModel gets the first such numbered
    entry; otherwise, if a non-empty legacy upstreamBaseUrl is configured,
    the legacy upstream with request model upstreamModelOverride if set and
    the client model if not; otherwise the call throws.
    [RequestContext.parseChannelInfo] has the same channel rule (its apiKey
    subject to the passthrough of the client key), no numbered step, and for
    a model without a plus sign takes the first configured channel before
    the legacy upstream. *)
Theorem resolution_order config :
  (forall ch rest channel,
      "+"%char ∉ ch ->
      find (fun c => str_eqb (ch_name c) ch) (channelConfigs config) = Some channel ->
      Upstream.selectUpstreamConfig config (ch ++ "+"%char :: rest)
      = Ok {| baseUrl := ch_baseUrl channel; apiKey := ch_apiKey channel;
              requestModel := rest; nameModel := ch ++ "+"%char :: rest |}
      /\ forall clientApiKey,
          RequestContext.parseChannelInfo (ch ++ "+"%char :: rest) config clientApiKey
          = {| RequestContext.baseUrl := Some (ch_baseUrl channel);
               RequestContext.apiKey :=
                 if passthroughApiKey config && truthy clientApiKey
                 then clientApiKey else ch_apiKey channel;
               RequestContext.model := rest;
               RequestContext.protocol :=
                 match ch_protocol channel with
                 | Some p => Some p
                 | None => defaultProtocol config
                 end |})
  /\ (forall m u,
        names_no_channel config m ->
        find (fun u => str_eqb (nameModel u) m) (upstreamConfigs config) = Some u ->
        Upstream.selectUpstreamConfig config m = Ok u)
  /\ (forall m b url,
        names_no_channel config m ->
        find (fun u => str_eqb (nameModel u) m) (upstreamConfigs config) = None ->
        upstreamBaseUrl config = Some (b :: url) ->
        Upstream.selectUpstreamConfig config m
        = Ok {| baseUrl := b :: url; apiKey := upstreamApiKey config;
                requestModel := default m (upstreamModelOverride config);
                nameModel := m |})
  /\ (forall m,
        names_no_channel config m ->
        find (fun u => str_eqb (nameModel u) m) (upstreamConfigs config) = None ->
        truthy (upstreamBaseUrl config) = false ->
        Upstream.selectUpstreamConfig config m = Thrown (Upstream.no_upstream m))
  /\ (forall m clientApiKey,
        "+"%char ∉ m ->
        RequestContext.parseChannelInfo m config clientApiKey
        = match channelConfigs config with
          | channel :: _ =>
              {| RequestContext.baseUrl := Some (ch_baseUrl channel);
                 RequestContext.apiKey :=
                   if passthroughApiKey config && truthy clientApiKey
                   then clientApiKey else ch_apiKey channel;
                 RequestContext.model := m;
                 RequestContext.protocol :=
                   match ch_protocol channel with
                   | Some p => Some p
                   | None => defaultProtocol config
                   end |}
          | [] =>
              {| RequestContext.baseUrl := upstreamBaseUrl config;
                 RequestContext.apiKey :=
                   if passthroughApiKey config && truthy clientApiKey
                   then clientApiKey else upstreamApiKey config;
                 RequestContext.model := default m (upstreamModelOverride config);
                 RequestContext.protocol := defaultProtocol config |}
          end).
Proof.
  split; [|split; [|split; [|split]]].
  - intros ch rest channel Hn Hf. split.
    + unfold Upstream.selectUpstreamConfig.
      now rewrite parseChannelModel_split, Hf.
    + intros ck. unfold RequestContext.parseChannelInfo.
      rewrite (indexOf_split _ _ _ Hn), slice_prefix, slice_from, take_app_length, Hf.
      now rewrite drop_after.
  - intros m u Hno Hf. rewrite select_no_channel by assumption.
    unfold Upstream.selectNumberedOrLegacy. now rewrite Hf.
  - intros m b url Hno Hf Hb. rewrite select_no_channel by assumption.
    unfold Upstream.selectNumberedOrLegacy. now rewrite Hf, Hb.
  - intros m Hno Hf Hb. rewrite select_no_channel by assumption.
    unfold Upstream.selectNumberedOrLegacy. rewrite Hf.
    destruct (upstreamBaseUrl config) as [[|b url]|]; done.
  - intros m ck Hn. unfold RequestContext.parseChannelInfo.
    rewrite (proj2 (indexOf_None _ _) Hn).
    now destruct (channelConfigs config).
Qed.

(** C9.  A model string with a plus sign whose part before the first plus
    sign names no configured channel: [parseChannelInfo] returns the legacy
    upstream with the whole model string as model (it cannot throw);
    [selectUpstreamConfig] goes on to the numbered configurations and the
    legacy upstream with the whole model string. *)
Theorem unknown_channel_falls_back config ch rest clientApiKey :
  "+"%char ∉ ch ->
  (forall channel, channel ∈ channelConfigs config -> ch_name channel <> ch) ->
  RequestContext.parseChannelInfo (ch ++ "+"%char :: rest) config clientApiKey
  = {| RequestContext.baseUrl := upstreamBaseUrl config;
       RequestContext.apiKey :=
         if passthroughApiKey config && truthy clientApiKey
         then clientApiKey else upstreamApiKey config;
       RequestContext.model := ch ++ "+"%char :: rest;
       RequestContext.protocol := defaultProtocol config |}
  /\ Upstream.selectUpstreamConfig config (ch ++ "+"%char :: rest)
     = match find (fun u => str_eqb (nameModel u) (ch ++ "+"%char :: rest))
               (upstreamConfigs config) with
       | Some upstreamConfig => Ok upstreamConfig
       | None =>
           match upstreamBaseUrl config with
           | Some (b :: url) =>
               Ok {| baseUrl := b :: url; apiKey := upstreamApiKey config;
                     requestModel :=
                       default (ch ++ "+"%char :: rest) (upstreamModelOverride config);
                     nameModel := ch ++ "+"%char :: rest |}
           | _ => Thrown (Upstream.no_upstream (ch ++ "+"%char :: rest))
           end
       end.
Proof.
  intros Hn Hno. split.
  - unfold RequestContext.parseChannelInfo.
    rewrite (indexOf_split _ _ _ Hn), slice_prefix, take_app_length.
    now rewrite find_channel_none.
  - unfold Upstream.selectUpstreamConfig.
    rewrite parseChannelModel_split by assumption.
    now rewrite find_channel_none.
Qed.


(** C4 as stated fails in three ways.  With a numbered upstream defined
    there is no legacy upstream, and a model that matches nothing makes
    [selectUpstreamConfig] throw instead of returning one.  A channel named
    "a+b" is configured, and the model "a+b+m" is not resolved to it, for
    the split is at the first plus sign.  "named" is a configured nameModel,
    and [parseChannelInfo] resolves it to the first channel with the model
    unchanged, not to the numbered entry. *)
Lemma resolution_order_counterexample :
  Upstream.selectUpstreamConfig numbered_only_config (lit "other")
  = Thrown (Upstream.no_upstream (lit "other"))
  /\ (exists channel,
        channel ∈ channelConfigs numbered_only_config
        /\ ch_name channel = lit "a+b"
        /\ Upstream.selectUpstreamConfig numbered_only_config
             (lit "a+b" ++ "+"%char :: lit "m")
           = Thrown (Upstream.no_upstream (lit "a+b+m"))
        /\ RequestContext.parseChannelInfo (lit "a+b" ++ "+"%char :: lit "m")
             numbered_only_config None
           = {| RequestContext.baseUrl := None; RequestContext.apiKey := None;
                RequestContext.model := lit "a+b+m";
                RequestContext.protocol := None |})
  /\ (exists u,
        u ∈ upstreamConfigs numbered_only_config
        /\ nameModel u = lit "named"
        /\ baseUrl u = lit "https://one.example/v1"
        /\ requestModel u = lit "real-model"
        /\ RequestContext.parseChannelInfo (lit "named") numbered_only_config None
           = {| RequestContext.baseUrl := Some (lit "https://ab.example/v1");
                RequestContext.apiKey := None;
                RequestContext.model := lit "named";
                RequestContext.protocol := None |}).
Proof.
  split; [reflexivity|]. split.
  - eexists. split; [apply list_elem_of_here|]. repeat split; reflexivity.
  - eexists. split; [apply list_elem_of_here|]. repeat split; reflexivity.
Qed.

End Resolution.

(** ** Loading the configuration *)

Section LoadConfigFacts.

Import Config.

Variable Number : str -> jsnum.

Lemma select_with_legacy config b url m :
  upstreamBaseUrl config = Some (b :: url) ->
  exists u, Upstream.selectUpstreamConfig config m = Ok u.
Proof.
  intros Hb. unfold Upstream.selectUpstreamConfig, Upstream.selectNumberedOrLegacy.
  destruct (Upstream.parseChannelModel m) as [[ch rest]|].
  - destruct (find _ (channelConfigs config)); [eauto|].
    destruct (find _ (upstreamConfigs config)); [eauto|]. rewrite Hb. eauto.
  - destruct (find _ (upstreamConfigs config)); [eauto|]. rewrite Hb. eauto.
Qed.

(** C10.  With [UPSTREAM_BASE_URL] unset, [loadConfig] returns a
    configuration and does not throw; when moreover no numbered upstream is
    defined, the legacy [upstreamBaseUrl] of that configuration is the
    default address, and every model resolves against it. *)
Theorem loadConfig_default_upstream (env : Env) :
  env_get env "UPSTREAM_BASE_URL" = None ->
  (exists config, loadConfig Number env = Ok config)
  /\ (loadUpstreamConfigs env = [] ->
      exists config,
        loadConfig Number env = Ok config
        /\ upstreamBaseUrl config = Some DEFAULT_UPSTREAM_BASE_URL
        /\ DEFAULT_UPSTREAM_BASE_URL = lit "http://127.0.0.1:8000/v1/chat/completions"
        /\ upstreamConfigs config = []
        /\ forall m, exists u, Upstream.selectUpstreamConfig config m = Ok u).
Proof.
  intros Hunset. unfold loadConfig. rewrite Hunset. simpl default.
  split.
  - destruct (length (loadUpstreamConfigs env) =? 0)%nat; simpl; eauto.
  - intros Hnone. rewrite Hnone. simpl. eexists. split; [reflexivity|].
    simpl. split; [reflexivity|]. split; [reflexivity|]. split; [reflexivity|].
    intros m. eapply select_with_legacy. reflexivity.
Qed.

(** The error of [loadConfig] is reached by a variable that is set and
    empty. *)
Lemma loadConfig_empty_base_url :
  loadConfig Number ({[ "UPSTREAM_BASE_URL" := [] ]} : Env)
  = Thrown (lit "UPSTREAM_BASE_URL must be provided when no UPSTREAM_CONFIG_* defined").
Proof. vm_compute. reflexivity. Qed.

End LoadConfigFacts.

(** ** The token multiplier *)

Section TokenMultiplier.

Import Config.

Lemma slice_drop_last (t : str) (a : ascii) : slice (t ++ [a]) 0 (Some (-1)) = t.
Proof.
  unfold slice. rewrite length_app. cbn [length].
  change (0 <? 0) with false. change (-1 <? 0) with true. cbv iota.
  rewrite (Z.min_l 0) by lia. change (Z.to_nat 0) with 0%nat. rewrite drop_0.
  rewrite Z.max_l by lia.
  replace (Z.to_nat (Z.of_nat (length t + 1) + -1 - 0)) with (length t) by lia.
  apply take_app_length.
Qed.

Lemma endsWith_snoc (s : str) (a : ascii) :
  endsWith s [a] = true -> exists t, s = t ++ [a].
Proof. unfold endsWith. rewrite bool_decide_eq_true. intros [t ->]. now exists t. Qed.

Lemma trimStart_snoc (t : str) (c : ascii) :
  is_white c = false -> trimStart (t ++ [c]) = trimStart t ++ [c].
Proof.
  intros Hc. induction t as [|a t IH]; cbn [app trimStart].
  - now rewrite Hc.
  - destruct (is_white a); [exact IH|reflexivity].
Qed.

Lemma sign_of_snoc (u : str) (c : ascii) :
  c <> "-"%char -> c <> "+"%char ->
  sign_of (u ++ [c]) = ((sign_of u).1, (sign_of u).2 ++ [c]).
Proof.
  intros Hm Hp. destruct u as [|a u]; cbn [app sign_of].
  - rewrite !bool_decide_eq_false_2 by assumption. reflexivity.
  - repeat case_bool_decide; reflexivity.
Qed.

Lemma startsWith_snoc (u p : str) (c : ascii) :
  c ∉ p -> startsWith (u ++ [c]) p = startsWith u p.
Proof.
  intros Hc. unfold startsWith. apply bool_decide_ext. split.
  - intros [k E]. induction k as [|x k' _] using rev_ind.
    + rewrite app_nil_r in E. exfalso. apply Hc. rewrite <- E.
      apply elem_of_app. right. apply list_elem_of_here.
    + rewrite app_assoc in E. apply app_inj_tail in E as [E _]. now exists k'.
  - intros [k ->]. exists (k ++ [c]). now rewrite app_assoc.
Qed.

Lemma digits_snoc (u : str) (c : ascii) acc n :
  digit_of c = None ->
  digits (u ++ [c]) acc n
  = ((digits u acc n).1.1, (digits u acc n).1.2, (digits u acc n).2 ++ [c]).
Proof.
  intros Hc. revert acc n. induction u as [|a u IH]; intros acc n; cbn [app digits].
  - now rewrite Hc.
  - destruct (digit_of a) as [d|]; [apply IH|reflexivity].
Qed.

Lemma exponent_of_snoc (r : str) (c : ascii) :
  c <> "e"%char -> c <> "E"%char -> c <> "-"%char -> c <> "+"%char ->
  digit_of c = None ->
  exponent_of (r ++ [c]) = exponent_of r.
Proof.
  intros He HE Hm Hp Hd. destruct r as [|a r]; cbn [app exponent_of].
  - rewrite !bool_decide_eq_false_2 by assumption. reflexivity.
  - destruct (bool_decide (a = "e"%char) || bool_decide (a = "E"%char)); [|reflexivity].
    rewrite sign_of_snoc by assumption.
    destruct (sign_of r) as [neg r']. cbn [fst snd].
    rewrite digits_snoc by assumption.
    destruct (digits r' 0 0%nat) as [[v k] rest]. reflexivity.
Qed.

(** A percent sign after a string does not change the number at its head. *)
Lemma parseFloat_percent (t : str) : parseFloat (t ++ lit "%") = parseFloat t.
Proof.
  unfold parseFloat. change (lit "%") with ["%"%char].
  rewrite trimStart_snoc by reflexivity.
  rewrite sign_of_snoc by discriminate.
  destruct (sign_of (trimStart t)) as [neg s]. cbn [fst snd].
  rewrite startsWith_snoc.
  2:{ intros Hin. apply list_elem_of_In in Hin. vm_compute in Hin.
      repeat (destruct Hin as [Hin|Hin]; [discriminate Hin|]). exact Hin. }
  destruct (startsWith s (lit "Infinity")); [reflexivity|].
  rewrite digits_snoc by reflexivity.
  destruct (digits s 0 0%nat) as [[ip ni] r1]. cbn [fst snd].
  destruct r1 as [|a r]; cbn [app].
  - rewrite bool_decide_eq_false_2 by discriminate.
    destruct (ni + 0)%nat; reflexivity.
  - destruct (bool_decide (a = "."%char)).
    + rewrite digits_snoc by reflexivity.
      destruct (digits r ip 0%nat) as [[m nf] r2]. cbn [fst snd].
      destruct (ni + nf)%nat; [reflexivity|].
      now rewrite exponent_of_snoc by (discriminate || reflexivity).
    + destruct (ni + 0)%nat; [reflexivity|].
      change (a :: r ++ ["%"%char]) with ((a :: r) ++ ["%"%char]).
      now rewrite (exponent_of_snoc (a :: r)) by (discriminate || reflexivity).
Qed.

Lemma without_x_percent (s : str) :
  endsWith s (lit "%") = true -> startsWith (toLowerCase s) (lit "x") = false ->
  without_x s = s.
Proof.
  intros He Hs. apply endsWith_snoc in He as [t ->].
  unfold without_x. rewrite Hs.
  assert (H : endsWith (toLowerCase (t ++ ["%"%char])) (lit "x") = false).
  { unfold toLowerCase, endsWith. rewrite fmap_app. apply bool_decide_eq_false_2.
    intros [k E]. apply app_inj_tail in E as [_ E]. discriminate E. }
  now rewrite H.
Qed.

Lemma le0_not_gt0 x : isFinite x = false \/ le0 x = true -> isFinite x && gt0 x = false.
Proof.
  destruct x as [| | |q]; cbn; intros [H|H]; try discriminate; try reflexivity.
  now rewrite H.
Qed.

(** C7.  [parseTokenMultiplier] returns 1.0 for the empty string, "abc",
    "-3", "0", "NaN" and an undefined value.  In general: for a blank value
    it returns 1.0; for a percentage whose number is finite and greater
    than 0 it returns the hundredth of that number; in every other case the
    number it parses is that of the value without quotes and without its
    x, and it returns 1.0 whenever this number is not finite or is at most
    0, and the number itself otherwise.  For a percentage that does not
    start with an x the number parsed last is the percentage's own, so that
    a percentage of a number that is not finite or at most 0 gives 1.0.
    "1.2", "1.2x", "x1.2", "120%" and their quoted forms all give the
    binary64 number 1.2. *)
Theorem parseTokenMultiplier_fallback :
  (parseTokenMultiplier None = Fin 1
   /\ parseTokenMultiplier (Some (lit "")) = Fin 1
   /\ parseTokenMultiplier (Some (lit "abc")) = Fin 1
   /\ parseTokenMultiplier (Some (lit "-3")) = Fin 1
   /\ parseTokenMultiplier (Some (lit "0")) = Fin 1
   /\ parseTokenMultiplier (Some (lit "NaN")) = Fin 1)
  /\ (forall raw : str,
        let s := unquoted raw in
        let percent := parseFloat (slice s 0 (Some (-1))) in
        let num := parseFloat (without_x s) in
        (falsy (trim raw) = true -> parseTokenMultiplier (Some raw) = Fin 1)
        /\ (falsy (trim raw) = false ->
            (endsWith s (lit "%") = true ->
             isFinite percent = true -> gt0 percent = true ->
             parseTokenMultiplier (Some raw) = div100 percent)
            /\ (endsWith s (lit "%") = false
                \/ isFinite percent = false \/ le0 percent = true ->
                (isFinite num = false \/ le0 num = true ->
                 parseTokenMultiplier (Some raw) = Fin 1)
                /\ (isFinite num = true -> le0 num = false ->
                    parseTokenMultiplier (Some raw) = num))
            /\ (endsWith s (lit "%") = true ->
                startsWith (toLowerCase s) (lit "x") = false ->
                num = percent
                /\ (isFinite percent = false \/ le0 percent = true ->
                    parseTokenMultiplier (Some raw) = Fin 1))))
  /\ (parseTokenMultiplier (Some (lit "1.2")) = round64 (12 # 10)
      /\ parseTokenMultiplier (Some (lit "1.2x")) = round64 (12 # 10)
      /\ parseTokenMultiplier (Some (lit "x1.2")) = round64 (12 # 10)
      /\ parseTokenMultiplier (Some (lit "120%")) = round64 (12 # 10)
      /\ parseTokenMultiplier (Some (lit " 1.2 ")) = round64 (12 # 10)
      /\ parseTokenMultiplier (Some ([dquote] ++ lit "1.2" ++ [dquote]))
         = round64 (12 # 10)
      /\ parseTokenMultiplier (Some ([squote] ++ lit "1.2" ++ [squote]))
         = round64 (12 # 10)
      /\ parseTokenMultiplier (Some ([squote] ++ lit "1.2x" ++ [squote]))
         = round64 (12 # 10)
      /\ parseTokenMultiplier (Some ([dquote] ++ lit "120%" ++ [dquote]))
         = round64 (12 # 10)).
Proof.
  split; [|split].
  - repeat split; vm_compute; reflexivity.
  - intros raw s percent num.
    assert (Hblank : falsy (trim raw) = true -> parseTokenMultiplier (Some raw) = Fin 1).
    { intros Hb. unfold parseTokenMultiplier. rewrite Hb. now destruct (falsy raw). }
    split; [exact Hblank|]. intros Hb.
    assert (Hraw : falsy raw = false).
    { destruct raw; [discriminate Hb|reflexivity]. }
    assert (Htaken : endsWith s (lit "%") = true ->
                     isFinite percent = true -> gt0 percent = true ->
                     parseTokenMultiplier (Some raw) = div100 percent).
    { intros He Hf Hg. unfold parseTokenMultiplier. rewrite Hraw, Hb.
      fold s. rewrite He. fold percent. now rewrite Hf, Hg. }
    assert (Hlast : endsWith s (lit "%") = false
                    \/ isFinite percent = false \/ le0 percent = true ->
                    parseTokenMultiplier (Some raw)
                    = if negb (isFinite num) || le0 num then Fin 1 else num).
    { intros H. unfold parseTokenMultiplier. rewrite Hraw, Hb. fold s.
      destruct (endsWith s (lit "%")) eqn:He; [|reflexivity].
      fold percent. destruct H as [H|H]; [discriminate H|].
      now rewrite (le0_not_gt0 percent H). }
    split; [exact Htaken|]. split.
    + intros H. rewrite (Hlast H). split.
      * intros [Hf|Hl]; [now rewrite Hf|]. rewrite Hl. now rewrite orb_true_r.
      * intros Hf Hl. now rewrite Hf, Hl.
    + intros He Hx.
      assert (E : num = percent).
      { unfold num, percent. rewrite (without_x_percent s He Hx).
        destruct (endsWith_snoc s "%"%char He) as [t ->].
        rewrite slice_drop_last. exact (parseFloat_percent t). }
      split; [exact E|]. intros H. rewrite Hlast by now right.
      rewrite E. destruct H as [Hf|Hl]; [now rewrite Hf|].
      rewrite Hl. now rewrite orb_true_r.
  - repeat split; vm_compute; reflexivity.
Qed.

(** Rounding to binary64: one tenth; ties go to the even neighbour; the
    greatest finite number and the least value that rounds to an infinity;
    the least positive number, and half of it, which rounds to zero. *)
Example round64_samples :
  round64 (1 # 10) = Fin (3602879701896397 # 36028797018963968)
  /\ round64 (inject_Z (2 ^ 53 + 1)) = Fin (inject_Z (2 ^ 53))
  /\ round64 (inject_Z (2 ^ 53 + 3)) = Fin (inject_Z (2 ^ 53 + 4))
  /\ round64 (inject_Z (2 ^ 1024 - 2 ^ 970 - 1)) = Fin (inject_Z (2 ^ 1024 - 2 ^ 971))
  /\ round64 (inject_Z (2 ^ 1024 - 2 ^ 970)) = PInf
  /\ round64 (- inject_Z (2 ^ 1024)) = NInf
  /\ round64 (1 # 2 ^ 1074) = Fin (1 # 2 ^ 1074)
  /\ round64 (1 # 2 ^ 1075) = Fin 0
  /\ round64 (3 # 2 ^ 1075) = Fin (1 # 2 ^ 1073)
  /\ round64 (3 # 2 ^ 1076) = Fin (1 # 2 ^ 1074).
Proof. repeat split; vm_compute; reflexivity. Qed.

(** The binary64 number 1.2, and a percentage so small that its hundredth
    is rounded to zero: the number parsed is greater than 0, the result is
    0. *)
Example parseTokenMultiplier_rounding :
  round64 (12 # 10) = Fin (5404319552844595 # 4503599627370496)
  /\ gt0 (parseFloat (lit "2.48e-322")) = true
  /\ parseTokenMultiplier (Some (lit "2.48e-322%")) = Fin 0
  /\ parseTokenMultiplier (Some (lit "0%")) = Fin 1
  /\ parseTokenMultiplier (Some (lit "x5%")) = Fin 5
  /\ parseTokenMultiplier (Some (lit "1e400")) = Fin 1.
Proof. repeat split; vm_compute; reflexivity. Qed.

End TokenMultiplier.

(** ** Worked examples *)

Section Examples.

Import ClaudeStream.

(** S1: plain chat. *)
Example scenario_plain_chat :
  sent (Sample.run
          [Init; HandleEvents [Text (lit "Hel")]; TimerFire;
           HandleEvents [Text (lit "lo")]; TimerFire; HandleEvents [End]]
          Sample.fresh)
  = [MessageStart (lit "msg_req1") 7; Ping;
     ContentBlockStart 0 TextBlock;
     ContentBlockDelta 0 (TextDelta (lit "Hel"));
     ContentBlockDelta 0 (TextDelta (lit "lo"));
     ContentBlockStop 0;
     MessageDelta (lit "end_turn") 5; MessageStop].
Proof. vm_compute. reflexivity. Qed.

(** S5: a thinking block, then text. *)
Example scenario_thinking :
  sent (Sample.run
          [Init; HandleEvents [Thinking (lit "weighing"); Text (lit "Answer: 4"); End]]
          Sample.fresh)
  = [MessageStart (lit "msg_req1") 7; Ping;
     ContentBlockStart 0 ThinkingBlock;
     ContentBlockDelta 0 (ThinkingDelta (lit "weigh"));
     ContentBlockDelta 0 (ThinkingDelta (lit "ing"));
     ContentBlockDelta 0 (SignatureDelta []);
     ContentBlockStop 0;
     ContentBlockStart 1 TextBlock;
     ContentBlockDelta 1 (TextDelta (lit "Answer: 4"));
     ContentBlockStop 1;
     MessageDelta (lit "end_turn") 17; MessageStop].
Proof. vm_compute. reflexivity. Qed.

(** S2, from the parser's events on. *)
Example scenario_tool_call :
  sent (Sample.run
          [Init; HandleEvents [Text (lit "Checking."); ToolCall Sample.get_weather; End]]
          Sample.fresh)
  = [MessageStart (lit "msg_req1") 7; Ping;
     ContentBlockStart 0 TextBlock;
     ContentBlockDelta 0 (TextDelta (lit "Checking."));
     ContentBlockStop 0;
     ContentBlockStart 1 (ToolUseBlock (lit "toolu_0") (lit "get_weather"));
     ContentBlockDelta 1 (InputJsonDelta (lit "{}"));
     ContentBlockStop 1;
     MessageDelta (lit "tool_use") 11; MessageStop].
Proof. vm_compute. reflexivity. Qed.

Lemma stop_reason_tool_use_witness :
  let fs :=
    sent (Sample.run [Init; HandleEvents [ToolCall Sample.get_weather; End]]
            Sample.fresh) in
  fs = take 5 fs ++ MessageDelta (lit "tool_use") 2 :: [MessageStop]
  /\ (lit "tool_use" = lit "tool_use" <-> Exists is_tool_use_start (take 5 fs))
  /\ (~ Exists is_tool_use_start (take 5 fs) -> lit "tool_use" = lit "end_turn").
Proof.
  split; [vm_compute; reflexivity|].
  apply (stop_reason_tool_use Sample.count Sample.stringify Sample.toolId
           Sample.adjust (lit "req1") 7
           [Init; HandleEvents [ToolCall Sample.get_weather; End]]
           _ _ 2 [MessageStop]).
  vm_compute. reflexivity.
Defined.

(** S3: two attempts allowed, the second one succeeds. *)
Example scenario_retry_succeeds :
  sent (Sample.afterEOF (Sample.retrying 2) Sample.last_events
          (Sample.run [Init] Sample.fresh))
  = [MessageStart (lit "msg_req1") 7; Ping; Ping; Ping;
     ContentBlockStart 0 (ToolUseBlock (lit "toolu_0") (lit "get_weather"));
     ContentBlockDelta 0 (InputJsonDelta (lit "{}"));
     ContentBlockStop 0].
Proof. vm_compute. reflexivity. Qed.

(** S6: channel routing with the client key passed through. *)
Example scenario_passthrough :
  let upstream :=
    RequestContext.parseChannelInfo (lit "openrouter+foo/bar") passthrough_config
      (Some (lit "sk-client")) in
  upstream
  = {| RequestContext.baseUrl := Some (lit "https://openrouter.example/v1");
       RequestContext.apiKey := Some (lit "sk-client");
       RequestContext.model := lit "foo/bar";
       RequestContext.protocol := Some Config.openai |}
  /\ RequestContext.forwardRequest_headers upstream
     = [(lit "Content-Type", lit "application/json");
        (lit "Authorization", lit "Bearer sk-client")].
Proof. vm_compute. split; reflexivity. Qed.

Lemma resolution_order_witness :
  Upstream.selectUpstreamConfig passthrough_config
    (lit "openrouter" ++ "+"%char :: lit "foo/bar")
  = Config.Ok {| Config.baseUrl := lit "https://openrouter.example/v1";
                 Config.apiKey := Some (lit "sk-channel");
                 Config.requestModel := lit "foo/bar";
                 Config.nameModel := lit "openrouter" ++ "+"%char :: lit "foo/bar" |}.
Proof.
  refine (proj1 (proj1 (resolution_order passthrough_config)
                   (lit "openrouter") (lit "foo/bar")
                   {| Config.ch_name := lit "openrouter";
                      Config.ch_baseUrl := lit "https://openrouter.example/v1";
                      Config.ch_apiKey := Some (lit "sk-channel");
                      Config.ch_protocol := Some Config.openai |} _ _)).
  - apply indexOf_None. reflexivity.
  - reflexivity.
Defined.

Lemma unknown_channel_falls_back_witness :
  ("+"%char ∉ lit "nowhere")
  /\ (forall channel,
        channel ∈ Config.channelConfigs passthrough_config ->
        Config.ch_name channel <> lit "nowhere")
  /\ RequestContext.parseChannelInfo (lit "nowhere" ++ "+"%char :: lit "m1")
       passthrough_config None
     = {| RequestContext.baseUrl := Some (lit "https://legacy.example/v1");
          RequestContext.apiKey := Some (lit "sk-legacy");
          RequestContext.model := lit "nowhere+m1";
          RequestContext.protocol := Some Config.openai |}
  /\ Upstream.selectUpstreamConfig passthrough_config
       (lit "nowhere" ++ "+"%char :: lit "m1")
     = Config.Ok {| Config.baseUrl := lit "https://legacy.example/v1";
                    Config.apiKey := Some (lit "sk-legacy");
                    Config.requestModel := lit "nowhere+m1";
                    Config.nameModel := lit "nowhere+m1" |}.
Proof.
  assert (H1 : "+"%char ∉ lit "nowhere").
  { apply indexOf_None. reflexivity. }
  assert (H2 : forall channel,
             channel ∈ Config.channelConfigs passthrough_config ->
             Config.ch_name channel <> lit "nowhere").
  { intros channel Hc. apply list_elem_of_singleton in Hc as ->. discriminate. }
  split; [exact H1|]. split; [exact H2|].
  exact (unknown_channel_falls_back passthrough_config (lit "nowhere") (lit "m1")
           None H1 H2).
Defined.

Lemma loadConfig_default_upstream_witness :
  Config.env_get (∅ : Config.Env) "UPSTREAM_BASE_URL" = None
  /\ (exists config, Config.loadConfig (fun _ => NaN) (∅ : Config.Env) = Config.Ok config)
  /\ (Config.loadUpstreamConfigs (∅ : Config.Env) = [] ->
      exists config,
        Config.loadConfig (fun _ => NaN) (∅ : Config.Env) = Config.Ok config
        /\ Config.upstreamBaseUrl config = Some Config.DEFAULT_UPSTREAM_BASE_URL
        /\ Config.DEFAULT_UPSTREAM_BASE_URL
           = lit "http://127.0.0.1:8000/v1/chat/completions"
        /\ Config.upstreamConfigs config = []
        /\ forall m, exists u, Upstream.selectUpstreamConfig config m = Config.Ok u).
Proof.
  split; [reflexivity|].
  exact (loadConfig_default_upstream (fun _ => NaN) (∅ : Config.Env) eq_refl).
Defined.

End Examples.

(** ** The parser's text *)

Section ParserText.

Import ToolifyParser.

Lemma texts_app a b : texts (a ++ b) = texts a ++ texts b.
Proof.
  induction a as [|e a IH]; simpl; [done|].
  destruct e; simpl; try exact IH. now rewrite IH, app_assoc.
Qed.



Lemma emitText_fields t p :
  TC_START (emitText t p) = TC_START p /\ state (emitText t p) = state p
  /\ window (emitText t p) = window p /\ ignoring (emitText t p) = ignoring p.
Proof. now destruct t. Qed.

Lemma emitThinking_fields t p :
  TC_START (emitThinking t p) = TC_START p /\ state (emitThinking t p) = state p
  /\ window (emitThinking t p) = window p
  /\ ignoring (emitThinking t p) = ignoring p.
Proof. now destruct t. Qed.

(** *** The held part of the window *)









(** *** Past the trigger signal nothing is text *)


Lemma texts_push_other e p :
  (forall t, e <> Text t) -> texts (events (push e p)) = texts (events p).
Proof.
  intros He. simpl. rewrite texts_app. destruct e; simpl; try apply app_nil_r.
  now destruct (He content).
Qed.




(** *** Text before the trigger signal *)

Lemma feedChar_TC_START c p : TC_START (feedChar c p) = TC_START p.
Proof.
  unfold feedChar, tool_done, note_junk.
  repeat match goal with
         | |- context [match TC_START p with _ => _ end] =>
             destruct (TC_START p) eqn:?
         | |- context [match state p with _ => _ end] => destruct (state p)
         | |- context [if ?b then _ else _] => destruct b
         end;
    simpl;
    rewrite ?(proj1 (emitText_fields _ _)), ?(proj1 (emitThinking_fields _ _));
    congruence.
Qed.

Lemma think_open_watched delim : THINK_OPEN ∈ watched delim.
Proof. apply list_elem_of_here. Qed.

Lemma trigger_watched tc : tc ∈ watched (Some tc).
Proof. apply list_elem_of_further, list_elem_of_here. Qed.

Lemma visible_from_thinking d acc c r :
  visible_from d true acc (c :: r)
  = if endsWith (acc ++ [c]) THINK_CLOSE then visible_from d false [] r
    else visible_from d true (acc ++ [c]) r.
Proof. reflexivity. Qed.

Lemma visible_from_normal d acc c r :
  visible_from d false acc (c :: r)
  = if endsWith (acc ++ [c]) THINK_OPEN then
      drop_end (length THINK_OPEN) (acc ++ [c]) ++ visible_from d true [] r
    else
      match d with
      | Some tc =>
          if endsWith (acc ++ [c]) tc then drop_end (length tc) (acc ++ [c])
          else visible_from d false (acc ++ [c]) r
      | None => visible_from d false (acc ++ [c]) r
      end.
Proof. reflexivity. Qed.



(** *** The visible text, span by span *)

Lemma occurs_in_app_r (m s t : str) : occurs_in m s -> occurs_in m (s ++ t).
Proof. intros (k1 & k2 & ->). exists k1, (k2 ++ t). now rewrite <- !app_assoc. Qed.

Lemma completion_occurs (m acc w rest : str) :
  w `prefix_of` rest -> m `suffix_of` (acc ++ w) -> occurs_in m (acc ++ rest).
Proof.
  intros [r ->] [k Hk]. exists k, r. now rewrite app_assoc, Hk, <- app_assoc.
Qed.

Lemma endsWith_false (w m : str) : ~ m `suffix_of` w -> endsWith w m = false.
Proof. intros H. unfold endsWith. now apply bool_decide_eq_false. Qed.

Lemma endsWith_true (w m : str) : m `suffix_of` w -> endsWith w m = true.
Proof. intros H. unfold endsWith. now apply bool_decide_eq_true. Qed.

(** Outside a thinking block, a stretch in which no marker completes is
    read through. *)
Lemma visible_through d rest :
  forall acc rest2,
    (forall m w, m ∈ watched d -> w `prefix_of` rest -> ~ m `suffix_of` (acc ++ w)) ->
    visible_from d false acc (rest ++ rest2) = visible_from d false (acc ++ rest) rest2.
Proof.
  induction rest as [|c rest IH]; intros acc rest2 H; [now rewrite app_nil_r|].
  change ((c :: rest) ++ rest2) with (c :: (rest ++ rest2)).
  rewrite visible_from_normal.
  rewrite (endsWith_false _ THINK_OPEN)
    by (apply H; [apply think_open_watched|now apply prefix_cons, prefix_nil]).
  assert (Hgo : visible_from d false (acc ++ [c]) (rest ++ rest2)
                = visible_from d false (acc ++ c :: rest) rest2).
  { rewrite IH; [now rewrite <- app_assoc|].
    intros m w Hm Hw. rewrite <- app_assoc. apply H; [done|].
    now apply prefix_cons. }
  destruct d as [tc|]; [|exact Hgo].
  rewrite (endsWith_false _ tc)
    by (apply H; [apply trigger_watched|now apply prefix_cons, prefix_nil]).
  exact Hgo.
Qed.

(** Inside a thinking block, a stretch in which the closing tag does not
    complete is read through. *)
Lemma thinking_through d rest :
  forall acc rest2,
    (forall w, w `prefix_of` rest -> ~ THINK_CLOSE `suffix_of` (acc ++ w)) ->
    visible_from d true acc (rest ++ rest2) = visible_from d true (acc ++ rest) rest2.
Proof.
  induction rest as [|c rest IH]; intros acc rest2 H; [now rewrite app_nil_r|].
  change ((c :: rest) ++ rest2) with (c :: (rest ++ rest2)).
  rewrite visible_from_thinking.
  rewrite endsWith_false by (apply H; now apply prefix_cons, prefix_nil).
  rewrite IH; [now rewrite <- app_assoc|].
  intros w Hw. rewrite <- app_assoc. apply H. now apply prefix_cons.
Qed.

Lemma snoc_removelast (m : str) : m <> [] -> exists x, m = removelast m ++ [x].
Proof.
  intros Hm. exists (List.last m "000"%char). now apply app_removelast_last.
Qed.

(** No marker in the text: all of it is visible. *)
Lemma visible_no_marker d text :
  (forall m, m ∈ watched d -> ~ occurs_in m text) -> visible_text d text = text.
Proof.
  intros H. unfold visible_text.
  rewrite <- (app_nil_r text) at 1. rewrite visible_through; [done|].
  intros m w Hm Hw Hs. apply (H m Hm). now apply (completion_occurs m [] w text).
Qed.

(** The first trigger signal outside a thinking block ends the visible
    text. *)
Lemma visible_up_to_trigger tc a b :
  tc <> [] ->
  ~ occurs_in THINK_OPEN (a ++ tc) ->
  ~ occurs_in tc (a ++ removelast tc) ->
  visible_text (Some tc) (a ++ tc ++ b) = a.
Proof.
  intros Hne Hopen Htc. destruct (snoc_removelast tc Hne) as [x Hx].
  assert (Htext : a ++ tc ++ b = (a ++ removelast tc) ++ x :: b).
  { rewrite Hx at 1. now rewrite <- !app_assoc. }
  unfold visible_text. rewrite Htext, visible_through.
  - rewrite app_nil_l, visible_from_normal, <- app_assoc, <- Hx.
    rewrite (endsWith_false _ THINK_OPEN).
    + rewrite endsWith_true by now apply suffix_app_r.
      unfold drop_end. rewrite length_app.
      replace (length a + length tc - length tc)%nat with (length a) by lia.
      apply take_app_length.
    + intros [k Hk]. apply Hopen. exists k, []. now rewrite app_nil_r.
  - intros m w Hm Hw Hs. simpl in Hs.
    apply elem_of_cons in Hm as [->|Hm].
    + apply Hopen. rewrite Hx, app_assoc. apply occurs_in_app_r.
      now apply (completion_occurs THINK_OPEN [] w).
    + apply list_elem_of_singleton in Hm as ->.
      apply Htc. now apply (completion_occurs tc [] w).
Qed.

(** A thinking span is left out of the visible text. *)
Lemma visible_skips_thinking d a t b :
  (forall m, m ∈ watched d -> ~ occurs_in m (a ++ removelast THINK_OPEN)) ->
  ~ occurs_in THINK_CLOSE (t ++ removelast THINK_CLOSE) ->
  visible_text d (a ++ THINK_OPEN ++ t ++ THINK_CLOSE ++ b)
  = a ++ visible_text d b.
Proof.
  intros Ha Ht.
  assert (Hopen : forall k, a ++ THINK_OPEN ++ k
                  = (a ++ removelast THINK_OPEN) ++ ">"%char :: k).
  { intros k. now rewrite <- app_assoc. }
  assert (Hclose : forall k, t ++ THINK_CLOSE ++ k
                   = (t ++ removelast THINK_CLOSE) ++ ">"%char :: k).
  { intros k. now rewrite <- app_assoc. }
  unfold visible_text. rewrite Hopen, visible_through.
  - rewrite app_nil_l, visible_from_normal.
    assert (Hfull : (a ++ removelast THINK_OPEN) ++ [">"%char] = a ++ THINK_OPEN)
      by now rewrite <- app_assoc.
    rewrite Hfull, endsWith_true by now apply suffix_app_r.
    unfold drop_end at 1. rewrite length_app.
    replace (length a + length THINK_OPEN - length THINK_OPEN)%nat
      with (length a) by lia.
    rewrite take_app_length. f_equal.
    rewrite Hclose, thinking_through.
    + rewrite app_nil_l, visible_from_thinking.
      assert (Hfull' : (t ++ removelast THINK_CLOSE) ++ [">"%char] = t ++ THINK_CLOSE)
        by now rewrite <- app_assoc.
      now rewrite Hfull', endsWith_true by now apply suffix_app_r.
    + intros w Hw Hs. apply Ht.
      now apply (completion_occurs THINK_CLOSE [] w).
  - intros m w Hm Hw Hs. apply (Ha m Hm).
    now apply (completion_occurs m [] w).
Qed.



(** The events of scenario S2. *)
Example parse_tool_call :
  exists chars,
    parse (Some Transcript.trigger) Transcript.tool_call
    = chars
      ++ [ToolCall {| name := lit "get_weather";
                      arguments := [(lit "city", [dquote] ++ lit "SF" ++ [dquote])] |};
          End]
    /\ texts chars = lit "Checking.".
Proof.
  exists ((fun c => Text [c]) <$> lit "Checking."). vm_compute. split; reflexivity.
Qed.

(** The events of scenario S5. *)
Example parse_thinking :
  exists chars,
    parse None (lit "<thinking>weighing options</thinking>Answer: 4")
    = Thinking (lit "weighing options") :: chars ++ [End]
    /\ texts chars = lit "Answer: 4".
Proof.
  exists ((fun c => Text [c]) <$> lit "Answer: 4"). vm_compute. split; reflexivity.
Qed.

(** A missing [</invoke>] at the end of the stream gives one failure event,
    with the raw text since the trigger signal and the text before it. *)
Example parse_unclosed_invoke :
  parse (Some Transcript.trigger)
    (lit "a" ++ Transcript.trigger ++ lit "<invoke name=" ++ [dquote] ++ lit "f")
  = [Text (lit "a");
     ToolCallFailed
       (Transcript.trigger ++ lit "<invoke name=" ++ [dquote] ++ lit "f") (lit "a");
     End].
Proof. vm_compute. reflexivity. Qed.

End ParserText.

(** ** The loops bounded by fuel run to their end *)

Section Fuel.

Import Config.

Lemma chunks_concat fuel (s : str) :
  (length s <= fuel)%nat -> concat (chunks fuel s) = s.
Proof.
  revert s. induction fuel as [|fuel IH]; intros s Hs.
  - destruct s; [done|simpl in Hs; lia].
  - destruct s as [|a s]; [done|].
    change (concat (chunks (S fuel) (a :: s)))
      with (take 5 (a :: s) ++ concat (chunks fuel (drop 5 (a :: s)))).
    rewrite IH; [apply take_drop|].
    rewrite length_drop. simpl in *. lia.
Qed.

(** The chunks of [chunk5] put together are the string. *)
Lemma chunk5_concat (s : str) : concat (chunk5 s) = s.
Proof. now apply chunks_concat. Qed.

Lemma list_ascii_of_string_app (s t : string) :
  list_ascii_of_string (s +:+ t) = list_ascii_of_string s ++ list_ascii_of_string t.
Proof. induction s as [|a s IH]; simpl; [done|]. now rewrite <- IH. Qed.

Lemma string_app_inj_r (s1 s2 t : string) : s1 +:+ t = s2 +:+ t -> s1 = s2.
Proof.
  intros H. apply (f_equal list_ascii_of_string) in H.
  rewrite !list_ascii_of_string_app in H. apply app_inv_tail in H.
  rewrite <- (string_of_list_ascii_of_string s1), <- (string_of_list_ascii_of_string s2).
  now rewrite H.
Qed.

Lemma upstream_key_inj i j field :
  upstream_key i field = upstream_key j field -> i = j.
Proof.
  unfold upstream_key. intros H. apply String.app_inj in H.
  apply string_app_inj_r in H. now apply (inj pretty) in H.
Qed.

Lemma channel_key_inj i j field :
  channel_key i field = channel_key j field -> i = j.
Proof.
  unfold channel_key. intros H. apply String.app_inj in H.
  apply string_app_inj_r in H. now apply (inj pretty) in H.
Qed.

(** Distinct keys that are all set: there are at most as many as variables. *)
Lemma keys_bound (env : Env) (key : nat -> string) i n :
  (forall a b, key a = key b -> a = b) ->
  (forall k, (k < n)%nat -> is_Some (env !! key (i + k)%nat)) ->
  (n <= size env)%nat.
Proof.
  intros Hinj Hset.
  set (keys := key <$> seq i n).
  assert (Hnd : NoDup keys).
  { apply NoDup_fmap_2; [intros a b; apply Hinj|apply NoDup_seq]. }
  assert (Hsub : (list_to_set keys : gset string) ⊆ dom env).
  { intros x Hx. apply elem_of_list_to_set in Hx.
    apply list_elem_of_fmap in Hx as (k & -> & Hk).
    apply list_elem_of_In, in_seq in Hk. apply elem_of_dom.
    replace k with (i + (k - i))%nat by lia. apply Hset. lia. }
  apply subseteq_size in Hsub.
  rewrite size_list_to_set in Hsub by assumption.
  rewrite (size_dom env) in Hsub.
  subst keys. now rewrite length_fmap, length_seq in Hsub.
Qed.

Lemma loadUpstreamConfigs_set fuel i env k :
  (k < length (loadUpstreamConfigs_from fuel i env))%nat ->
  is_Some (env !! upstream_key (i + k) "_BASE_URL").
Proof.
  revert i k. induction fuel as [|fuel IH]; intros i k; simpl; [lia|].
  unfold env_get.
  destruct (env !! upstream_key i "_BASE_URL") as [[|b url]|] eqn:Hb; simpl; try lia.
  destruct (env !! upstream_key i "_REQUEST_MODEL") as [[|r rm]|]; simpl; try lia.
  destruct (env !! upstream_key i "_NAME_MODEL") as [[|n nm]|]; simpl; try lia.
  intros Hk. destruct k as [|k].
  - rewrite Nat.add_0_r, Hb. eauto.
  - replace (i + S k)%nat with (S i + k)%nat by lia. apply IH. lia.
Qed.

Lemma loadUpstreamConfigs_more fuel fuel' i env :
  (length (loadUpstreamConfigs_from fuel i env) < fuel)%nat ->
  (fuel <= fuel')%nat ->
  loadUpstreamConfigs_from fuel' i env = loadUpstreamConfigs_from fuel i env.
Proof.
  revert fuel' i. induction fuel as [|fuel IH]; intros fuel' i Hlen Hle; [lia|].
  destruct fuel' as [|fuel']; [lia|]. simpl in *.
  destruct (env_get env (upstream_key i "_BASE_URL")) as [[|b url]|]; try done.
  destruct (env_get env (upstream_key i "_REQUEST_MODEL")) as [[|r rm]|]; try done.
  destruct (env_get env (upstream_key i "_NAME_MODEL")) as [[|n nm]|]; try done.
  simpl in Hlen. f_equal. apply IH; lia.
Qed.

(** The loop of [loadUpstreamConfigs] stops at a gap in the numbering, not
    for lack of fuel: more fuel reads the same configurations. *)
Lemma loadUpstreamConfigs_fuel fuel env :
  (S (size env) <= fuel)%nat ->
  loadUpstreamConfigs_from fuel 1 env = loadUpstreamConfigs env.
Proof.
  intros Hle. unfold loadUpstreamConfigs. apply loadUpstreamConfigs_more; [|done].
  apply Nat.lt_succ_r.
  apply (keys_bound env (fun i => upstream_key i "_BASE_URL") 1).
  - intros a b. apply upstream_key_inj.
  - intros k Hk. now apply (loadUpstreamConfigs_set (S (size env))).
Qed.

Lemma loadChannelConfigs_set fuel i env k :
  (k < length (loadChannelConfigs_from fuel i env))%nat ->
  is_Some (env !! channel_key (i + k) "_NAME").
Proof.
  revert i k. induction fuel as [|fuel IH]; intros i k; simpl; [lia|].
  unfold env_get.
  destruct (env !! channel_key i "_NAME") as [[|n nm]|] eqn:Hn; simpl; try lia.
  destruct (env !! channel_key i "_BASE_URL") as [[|b url]|]; simpl; try lia.
  intros Hk. destruct k as [|k].
  - rewrite Nat.add_0_r, Hn. eauto.
  - replace (i + S k)%nat with (S i + k)%nat by lia. apply IH. lia.
Qed.

Lemma loadChannelConfigs_more fuel fuel' i env :
  (length (loadChannelConfigs_from fuel i env) < fuel)%nat ->
  (fuel <= fuel')%nat ->
  loadChannelConfigs_from fuel' i env = loadChannelConfigs_from fuel i env.
Proof.
  revert fuel' i. induction fuel as [|fuel IH]; intros fuel' i Hlen Hle; [lia|].
  destruct fuel' as [|fuel']; [lia|]. simpl in *.
  destruct (env_get env (channel_key i "_NAME")) as [[|n nm]|]; try done.
  destruct (env_get env (channel_key i "_BASE_URL")) as [[|b url]|]; try done.
  simpl in Hlen. f_equal. apply IH; lia.
Qed.

Lemma loadChannelConfigs_fuel fuel env :
  (S (size env) <= fuel)%nat ->
  loadChannelConfigs_from fuel 1 env = loadChannelConfigs env.
Proof.
  intros Hle. unfold loadChannelConfigs. apply loadChannelConfigs_more; [|done].
  apply Nat.lt_succ_r.
  apply (keys_bound env (fun i => channel_key i "_NAME") 1).
  - intros a b. apply channel_key_inj.
  - intros k Hk. now apply (loadChannelConfigs_set (S (size env))).
Qed.

End Fuel.

(** * Further properties of the writer *)

Lemma orderly_nil : orderly [].
Proof. intros [|? ?] ? ? H; discriminate H. Qed.

Lemma orderly_snoc fs f :
  orderly fs -> (needs_closed f -> open_blocks fs = []) -> orderly (fs ++ [f]).
Proof.
  intros Hfs Hf pre g post Heq Hg.
  destruct post as [|x post _] using rev_ind.
  - apply app_inj_tail in Heq as [-> ->]. now apply Hf.
  - rewrite app_comm_cons, app_assoc in Heq.
    apply app_inj_tail in Heq as [-> _]. now apply (Hfs pre g post).
Qed.

Lemma orderly_snoc_free fs f : ~ needs_closed f -> orderly fs -> orderly (fs ++ [f]).
Proof. intros Hf Hfs. apply orderly_snoc; [assumption|]. intros H. now destruct Hf. Qed.

Lemma orderly_app_free fs new :
  Forall (fun f => ~ needs_closed f) new -> orderly fs -> orderly (fs ++ new).
Proof.
  induction new as [|f new IH] using rev_ind; intros Hnew Hfs.
  - now rewrite app_nil_r.
  - apply Forall_app in Hnew as [Hnew Hf]. apply Forall_inv in Hf.
    rewrite app_assoc. apply orderly_snoc_free; auto.
Qed.

(** With every start sent between blocks, at most one block is open at any
    point of the sequence. *)
Lemma orderly_one_open fs :
  orderly fs -> forall pre post, fs = pre ++ post -> (length (open_blocks pre) <= 1)%nat.
Proof.
  intros Hfs pre. induction pre as [|f pre IH] using rev_ind; intros post Heq.
  - simpl. lia.
  - rewrite <- app_assoc in Heq. simpl in Heq.
    specialize (IH _ Heq). rewrite open_blocks_snoc.
    destruct f; simpl; try assumption.
    + rewrite (Hfs pre _ post Heq I). simpl. lia.
    + etransitivity; [apply length_filter|assumption].
Qed.

Lemma received_nil k : received k [] = [].
Proof. reflexivity. Qed.

Lemma received_app k fs gs : received k (fs ++ gs) = received k fs ++ received k gs.
Proof. unfold received. now rewrite fmap_app, concat_app. Qed.

Lemma received_snoc k fs f : received k (fs ++ [f]) = received k fs ++ carried k f.
Proof. rewrite received_app. unfold received. simpl. now rewrite app_nil_r. Qed.

Lemma handled_cons a acts :
  handled (a :: acts)
  = match a with ClaudeStream.HandleEvents events => events | _ => [] end ++ handled acts.
Proof. reflexivity. Qed.

Lemma handled_app acts1 acts2 : handled (acts1 ++ acts2) = handled acts1 ++ handled acts2.
Proof. unfold handled. now rewrite fmap_app, concat_app. Qed.

Lemma open_in_starts pre i : i ∈ open_blocks pre -> i ∈ start_indices pre.
Proof.
  induction pre as [|g pre IH] using rev_ind.
  - intros Ho. inversion Ho.
  - rewrite open_blocks_snoc, start_indices_snoc. intros Ho.
    apply elem_of_app. destruct g; simpl in *; auto.
    + apply elem_of_cons in Ho as [->|Ho]; [right; apply list_elem_of_here|auto].
    + apply list_elem_of_filter in Ho as [_ Ho]. auto.
Qed.

Lemma start_indices_app fs gs :
  start_indices (fs ++ gs) = start_indices fs ++ start_indices gs.
Proof. unfold start_indices. apply omap_app. Qed.

Lemma block_input_app fs gs i :
  block_input (fs ++ gs) i = block_input fs i ++ block_input gs i.
Proof. unfold block_input. now rewrite fmap_app, concat_app. Qed.

Lemma block_input_quiet new i : Forall quiet_frame new -> block_input new i = [].
Proof.
  induction 1 as [|f new [_ Hf] _ IH]; [reflexivity|].
  change (block_input (f :: new) i)
    with (match f with
          | ContentBlockDelta j (InputJsonDelta partial_json) =>
              if bool_decide (j = i) then partial_json else []
          | _ => []
          end ++ block_input new i).
  rewrite IH, app_nil_r. destruct f as [| | | j [] | | | |]; try reflexivity.
  simpl in Hf. rewrite Hf. now destruct (bool_decide _).
Qed.

Lemma block_input_other idx l i :
  i <> idx ->
  block_input (ContentBlockDelta idx <$> (InputJsonDelta <$> l)) i = [].
Proof.
  intros Hne. induction l as [|chunk l IH]; [reflexivity|].
  rewrite !fmap_cons.
  change (block_input (?x :: ?r) i)
    with (match x with
          | ContentBlockDelta j (InputJsonDelta partial_json) =>
              if bool_decide (j = i) then partial_json else []
          | _ => []
          end ++ block_input r i).
  rewrite IH, bool_decide_false by congruence. reflexivity.
Qed.

Lemma block_input_same idx l :
  block_input (ContentBlockDelta idx <$> (InputJsonDelta <$> l)) idx = concat l.
Proof.
  induction l as [|chunk l IH]; [reflexivity|].
  rewrite !fmap_cons.
  change (block_input (?x :: ?r) idx)
    with (match x with
          | ContentBlockDelta j (InputJsonDelta partial_json) =>
              if bool_decide (j = idx) then partial_json else []
          | _ => []
          end ++ block_input r idx).
  rewrite IH, bool_decide_true by reflexivity. reflexivity.
Qed.

(** No frame of [fs] refers to the block [idx]. *)
Lemma block_input_unused fs idx :
  (forall f i, f ∈ fs -> use_index f = Some i -> i < idx) ->
  block_input fs idx = [].
Proof.
  induction fs as [|f fs IH]; intros H; [reflexivity|].
  change (block_input (f :: fs) idx)
    with (match f with
          | ContentBlockDelta j (InputJsonDelta partial_json) =>
              if bool_decide (j = idx) then partial_json else []
          | _ => []
          end ++ block_input fs idx).
  rewrite IH by (intros g i Hg; apply H; now apply list_elem_of_further).
  rewrite app_nil_r. destruct f as [| | | j [] | | | |]; try reflexivity.
  rewrite bool_decide_false; [reflexivity|].
  intros ->. specialize (H _ idx (list_elem_of_here _ _) eq_refl). lia.
Qed.

Lemma tool_uses_in_app all fs gs :
  tool_uses_in all (fs ++ gs) = tool_uses_in all fs ++ tool_uses_in all gs.
Proof. unfold tool_uses_in. apply omap_app. Qed.

Lemma tool_uses_in_ext all all' fs :
  (forall i, i ∈ start_indices fs -> block_input all i = block_input all' i) ->
  tool_uses_in all fs = tool_uses_in all' fs.
Proof.
  induction fs as [|f fs IH]; intros H; [reflexivity|].
  change (f :: fs) with ([f] ++ fs) in *. rewrite !tool_uses_in_app.
  rewrite IH.
  - f_equal. destruct f as [| | i [| |id tool] | | | | |]; try reflexivity.
    unfold tool_uses_in. simpl. rewrite (H i); [reflexivity|].
    rewrite start_indices_app. apply elem_of_app. left. apply list_elem_of_here.
  - intros i Hi. apply H. rewrite start_indices_app. apply elem_of_app. now right.
Qed.

Lemma tool_uses_in_no_start all new :
  Forall (fun f => ~ is_tool_use_start f) new -> tool_uses_in all new = [].
Proof.
  induction 1 as [|f new Hf _ IH]; [reflexivity|].
  change (f :: new) with ([f] ++ new). rewrite tool_uses_in_app, IH, app_nil_r.
  destruct f as [| | i [| |id tool] | | | | |]; try reflexivity.
  destruct Hf. exact I.
Qed.

(** Quiet frames leave the tool_use blocks of a sequence as they are. *)
Lemma tool_uses_quiet fs new :
  Forall quiet_frame new -> tool_uses (fs ++ new) = tool_uses fs.
Proof.
  intros Hnew. unfold tool_uses.
  rewrite tool_uses_in_app, (tool_uses_in_no_start _ new), app_nil_r.
  - apply tool_uses_in_ext. intros i _.
    now rewrite block_input_app, (block_input_quiet new i Hnew), app_nil_r.
  - eapply Forall_impl; [exact Hnew|]. now intros f [Hf _].
Qed.

(** The frames of one tool call add one tool_use block, with the pieces of
    its input put together. *)
Lemma tool_uses_call fs idx id tool l :
  (forall f i, f ∈ fs -> use_index f = Some i -> i < idx) ->
  (forall i, i ∈ start_indices fs -> i < idx) ->
  tool_uses (fs ++ [ContentBlockStart idx (ToolUseBlock id tool)]
               ++ (ContentBlockDelta idx <$> (InputJsonDelta <$> l))
               ++ [ContentBlockStop idx])
  = tool_uses fs ++ [(tool, concat l)].
Proof.
  intros Huse Hstart. unfold tool_uses.
  set (ds := ContentBlockDelta idx <$> (InputJsonDelta <$> l)).
  rewrite !tool_uses_in_app.
  set (all := fs ++ _).
  assert (Hall : forall i, block_input all i
                           = block_input fs i ++ block_input ds i).
  { intros i. subst all. rewrite !block_input_app.
    unfold block_input at 2 4. simpl. now rewrite app_nil_r. }
  f_equal.
  - apply tool_uses_in_ext. intros i Hi. rewrite Hall.
    subst ds. rewrite block_input_other, app_nil_r; [reflexivity|].
    specialize (Hstart i Hi). lia.
  - rewrite (tool_uses_in_no_start all ds).
    + unfold tool_uses_in. simpl. rewrite Hall, (block_input_unused fs idx Huse).
      subst ds. now rewrite block_input_same.
    + subst ds. apply Forall_fmap, Forall_fmap, Forall_true. intros ch H. exact H.
Qed.

Section WriterDelivery.

Import ClaudeStream.

Variable countTokensWithTiktoken : str -> Z.
Variable JSON_stringify : list (str * str) -> str.
Variable generateToolId : nat -> str.
Variable adjustedOutputTokens : Z -> Z.

Local Abbreviation flushText := (flushText countTokensWithTiktoken).
Local Abbreviation emitThinking := (emitThinking countTokensWithTiktoken).
Local Abbreviation emitToolCall :=
  (emitToolCall countTokensWithTiktoken JSON_stringify generateToolId).
Local Abbreviation aggregator_flushAsync := (aggregator_flushAsync countTokensWithTiktoken).
Local Abbreviation finish := (finish countTokensWithTiktoken adjustedOutputTokens).
Local Abbreviation handleEvent :=
  (handleEvent countTokensWithTiktoken JSON_stringify generateToolId
     adjustedOutputTokens).
Local Abbreviation handleEvents :=
  (handleEvents countTokensWithTiktoken JSON_stringify generateToolId
     adjustedOutputTokens).
Local Abbreviation act :=
  (act countTokensWithTiktoken JSON_stringify generateToolId adjustedOutputTokens).
Local Abbreviation run :=
  (run countTokensWithTiktoken JSON_stringify generateToolId adjustedOutputTokens).

(** *** Blocks do not overlap *)

Lemma closed_no_open c :
  stream_inv c -> textBlockOpen c = false -> thinkingBlockOpen c = false ->
  open_blocks (sent c) = [].
Proof. intros Hc Ht Hth. rewrite (inv_open c Hc), Ht, Hth. reflexivity. Qed.

Lemma ord_ensureTextBlock c :
  thinkingBlockOpen c = false -> stream_inv c ->
  orderly (sent c) -> orderly (sent (ensureTextBlock c)).
Proof.
  intros Hth Hc Ho. unfold ensureTextBlock.
  destruct (textBlockOpen c) eqn:Ht; [assumption|]. simpl.
  apply orderly_snoc; [assumption|]. intros _. now apply closed_no_open.
Qed.

Lemma ord_endTextBlock c : orderly (sent c) -> orderly (sent (endTextBlock c)).
Proof.
  intros Ho. unfold endTextBlock. destruct (textBlockOpen c); simpl; [|assumption].
  apply orderly_snoc_free; [intros H; exact H|assumption].
Qed.

Lemma ord_ensureThinkingBlock c :
  textBlockOpen c = false -> stream_inv c ->
  orderly (sent c) -> orderly (sent (ensureThinkingBlock c)).
Proof.
  intros Ht Hc Ho. unfold ensureThinkingBlock.
  destruct (thinkingBlockOpen c) eqn:Hth; [assumption|]. simpl.
  apply orderly_snoc; [assumption|]. intros _. now apply closed_no_open.
Qed.

Lemma ord_endThinkingBlock c :
  orderly (sent c) -> orderly (sent (endThinkingBlock c)).
Proof.
  intros Ho. unfold endThinkingBlock. destruct (thinkingBlockOpen c); simpl; [|assumption].
  apply orderly_snoc_free; [intros H; exact H|].
  apply orderly_snoc_free; [intros H; exact H|assumption].
Qed.

Lemma ord_flushText text c :
  (text <> [] -> thinkingBlockOpen c = false) -> stream_inv c ->
  orderly (sent c) -> orderly (sent (flushText text c)).
Proof.
  intros Hth Hc Ho. unfold flushText. destruct text as [|a text]; simpl; [assumption|].
  apply orderly_snoc_free; [intros H; exact H|].
  apply ord_ensureTextBlock; [apply Hth; discriminate|assumption|assumption].
Qed.

Lemma ord_flushAsync c :
  stream_inv c -> orderly (sent c) -> orderly (sent (aggregator_flushAsync c)).
Proof.
  intros Hc Ho. unfold aggregator_flushAsync. apply ord_flushText.
  - simpl. intros Hne. destruct (thinkingBlockOpen c) eqn:Hth; [|done].
    now pose proof (inv_pending c Hc Hth).
  - now apply inv_set_pending.
  - exact Ho.
Qed.

Lemma ord_thinking_chunks l c :
  orderly (sent c) -> orderly (sent (fold_left send_thinking_chunk l c)).
Proof.
  revert c. induction l as [|chunk l IH]; intros c Ho; simpl; [assumption|].
  apply IH. simpl. apply orderly_snoc_free; [intros H; exact H|assumption].
Qed.

Lemma ord_emitThinking content c :
  textBlockOpen c = false -> stream_inv c ->
  orderly (sent c) -> orderly (sent (emitThinking content c)).
Proof.
  intros Ht Hc Ho. unfold emitThinking. destruct (falsy content); [assumption|].
  apply ord_thinking_chunks. simpl. now apply ord_ensureThinkingBlock.
Qed.

Lemma ord_emitToolCall call c :
  thinkingBlockOpen c = false -> stream_inv c ->
  orderly (sent c) -> orderly (sent (emitToolCall call c)).
Proof.
  intros Hth Hc Ho. unfold emitToolCall.
  destruct (inv_endTextBlock c Hc) as (Hc1 & Ht1 & Hth1 & _).
  rewrite Hth in Hth1. pose proof (ord_endTextBlock c Ho) as Ho1.
  set (c1 := endTextBlock c) in *. set (index := nextBlockIndex c1).
  set (c3 := add_tokens _ _).
  destruct (json_chunks_sent index (chunk5 (JSON_stringify (arguments call))) c3)
    as (c4 & <- & Hs & _).
  simpl. rewrite Hs. simpl.
  apply orderly_snoc_free; [intros H; exact H|].
  apply orderly_app_free.
  { apply Forall_fmap, Forall_fmap, Forall_true. intros ch H. exact H. }
  apply orderly_snoc; [assumption|]. intros _. now apply closed_no_open.
Qed.

Lemma ord_finish c :
  stream_inv c -> orderly (sent c) -> orderly (sent (finish c)).
Proof.
  intros Hc Ho. unfold finish. destruct (finished c); [assumption|].
  destruct (inv_flushAsync countTokensWithTiktoken (set_finished true c)) as (H1 & _ & _).
  { now apply inv_set_finished. }
  pose proof (ord_flushAsync (set_finished true c)
                (inv_set_finished true c Hc) Ho) as O1.
  destruct (inv_endTextBlock _ H1) as (H2 & Ht2 & _).
  pose proof (ord_endTextBlock _ O1) as O2.
  destruct (inv_endThinkingBlock _ H2) as (H3 & Hth3 & Ht3 & _).
  pose proof (ord_endThinkingBlock _ O2) as O3.
  simpl. apply orderly_snoc_free; [intros H; exact H|].
  apply orderly_snoc; [assumption|]. intros _.
  apply closed_no_open; [assumption|congruence|assumption].
Qed.

Lemma ord_handleEvent c event :
  stream_inv c -> orderly (sent c) -> orderly (sent (handleEvent c event)).
Proof.
  intros Hc Ho. destruct event as [content|content|call|content prior|]; simpl.
  - destruct (thinkingBlockOpen c); [now apply ord_endThinkingBlock|assumption].
  - destruct (inv_flushAsync countTokensWithTiktoken c Hc) as (H1 & _ & _).
    pose proof (ord_flushAsync c Hc Ho) as O1.
    destruct (inv_endTextBlock _ H1) as (H2 & Ht2 & _).
    apply ord_emitThinking; [assumption|assumption|]. now apply ord_endTextBlock.
  - destruct (inv_flushAsync countTokensWithTiktoken c Hc) as (H1 & _ & _).
    pose proof (ord_flushAsync c Hc Ho) as O1.
    destruct (inv_endTextBlock _ H1) as (H2 & _).
    destruct (inv_endThinkingBlock _ H2) as (H3 & Hth3 & _).
    apply ord_emitToolCall; [assumption|assumption|].
    now apply ord_endThinkingBlock, ord_endTextBlock.
  - assumption.
  - now apply ord_finish.
Qed.

Lemma ord_handleEvents events c :
  stream_inv c -> orderly (sent c) -> orderly (sent (handleEvents events c)).
Proof.
  revert c. induction events as [|e events IH]; intros c Hc Ho; simpl; [assumption|].
  apply IH; [now apply inv_handleEvent|now apply ord_handleEvent].
Qed.

Lemma ord_act c a : stream_inv c -> orderly (sent c) -> orderly (sent (act c a)).
Proof.
  intros Hc Ho. destruct a; simpl.
  - apply orderly_snoc_free; [intros H; exact H|].
    apply orderly_snoc_free; [intros H; exact H|assumption].
  - now apply ord_handleEvents.
  - now apply ord_flushAsync.
  - apply orderly_snoc_free; [intros H; exact H|assumption].
  - apply orderly_snoc_free; [intros H; exact H|assumption].
Qed.

Lemma ord_run acts c :
  stream_inv c -> orderly (sent c) -> orderly (sent (run acts c)).
Proof.
  revert c. induction acts as [|a acts IH]; intros c Hc Ho; simpl; [assumption|].
  apply IH; [now apply inv_act|now apply ord_act].
Qed.

(** In the frames of a stream every [content_block_start] is sent while no
    block is open, so that at every point of the sequence at most one block
    is open: blocks follow one another and never overlap. *)
Theorem blocks_never_overlap rid input acts :
  let fs := sent (run acts (new rid input)) in
  (forall pre i b post,
      fs = pre ++ ContentBlockStart i b :: post -> open_blocks pre = [])
  /\ (forall pre post, fs = pre ++ post -> (length (open_blocks pre) <= 1)%nat).
Proof.
  intros fs.
  assert (Ho : orderly fs).
  { apply ord_run; [apply inv_new|apply orderly_nil]. }
  split.
  - intros pre i b post Heq. now apply (Ho pre _ post Heq).
  - now apply orderly_one_open.
Qed.

(** The [message_delta] that ends a message is sent after every block has
    been closed: no block is open when it is sent, and every block started
    before it has its [content_block_stop] before it. *)
Theorem message_delta_after_blocks_closed rid input acts :
  let fs := sent (run acts (new rid input)) in
  forall pre sr n post,
    fs = pre ++ MessageDelta sr n :: post ->
    open_blocks pre = []
    /\ forall i, i ∈ start_indices pre -> ContentBlockStop i ∈ pre.
Proof.
  intros fs pre sr n post Heq.
  assert (Ho : orderly fs).
  { apply ord_run; [apply inv_new|apply orderly_nil]. }
  assert (Hop : open_blocks pre = []) by now apply (Ho pre _ post Heq).
  split; [assumption|]. clear - Hop.
  assert (H : forall i, i ∈ start_indices pre ->
                        i ∈ open_blocks pre \/ ContentBlockStop i ∈ pre).
  { clear Hop. induction pre as [|f pre IH] using rev_ind; intros i Hi.
    - inversion Hi.
    - rewrite start_indices_snoc in Hi. rewrite open_blocks_snoc.
      apply elem_of_app in Hi as [Hi|Hi].
      + destruct (IH i Hi) as [Hin|Hin].
        * destruct f; simpl; try (left; assumption).
          -- left. now apply list_elem_of_further.
          -- destruct (decide (i = index)) as [->|Hne].
             ++ right. apply elem_of_app. right. apply list_elem_of_here.
             ++ left. apply list_elem_of_filter. split; [assumption|assumption].
        * right. apply elem_of_app. now left.
      + destruct f; simpl in Hi; try (inversion Hi; fail).
        apply list_elem_of_singleton in Hi as ->. left. simpl. apply list_elem_of_here. }
  intros i Hi. destruct (H i Hi) as [Hin|Hin]; [|assumption].
  rewrite Hop in Hin. inversion Hin.
Qed.

(** *** Nothing is lost between the parser and the client *)

Lemma dl_endTextBlock k c :
  received k (sent (endTextBlock c)) = received k (sent c)
  /\ pending (endTextBlock c) = pending c.
Proof.
  unfold endTextBlock. destruct (textBlockOpen c); simpl; [|done].
  rewrite received_snoc. destruct k; simpl; now rewrite app_nil_r.
Qed.

Lemma dl_endThinkingBlock k c :
  received k (sent (endThinkingBlock c)) = received k (sent c)
  /\ pending (endThinkingBlock c) = pending c.
Proof.
  unfold endThinkingBlock. destruct (thinkingBlockOpen c); simpl; [|done].
  rewrite !received_snoc. destruct k; simpl; now rewrite !app_nil_r.
Qed.

Lemma dl_ensureTextBlock k c :
  received k (sent (ensureTextBlock c)) = received k (sent c)
  /\ pending (ensureTextBlock c) = pending c.
Proof.
  unfold ensureTextBlock. destruct (textBlockOpen c); simpl; [done|].
  rewrite received_snoc. destruct k; simpl; now rewrite app_nil_r.
Qed.

Lemma dl_ensureThinkingBlock k c :
  received k (sent (ensureThinkingBlock c)) = received k (sent c)
  /\ pending (ensureThinkingBlock c) = pending c.
Proof.
  unfold ensureThinkingBlock. destruct (thinkingBlockOpen c); simpl; [done|].
  rewrite received_snoc. destruct k; simpl; now rewrite app_nil_r.
Qed.

Lemma dl_flushText k text c :
  received k (sent (flushText text c))
  = received k (sent c) ++ match k with TextChannel => text | _ => [] end
  /\ pending (flushText text c) = pending c.
Proof.
  unfold flushText. destruct text as [|a text]; simpl.
  - destruct k; now rewrite app_nil_r.
  - destruct (dl_ensureTextBlock k c) as [H1 H2].
    rewrite received_snoc, H1, H2. now destruct k.
Qed.

Lemma dl_flushAsync k c :
  received k (sent (aggregator_flushAsync c)) ++ held_back k (aggregator_flushAsync c)
  = received k (sent c) ++ held_back k c.
Proof.
  unfold aggregator_flushAsync.
  destruct (dl_flushText k (pending c) (set_pending [] c)) as [H1 H2].
  simpl in H1, H2. rewrite H1. destruct k; simpl; rewrite ?H2, ?app_nil_r; reflexivity.
Qed.

Lemma flushAsync_pending c : pending (aggregator_flushAsync c) = [].
Proof.
  unfold aggregator_flushAsync.
  now destruct (dl_flushText TextChannel (pending c) (set_pending [] c)) as [_ ->].
Qed.

Lemma dl_thinking_chunks k l c :
  received k (sent (fold_left send_thinking_chunk l c))
  = received k (sent c) ++ match k with ThinkingChannel => concat l | _ => [] end
  /\ pending (fold_left send_thinking_chunk l c) = pending c.
Proof.
  revert c. induction l as [|chunk l IH]; intros c; simpl.
  - destruct k; now rewrite app_nil_r.
  - destruct (IH (send_thinking_chunk c chunk)) as [H1 H2]. rewrite H1, H2. simpl.
    rewrite received_snoc. split; [|done].
    destruct k; simpl; rewrite <- ?app_assoc; reflexivity.
Qed.

Lemma dl_emitThinking k content c :
  received k (sent (emitThinking content c))
  = received k (sent c) ++ match k with ThinkingChannel => content | _ => [] end
  /\ pending (emitThinking content c) = pending c.
Proof.
  unfold emitThinking. destruct content as [|a content]; cbv [falsy].
  - destruct k; now rewrite app_nil_r.
  - destruct (dl_thinking_chunks k (chunk5 (a :: content))
                (add_tokens (countTokensWithTiktoken (a :: content))
                   (ensureThinkingBlock c))) as [H1 H2].
    destruct (dl_ensureThinkingBlock k c) as [H3 H4].
    rewrite H1, H2, chunk5_concat. simpl. rewrite H3, H4. done.
Qed.

Lemma received_json_deltas k index l :
  received k (ContentBlockDelta index <$> (InputJsonDelta <$> l))
  = match k with ToolInputChannel => concat l | _ => [] end.
Proof.
  induction l as [|chunk l IH]; [now destruct k|].
  rewrite !fmap_cons.
  change (received k (?x :: ?r)) with (carried k x ++ received k r).
  rewrite IH. now destruct k.
Qed.

(** The frames of a tool call: the open text block is closed, then come the
    start of a tool_use block with the next index, its input in pieces and
    its stop. *)
Lemma emitToolCall_frames call c :
  let c1 := endTextBlock c in
  let index := nextBlockIndex c1 in
  sent (emitToolCall call c)
  = sent c1
    ++ [ContentBlockStart index (ToolUseBlock (generateToolId (drawn c1)) (name call))]
    ++ (ContentBlockDelta index <$>
          (InputJsonDelta <$> chunk5 (JSON_stringify (arguments call))))
    ++ [ContentBlockStop index]
  /\ pending (emitToolCall call c) = pending c
  /\ nextBlockIndex (emitToolCall call c) = index + 1.
Proof.
  intros c1 index. unfold emitToolCall. fold c1. fold index.
  set (c3 := add_tokens _ _).
  destruct (json_chunks_sent index (chunk5 (JSON_stringify (arguments call))) c3)
    as (c4 & <- & Hs & Hn & _ & _ & Hp & _).
  simpl. rewrite Hs, Hn, Hp. simpl. rewrite <- !app_assoc.
  split; [reflexivity|]. split; [|reflexivity].
  subst c1. now destruct (dl_endTextBlock TextChannel c) as [_ ->].
Qed.

Lemma dl_emitToolCall k call c :
  received k (sent (emitToolCall call c))
  = received k (sent c)
    ++ match k with ToolInputChannel => JSON_stringify (arguments call) | _ => [] end
  /\ pending (emitToolCall call c) = pending c.
Proof.
  destruct (emitToolCall_frames call c) as (Hs & Hp & _).
  rewrite Hs, Hp. split; [|done].
  rewrite !received_app, received_json_deltas, chunk5_concat.
  destruct (dl_endTextBlock k c) as [-> _].
  unfold received at 2 3. simpl. destruct k; simpl; now rewrite ?app_nil_r.
Qed.

Lemma dl_finish k c :
  received k (sent (finish c)) ++ held_back k (finish c)
  = received k (sent c) ++ held_back k c.
Proof.
  unfold finish. destruct (finished c); [done|].
  assert (E0 : received k (sent (set_finished true c)) ++ held_back k (set_finished true c)
               = received k (sent c) ++ held_back k c) by (destruct k; reflexivity).
  rewrite <- E0, <- (dl_flushAsync k (set_finished true c)).
  set (c1 := aggregator_flushAsync (set_finished true c)).
  destruct (dl_endTextBlock k c1) as [H2 P2].
  destruct (dl_endThinkingBlock k (endTextBlock c1)) as [H3 P3].
  set (c3 := endThinkingBlock (endTextBlock c1)) in *.
  assert (E3 : received k (sent c3) = received k (sent c1)) by congruence.
  assert (P : pending c3 = pending c1) by congruence.
  simpl. rewrite !received_snoc, E3.
  destruct k; simpl; rewrite ?P, ?app_nil_r; reflexivity.
Qed.

Lemma dl_handleEvent k c event :
  received k (sent (handleEvent c event)) ++ held_back k (handleEvent c event)
  = received k (sent c) ++ held_back k c ++ produced JSON_stringify k event.
Proof.
  destruct event as [content|content|call|content prior|];
    unfold ClaudeStream.handleEvent; cbn [produced].
  - destruct (thinkingBlockOpen c).
    + destruct (dl_endThinkingBlock k c) as [H1 H2].
      unfold aggregator_add. simpl. rewrite H1.
      destruct k; simpl; rewrite ?H2, ?app_nil_r; reflexivity.
    + unfold aggregator_add. destruct k; simpl; rewrite ?app_nil_r; reflexivity.
  - set (c1 := aggregator_flushAsync c).
    pose proof (dl_flushAsync k c) as H1. fold c1 in H1.
    pose proof (flushAsync_pending c) as P1. fold c1 in P1.
    destruct (dl_endTextBlock k c1) as [H2 P2].
    destruct (dl_emitThinking k content (endTextBlock c1)) as [H3 P3].
    rewrite H3, H2. rewrite app_assoc, <- H1.
    assert (Hh : held_back k (emitThinking content (endTextBlock c1)) = held_back k c1)
      by (destruct k; unfold held_back; congruence).
    rewrite Hh. destruct k; cbn [held_back]; rewrite ?P1, ?app_nil_r; reflexivity.
  - set (c1 := aggregator_flushAsync c).
    pose proof (dl_flushAsync k c) as H1. fold c1 in H1.
    pose proof (flushAsync_pending c) as P1. fold c1 in P1.
    destruct (dl_endTextBlock k c1) as [H2 P2].
    destruct (dl_endThinkingBlock k (endTextBlock c1)) as [H3 P3].
    destruct (dl_emitToolCall k call (endThinkingBlock (endTextBlock c1))) as [H4 P4].
    rewrite H4, H3, H2. rewrite app_assoc, <- H1.
    assert (Hh : held_back k (emitToolCall call (endThinkingBlock (endTextBlock c1)))
                 = held_back k c1)
      by (destruct k; unfold held_back; congruence).
    rewrite Hh. destruct k; cbn [held_back]; rewrite ?P1, ?app_nil_r; reflexivity.
  - destruct k; now rewrite !app_nil_r.
  - replace (produced JSON_stringify k End) with (@nil ascii) by now destruct k.
    rewrite app_nil_r. apply dl_finish.
Qed.

Lemma dl_handleEvents k events c :
  received k (sent (handleEvents events c)) ++ held_back k (handleEvents events c)
  = received k (sent c) ++ held_back k c
    ++ concat (produced JSON_stringify k <$> events).
Proof.
  revert c. induction events as [|e events IH]; intros c.
  - simpl. now rewrite app_nil_r.
  - change (handleEvents (e :: events) c) with (handleEvents events (handleEvent c e)).
    rewrite IH, app_assoc, dl_handleEvent, fmap_cons, concat_cons.
    now rewrite <- !app_assoc.
Qed.

Lemma dl_act k c a :
  received k (sent (act c a)) ++ held_back k (act c a)
  = received k (sent c) ++ held_back k c
    ++ concat (produced JSON_stringify k <$>
                 match a with HandleEvents events => events | _ => [] end).
Proof.
  destruct a; simpl; rewrite ?app_nil_r.
  - rewrite !received_snoc. destruct k; simpl; now rewrite !app_nil_r.
  - apply dl_handleEvents.
  - apply dl_flushAsync.
  - rewrite received_snoc. destruct k; simpl; now rewrite !app_nil_r.
  - rewrite received_snoc. destruct k; simpl; now rewrite !app_nil_r.
Qed.

Lemma dl_run k acts c :
  received k (sent (run acts c)) ++ held_back k (run acts c)
  = received k (sent c) ++ held_back k c
    ++ concat (produced JSON_stringify k <$> handled acts).
Proof.
  revert c. induction acts as [|a acts IH]; intros c.
  - simpl. now rewrite app_nil_r.
  - change (run (a :: acts) c) with (run acts (act c a)).
    rewrite IH, app_assoc, dl_act, handled_cons, fmap_app, concat_app.
    now rewrite <- !app_assoc.
Qed.

(** The text a client has received in [text_delta] frames, followed by what
    the aggregator still holds, is the text of the [Text] events handled so
    far, in their order: the writer neither drops, repeats nor reorders
    text.  When the stream is finished by its first [End] event nothing is
    held any more, so all of it has been sent. *)
Theorem text_is_delivered rid input acts :
  let c := run acts (new rid input) in
  received TextChannel (sent c) ++ pending c
  = concat (produced JSON_stringify TextChannel <$> handled acts)
  /\ (finished c = false ->
      pending (handleEvents [End] c) = []
      /\ received TextChannel (sent (handleEvents [End] c))
         = concat (produced JSON_stringify TextChannel <$> handled acts)).
Proof.
  intros c. pose proof (dl_run TextChannel acts (new rid input)) as H.
  fold c in H. simpl in H. split; [exact H|].
  intros Hf.
  assert (Hp : pending (handleEvents [End] c) = []).
  { simpl. unfold finish. rewrite Hf.
    destruct (dl_endThinkingBlock TextChannel
                (endTextBlock (aggregator_flushAsync (set_finished true c)))) as [_ P3].
    destruct (dl_endTextBlock TextChannel
                (aggregator_flushAsync (set_finished true c))) as [_ P2].
    simpl. rewrite P3, P2. apply flushAsync_pending. }
  split; [exact Hp|].
  pose proof (dl_handleEvents TextChannel [End] c) as HE.
  simpl in HE. rewrite !app_nil_r in HE. simpl in Hp. rewrite Hp, app_nil_r in HE.
  simpl. rewrite HE. exact H.
Qed.

(** The thinking a client has received in [thinking_delta] frames is the
    content of the [Thinking] events handled so far, in their order: cutting
    the content into pieces of five code units loses nothing. *)
Theorem thinking_is_delivered rid input acts :
  received ThinkingChannel (sent (run acts (new rid input)))
  = concat (produced JSON_stringify ThinkingChannel <$> handled acts).
Proof.
  pose proof (dl_run ThinkingChannel acts (new rid input)) as H.
  simpl in H. now rewrite app_nil_r in H.
Qed.

(** *** Tool calls arrive whole *)

Lemma below_next c :
  stream_inv c ->
  (forall f i, f ∈ sent c -> use_index f = Some i -> i < nextBlockIndex c)
  /\ (forall i, i ∈ start_indices (sent c) -> i < nextBlockIndex c).
Proof.
  intros Hc.
  assert (Hs : forall i, i ∈ start_indices (sent c) -> i < nextBlockIndex c).
  { intros i Hi. rewrite (inv_starts c Hc) in Hi.
    apply list_elem_of_fmap in Hi as (k & -> & Hk).
    apply list_elem_of_In, in_seq in Hk. pose proof (inv_next c Hc). lia. }
  split; [|exact Hs].
  intros f i Hf Hi. apply list_elem_of_split in Hf as (pre & post & Heq).
  apply Hs. rewrite Heq, start_indices_app. apply elem_of_app. left.
  apply open_in_starts. exact (inv_uses c Hc pre f post i Heq Hi).
Qed.

Lemma quiet_refl c : quiet c c.
Proof. exists []. now rewrite app_nil_r. Qed.

Lemma quiet_trans c1 c2 c3 : quiet c1 c2 -> quiet c2 c3 -> quiet c1 c3.
Proof.
  intros (n1 & E1 & F1) (n2 & E2 & F2). exists (n1 ++ n2).
  rewrite E2, E1, app_assoc. split; [done|]. now apply Forall_app.
Qed.

Lemma quiet_send c0 c f : quiet_frame f -> quiet c0 c -> quiet c0 (send f c).
Proof.
  intros Hf (n & E & F). exists (n ++ [f]). simpl. rewrite E, app_assoc.
  split; [done|]. apply Forall_app. split; [done|]. now constructor.
Qed.

Ltac quiet_frame_tac :=
  match goal with
  | |- quiet_frame _ =>
      split; [let Hq := fresh in intros Hq; exact Hq|reflexivity]
  end.

Lemma quiet_endTextBlock c0 c : quiet c0 c -> quiet c0 (endTextBlock c).
Proof.
  intros H. unfold endTextBlock. destruct (textBlockOpen c); simpl; [|assumption].
  apply quiet_send; [quiet_frame_tac|exact H].
Qed.

Lemma quiet_ensureTextBlock c0 c : quiet c0 c -> quiet c0 (ensureTextBlock c).
Proof.
  intros H. unfold ensureTextBlock. destruct (textBlockOpen c); [assumption|].
  apply quiet_send; [quiet_frame_tac|exact H].
Qed.

Lemma quiet_endThinkingBlock c0 c : quiet c0 c -> quiet c0 (endThinkingBlock c).
Proof.
  intros H. unfold endThinkingBlock. destruct (thinkingBlockOpen c); simpl; [|assumption].
  apply quiet_send; [quiet_frame_tac|]. apply quiet_send; [quiet_frame_tac|exact H].
Qed.

Lemma quiet_ensureThinkingBlock c0 c : quiet c0 c -> quiet c0 (ensureThinkingBlock c).
Proof.
  intros H. unfold ensureThinkingBlock. destruct (thinkingBlockOpen c); [assumption|].
  apply quiet_send; [quiet_frame_tac|exact H].
Qed.

Lemma quiet_flushText text c0 c : quiet c0 c -> quiet c0 (flushText text c).
Proof.
  intros H. unfold flushText. destruct (falsy text); [assumption|].
  apply quiet_send; [quiet_frame_tac|]. now apply (quiet_ensureTextBlock c0 c).
Qed.

Lemma quiet_flushAsync c0 c : quiet c0 c -> quiet c0 (aggregator_flushAsync c).
Proof.
  intros H. unfold aggregator_flushAsync.
  now apply (quiet_flushText (pending c) c0 (set_pending [] c)).
Qed.

Lemma quiet_thinking_chunks l c0 c :
  quiet c0 c -> quiet c0 (fold_left send_thinking_chunk l c).
Proof.
  revert c. induction l as [|chunk l IH]; intros c H; simpl; [assumption|].
  apply IH. unfold send_thinking_chunk. apply quiet_send; [quiet_frame_tac|exact H].
Qed.

Lemma quiet_emitThinking content c0 c : quiet c0 c -> quiet c0 (emitThinking content c).
Proof.
  intros H. unfold emitThinking. destruct (falsy content); [assumption|].
  apply quiet_thinking_chunks. now apply (quiet_ensureThinkingBlock c0 c).
Qed.

Lemma quiet_finish c0 c : quiet c0 c -> quiet c0 (finish c).
Proof.
  intros H. unfold finish. destruct (finished c); [assumption|].
  apply quiet_send; [quiet_frame_tac|]. apply quiet_send; [quiet_frame_tac|].
  apply quiet_endThinkingBlock, quiet_endTextBlock.
  now apply (quiet_flushAsync c0 (set_finished true c)).
Qed.

Lemma tu_quiet c c' : quiet c c' -> tool_uses (sent c') = tool_uses (sent c).
Proof. intros (new & -> & Hnew). now apply tool_uses_quiet. Qed.

Lemma tu_handleEvent c event :
  stream_inv c ->
  tool_uses (sent (handleEvent c event))
  = tool_uses (sent c) ++ tool_calls JSON_stringify [event].
Proof.
  intros Hc.
  destruct event as [content|content|call|content prior|];
    unfold ClaudeStream.handleEvent; cbn [tool_calls omap]; rewrite ?app_nil_r.
  - apply tu_quiet. unfold aggregator_add.
    destruct (thinkingBlockOpen c).
    + exact (quiet_endThinkingBlock c c (quiet_refl c)).
    + exact (quiet_refl c).
  - apply tu_quiet.
    apply quiet_emitThinking, quiet_endTextBlock, quiet_flushAsync, quiet_refl.
  - destruct (inv_flushAsync countTokensWithTiktoken c Hc) as (H1 & _ & _).
    destruct (inv_endTextBlock _ H1) as (H2 & _).
    destruct (inv_endThinkingBlock _ H2) as (H3 & _).
    assert (Q3 : quiet c (endThinkingBlock (endTextBlock (aggregator_flushAsync c)))).
    { apply quiet_endThinkingBlock, quiet_endTextBlock, quiet_flushAsync, quiet_refl. }
    set (c3 := endThinkingBlock _) in *.
    destruct (emitToolCall_frames call c3) as (Hs & _ & _).
    destruct (inv_endTextBlock _ H3) as (H4 & _).
    pose proof (quiet_endTextBlock c c3 Q3) as Q4.
    destruct (below_next _ H4) as [Huse Hstart].
    rewrite Hs, tool_uses_call, chunk5_concat by assumption.
    now rewrite (tu_quiet c _ Q4).
  - reflexivity.
  - apply tu_quiet. apply quiet_finish, quiet_refl.
Qed.

Lemma tool_calls_app events1 events2 :
  tool_calls JSON_stringify (events1 ++ events2)
  = tool_calls JSON_stringify events1 ++ tool_calls JSON_stringify events2.
Proof. unfold tool_calls. apply omap_app. Qed.

Lemma tu_handleEvents events c :
  stream_inv c ->
  tool_uses (sent (handleEvents events c))
  = tool_uses (sent c) ++ tool_calls JSON_stringify events.
Proof.
  revert c. induction events as [|e events IH]; intros c Hc.
  - simpl. now rewrite app_nil_r.
  - change (handleEvents (e :: events) c) with (handleEvents events (handleEvent c e)).
    rewrite IH by now apply inv_handleEvent.
    rewrite tu_handleEvent by assumption.
    change (e :: events) with ([e] ++ events).
    now rewrite tool_calls_app, <- app_assoc.
Qed.

Lemma tu_act c a :
  stream_inv c ->
  tool_uses (sent (act c a))
  = tool_uses (sent c)
    ++ tool_calls JSON_stringify
         match a with HandleEvents events => events | _ => [] end.
Proof.
  intros Hc. destruct a; cbn [ClaudeStream.act]; rewrite ?app_nil_r.
  - apply tu_quiet. unfold init.
    apply quiet_send; [quiet_frame_tac|]. apply quiet_send; [quiet_frame_tac|].
    apply quiet_refl.
  - now apply tu_handleEvents.
  - apply tu_quiet, quiet_flushAsync, quiet_refl.
  - apply tu_quiet, quiet_send; [quiet_frame_tac|apply quiet_refl].
  - apply tu_quiet, quiet_send; [quiet_frame_tac|apply quiet_refl].
Qed.

Lemma tu_run acts c :
  stream_inv c ->
  tool_uses (sent (run acts c))
  = tool_uses (sent c) ++ tool_calls JSON_stringify (handled acts).
Proof.
  revert c. induction acts as [|a acts IH]; intros c Hc.
  - simpl. now rewrite app_nil_r.
  - change (run (a :: acts) c) with (run acts (act c a)).
    rewrite IH by now apply inv_act.
    rewrite tu_act by assumption.
    rewrite handled_cons, tool_calls_app. now rewrite <- app_assoc.
Qed.

(** The tool_use blocks a client sees are the tool calls handled, in their
    order: each block carries the name of its call, and the
    [input_json_delta] pieces sent for that block, put together, are
    [JSON.stringify] of the call's arguments. *)
Theorem tool_calls_arrive_whole rid input acts :
  tool_uses (sent (run acts (new rid input)))
  = tool_calls JSON_stringify (handled acts).
Proof. now rewrite tu_run by apply inv_new. Qed.

End WriterDelivery.

(** * Further properties of the configuration *)

(** What a loop that reads entries from [i] on until one is missing returns:
    the entries it found, all present, and, unless it ran out of [fuel], a
    missing entry right after them. *)
Lemma scan_spec {A} (entry : nat -> option A) (from : nat -> nat -> list A) :
  (forall i, from 0%nat i = []) ->
  (forall fuel i, from (S fuel) i
                  = match entry i with
                    | Some x => x :: from fuel (S i)
                    | None => []
                    end) ->
  forall fuel i,
    from fuel i = omap entry (seq i (length (from fuel i)))
    /\ (forall k, (k < length (from fuel i))%nat -> is_Some (entry (i + k)%nat))
    /\ ((length (from fuel i) < fuel)%nat ->
        entry (i + length (from fuel i))%nat = None).
Proof.
  intros Hzero Hstep fuel. induction fuel as [|fuel IH]; intros i.
  - rewrite Hzero. simpl. split; [done|]. split; intros; lia.
  - rewrite Hstep. destruct (entry i) as [x|] eqn:Hx.
    + destruct (IH (S i)) as (H1 & H2 & H3).
      change (length (x :: from fuel (S i))) with (S (length (from fuel (S i)))).
      split; [|split].
      * simpl. rewrite Hx. simpl. now f_equal.
      * intros [|k] Hk; [rewrite Nat.add_0_r, Hx; eauto|].
        replace (i + S k)%nat with (S i + k)%nat by lia. apply H2. lia.
      * intros Hlt.
        replace (i + S (length (from fuel (S i))))%nat
          with (S i + length (from fuel (S i)))%nat by lia.
        apply H3. lia.
    + simpl. split; [done|]. split; [intros; lia|].
      intros _. now rewrite Nat.add_0_r.
Qed.

Section ConfigFacts.

Import Config.

Variable Number : str -> jsnum.

Lemma loadUpstreamConfigs_from_S fuel i env :
  loadUpstreamConfigs_from (S fuel) i env
  = match upstream_entry env i with
    | Some u => u :: loadUpstreamConfigs_from fuel (S i) env
    | None => []
    end.
Proof.
  unfold upstream_entry. simpl.
  destruct (env_get env (upstream_key i "_BASE_URL")) as [[|b url]|]; try done.
  destruct (env_get env (upstream_key i "_REQUEST_MODEL")) as [[|r rm]|]; try done.
  now destruct (env_get env (upstream_key i "_NAME_MODEL")) as [[|n nm]|].
Qed.

Lemma loadChannelConfigs_from_S fuel i env :
  loadChannelConfigs_from (S fuel) i env
  = match channel_entry env i with
    | Some c => c :: loadChannelConfigs_from fuel (S i) env
    | None => []
    end.
Proof.
  unfold channel_entry. simpl.
  destruct (env_get env (channel_key i "_NAME")) as [[|n nm]|]; try done.
  now destruct (env_get env (channel_key i "_BASE_URL")) as [[|b url]|].
Qed.

Lemma upstreams_bound env : (length (loadUpstreamConfigs env) <= size env)%nat.
Proof.
  apply (keys_bound env (fun i => upstream_key i "_BASE_URL") 1).
  - intros a b. apply upstream_key_inj.
  - intros k Hk. now apply (loadUpstreamConfigs_set (S (size env))).
Qed.

Lemma channels_bound env : (length (loadChannelConfigs env) <= size env)%nat.
Proof.
  apply (keys_bound env (fun i => channel_key i "_NAME") 1).
  - intros a b. apply channel_key_inj.
  - intros k Hk. now apply (loadChannelConfigs_set (S (size env))).
Qed.

Lemma loadUpstreamConfigs_entries env :
  loadUpstreamConfigs env
  = omap (upstream_entry env) (seq 1 (length (loadUpstreamConfigs env))).
Proof.
  exact (proj1 (scan_spec (upstream_entry env)
                  (fun fuel i => loadUpstreamConfigs_from fuel i env)
                  (fun _ => eq_refl)
                  (fun fuel i => loadUpstreamConfigs_from_S fuel i env)
                  (S (size env)) 1%nat)).
Qed.

Lemma loadChannelConfigs_entries env :
  loadChannelConfigs env
  = omap (channel_entry env) (seq 1 (length (loadChannelConfigs env))).
Proof.
  exact (proj1 (scan_spec (channel_entry env)
                  (fun fuel i => loadChannelConfigs_from fuel i env)
                  (fun _ => eq_refl)
                  (fun fuel i => loadChannelConfigs_from_S fuel i env)
                  (S (size env)) 1%nat)).
Qed.

(** [loadUpstreamConfigs] returns the numbered upstreams 1 to [n], in that
    order, where [n + 1] is the first index with a required variable
    ([_BASE_URL], [_REQUEST_MODEL], [_NAME_MODEL]) unset or empty: the scan
    stops at the first gap, and entries numbered beyond it are not read. *)
Theorem loadUpstreamConfigs_stops_at_gap env :
  let n := length (loadUpstreamConfigs env) in
  loadUpstreamConfigs env = omap (upstream_entry env) (seq 1 n)
  /\ (forall i, (1 <= i <= n)%nat -> is_Some (upstream_entry env i))
  /\ upstream_entry env (S n) = None.
Proof.
  intros n.
  destruct (scan_spec (upstream_entry env)
              (fun fuel i => loadUpstreamConfigs_from fuel i env)
              (fun _ => eq_refl)
              (fun fuel i => loadUpstreamConfigs_from_S fuel i env)
              (S (size env)) 1%nat) as (H1 & H2 & H3).
  fold (loadUpstreamConfigs env) in H1, H2, H3. fold n in H1, H2, H3.
  split; [exact H1|]. split.
  - intros i Hi. replace i with (1 + (i - 1))%nat by lia. apply H2. lia.
  - apply H3. pose proof (upstreams_bound env). fold n in H. lia.
Qed.

(** [loadChannelConfigs] returns the channels 1 to [n], in that order, where
    [n + 1] is the first index whose [_NAME] or [_BASE_URL] is unset or
    empty. *)
Theorem loadChannelConfigs_stops_at_gap env :
  let n := length (loadChannelConfigs env) in
  loadChannelConfigs env = omap (channel_entry env) (seq 1 n)
  /\ (forall i, (1 <= i <= n)%nat -> is_Some (channel_entry env i))
  /\ channel_entry env (S n) = None.
Proof.
  intros n.
  destruct (scan_spec (channel_entry env)
              (fun fuel i => loadChannelConfigs_from fuel i env)
              (fun _ => eq_refl)
              (fun fuel i => loadChannelConfigs_from_S fuel i env)
              (S (size env)) 1%nat) as (H1 & H2 & H3).
  fold (loadChannelConfigs env) in H1, H2, H3. fold n in H1, H2, H3.
  split; [exact H1|]. split.
  - intros i Hi. replace i with (1 + (i - 1))%nat by lia. apply H2. lia.
  - apply H3. pose proof (channels_bound env). fold n in H. lia.
Qed.

(** Entries beyond a gap are not read: upstream 3 and channel 3 are set, 2
    is not, and one of each is loaded. *)
Example scan_stops_at_gap :
  is_Some (upstream_entry gapped_env 3) /\ is_Some (channel_entry gapped_env 3)
  /\ (nameModel <$> loadUpstreamConfigs gapped_env) = [lit "one"]
  /\ (ch_name <$> loadChannelConfigs gapped_env) = [lit "a"].
Proof. vm_compute. repeat split; eauto. Qed.

(** [loadConfig] throws in one case only: no numbered upstream is loaded and
    [UPSTREAM_BASE_URL] is set to the empty string.  When a numbered
    upstream is loaded the legacy variables [UPSTREAM_BASE_URL],
    [UPSTREAM_API_KEY] and [UPSTREAM_MODEL] are not read, and the
    configuration has no legacy upstream. *)
Theorem loadConfig_outcome env :
  ((exists message, loadConfig Number env = Thrown message)
   <-> loadUpstreamConfigs env = []
       /\ env_get env "UPSTREAM_BASE_URL" = Some [])
  /\ (forall config,
        loadConfig Number env = Ok config ->
        upstreamConfigs config = loadUpstreamConfigs env
        /\ channelConfigs config = loadChannelConfigs env
        /\ (loadUpstreamConfigs env <> [] ->
            upstreamBaseUrl config = None /\ upstreamApiKey config = None
            /\ upstreamModelOverride config = None)
        /\ (loadUpstreamConfigs env = [] ->
            truthy (upstreamBaseUrl config) = true
            /\ upstreamApiKey config = env_get env "UPSTREAM_API_KEY"
            /\ upstreamModelOverride config = env_get env "UPSTREAM_MODEL")).
Proof.
  unfold loadConfig.
  destruct (loadUpstreamConfigs env) as [|u us] eqn:Hu; simpl.
  - destruct (env_get env "UPSTREAM_BASE_URL") as [[|b url]|] eqn:Hb; simpl.
    + split; [split; eauto|]. intros config H. discriminate H.
    + split.
      * split; [intros [m H]; discriminate H|]. intros [_ H]. discriminate H.
      * intros config [= <-]. simpl. repeat split; try done.
    + split.
      * split; [intros [m H]; discriminate H|]. intros [_ H]. discriminate H.
      * intros config [= <-]. simpl. repeat split; try done.
  - split.
    + split; [intros [m H]; discriminate H|]. intros [H _]. discriminate H.
    + intros config [= <-]. simpl. repeat split; try done.
Qed.

Lemma loadConfig_lists env config :
  loadConfig Number env = Ok config ->
  upstreamConfigs config = loadUpstreamConfigs env
  /\ channelConfigs config = loadChannelConfigs env.
Proof.
  unfold loadConfig.
  destruct (loadUpstreamConfigs env) as [|u us] eqn:Hu; simpl.
  - destruct (env_get env "UPSTREAM_BASE_URL") as [[|b url]|] eqn:Hb; simpl.
    + intros H. discriminate H.
    + intros [= <-]. simpl. split; reflexivity.
    + intros [= <-]. simpl. split; reflexivity.
  - intros [= <-]. simpl. split; reflexivity.
Qed.

Lemma omap_Forall {A B} (P : B -> Prop) (f : A -> option B) (l : list A) :
  (forall x y, f x = Some y -> P y) -> Forall P (omap f l).
Proof.
  intros H. induction l as [|x l IH]; simpl; [constructor|].
  destruct (f x) as [y|] eqn:E; [|assumption]. constructor; eauto.
Qed.

Lemma loaded_upstreams_have_url env :
  Forall (fun u => baseUrl u <> []) (loadUpstreamConfigs env).
Proof.
  rewrite loadUpstreamConfigs_entries.
  apply omap_Forall. intros i u. unfold upstream_entry.
  destruct (env_get _ _) as [[|b url]|]; try done.
  destruct (env_get _ _) as [[|r rm]|]; try done.
  destruct (env_get _ _) as [[|n nm]|]; try done.
  now intros [= <-].
Qed.

Lemma loaded_channels_have_url env :
  Forall (fun c => ch_baseUrl c <> []) (loadChannelConfigs env).
Proof.
  rewrite loadChannelConfigs_entries.
  apply omap_Forall. intros i c. unfold channel_entry.
  destruct (env_get _ _) as [[|n nm]|]; try done.
  destruct (env_get _ _) as [[|b url]|]; try done.
  now intros [= <-].
Qed.

(** Whatever [selectUpstreamConfig] returns for a configuration that
    [loadConfig] built has a base URL that is not empty, and carries the
    client's model string as its [nameModel]. *)
Theorem loaded_upstream_is_usable env config m u :
  loadConfig Number env = Ok config ->
  Upstream.selectUpstreamConfig config m = Ok u ->
  baseUrl u <> [] /\ nameModel u = m.
Proof.
  intros Hload Hsel.
  destruct (loadConfig_lists env config Hload) as [Hu Hc].
  unfold Upstream.selectUpstreamConfig in Hsel.
  destruct (Upstream.parseChannelModel m) as [[ch rest]|].
  - destruct (find _ (channelConfigs config)) as [channel|] eqn:Hf.
    + injection Hsel as <-. simpl. split; [|done].
      apply find_some_elem in Hf as [Hin _]. rewrite Hc in Hin.
      pose proof (loaded_channels_have_url env) as Hall.
      rewrite Forall_forall in Hall. now apply Hall.
    + revert Hsel. unfold Upstream.selectNumberedOrLegacy.
      destruct (find _ (upstreamConfigs config)) as [u'|] eqn:Hf'.
      * intros [= <-]. apply find_some_elem in Hf' as [Hin He].
        apply str_eqb_eq in He. split; [|done]. rewrite Hu in Hin.
        pose proof (loaded_upstreams_have_url env) as Hall.
        rewrite Forall_forall in Hall. now apply Hall.
      * destruct (upstreamBaseUrl config) as [[|b url]|]; try discriminate.
        now intros [= <-].
  - revert Hsel. unfold Upstream.selectNumberedOrLegacy.
    destruct (find _ (upstreamConfigs config)) as [u'|] eqn:Hf'.
    + intros [= <-]. apply find_some_elem in Hf' as [Hin He].
      apply str_eqb_eq in He. split; [|done]. rewrite Hu in Hin.
      pose proof (loaded_upstreams_have_url env) as Hall.
      rewrite Forall_forall in Hall. now apply Hall.
    + destruct (upstreamBaseUrl config) as [[|b url]|]; try discriminate.
      now intros [= <-].
Qed.

End ConfigFacts.

(** [parseChannelModel] splits a model string at its first plus sign: the
    channel name has no plus sign and the two parts joined by one give the
    string back; it returns [null] exactly for a string without a plus
    sign. *)
Theorem parseChannelModel_round_trip clientModel :
  match Upstream.parseChannelModel clientModel with
  | Some (channelName, modelName) =>
      clientModel = channelName ++ "+"%char :: modelName
      /\ "+"%char ∉ channelName
  | None => "+"%char ∉ clientModel
  end.
Proof.
  destruct (first_plus clientModel) as [Hn|(ch & rest & -> & Hn)].
  - now rewrite parseChannelModel_None.
  - now rewrite parseChannelModel_split.
Qed.

(** The minimal configuration that [fromUpstreamInfo] builds resolves the
    model of the upstream info back to that upstream, whatever the model
    string and the client key: same base URL, key and model, and the same
    protocol but for gemini, which the configuration replaces by openai. *)
Theorem fromUpstreamInfo_round_trip upstreamInfo clientApiKey :
  let '(upstreamConfig, minimalConfig) := UpstreamInfo.fromUpstreamInfo upstreamInfo in
  RequestContext.parseChannelInfo (UpstreamInfo.model upstreamInfo) minimalConfig
    clientApiKey
  = {| RequestContext.baseUrl := RequestContext.baseUrl upstreamConfig;
       RequestContext.apiKey := RequestContext.apiKey upstreamConfig;
       RequestContext.model := RequestContext.model upstreamConfig;
       RequestContext.protocol :=
         match UpstreamInfo.protocol upstreamInfo with
         | Config.gemini => Some Config.openai
         | other => Some other
         end |}.
Proof.
  unfold UpstreamInfo.fromUpstreamInfo, RequestContext.parseChannelInfo. simpl.
  destruct (indexOf "+"%char (UpstreamInfo.model upstreamInfo)); simpl;
    now destruct (UpstreamInfo.protocol upstreamInfo).
Qed.

(** * The read loop of the stream handlers *)

Section ReadLoop.

Import StreamReader.

Lemma split_lines_cons s : exists l ls, split_lines s = l :: ls.
Proof.
  induction s as [|a s (l & ls & IH)]; simpl; [eauto|].
  case_bool_decide; [eauto|]. rewrite IH. eauto.
Qed.

Lemma split_lines_app s t :
  split_lines (s ++ t)
  = removelast (split_lines s)
    ++ match split_lines t with
       | l :: ls => (default [] (last (split_lines s)) ++ l) :: ls
       | [] => []
       end.
Proof.
  destruct (split_lines_cons t) as (l & ls & Ht). rewrite Ht.
  induction s as [|a s IH]; simpl.
  - now rewrite Ht.
  - rewrite IH. destruct (split_lines_cons s) as (l' & ls' & Hs). rewrite Hs.
    case_bool_decide.
    + simpl. destruct ls'; reflexivity.
    + destruct ls' as [|l2 ls']; simpl; [reflexivity|].
      destruct ls'; reflexivity.
Qed.

Lemma split_lines_no_LF s : LF ∉ s -> split_lines s = [s].
Proof.
  induction s as [|a s IH]; intros Hn; simpl; [done|].
  apply not_elem_of_cons in Hn as [Hne Hn]. rewrite bool_decide_false by congruence.
  now rewrite IH.
Qed.

Lemma last_no_LF s : LF ∉ default [] (last (split_lines s)).
Proof.
  induction s as [|a s IH]; simpl.
  - intros H. inversion H.
  - destruct (split_lines_cons s) as (l & ls & Hs). rewrite Hs in *.
    case_bool_decide as Ha.
    + destruct ls; exact IH.
    + destruct ls as [|l2 ls]; simpl in *.
      * apply not_elem_of_cons. split; [congruence|exact IH].
      * exact IH.
Qed.

Lemma removelast_last_default {A} (l : list A) d :
  l <> [] -> l = removelast l ++ [default d (last l)].
Proof.
  induction l as [|x l IH]; [done|]. intros _.
  destruct l as [|y l]; [done|].
  change (removelast (x :: y :: l)) with (x :: removelast (y :: l)).
  rewrite last_cons_cons. simpl. f_equal. now apply IH.
Qed.

Lemma removelast_app_cons {A} (l1 : list A) x l2 :
  removelast (l1 ++ x :: l2) = l1 ++ removelast (x :: l2).
Proof. apply removelast_app. discriminate. Qed.

Lemma last_app_cons' {A} (l1 : list A) x l2 : last (l1 ++ x :: l2) = last (x :: l2).
Proof. apply last_app_cons. Qed.

(** Cutting the text read so far and then the buffer with the next chunk
    gives the same lines as cutting all of it at once. *)
Lemma take_lines_app s chunk :
  take_lines [] (s ++ chunk)
  = (fst (take_lines [] s) ++ fst (take_lines (snd (take_lines [] s)) chunk),
     snd (take_lines (snd (take_lines [] s)) chunk)).
Proof.
  unfold take_lines. simpl.
  set (b := default [] (last (split_lines s))).
  rewrite (split_lines_app s chunk), (split_lines_app b chunk).
  rewrite (split_lines_no_LF b) by apply last_no_LF. simpl.
  destruct (split_lines_cons chunk) as (l & ls & ->).
  now rewrite removelast_app_cons, last_app_cons'.
Qed.

Lemma lines_read_from s chunks :
  take_lines [] (s ++ concat chunks)
  = (fst (take_lines [] s) ++ fst (lines_read (snd (take_lines [] s)) chunks),
     snd (lines_read (snd (take_lines [] s)) chunks)).
Proof.
  revert s. induction chunks as [|chunk chunks IH]; intros s.
  - cbn [concat lines_read]. rewrite app_nil_r.
    destruct (take_lines [] s) as [ls b]. cbn [fst snd]. now rewrite app_nil_r.
  - cbn [concat lines_read]. rewrite app_assoc, IH, (take_lines_app s chunk).
    cbn [fst snd].
    destruct (take_lines (snd (take_lines [] s)) chunk) as [lines b]. cbn [fst snd].
    destruct (lines_read b chunks) as [more b']. cbn [fst snd].
    now rewrite <- app_assoc.
Qed.

Lemma lines_read_whole chunks :
  lines_read [] chunks
  = (removelast (split_lines (concat chunks)),
     default [] (last (split_lines (concat chunks)))).
Proof.
  pose proof (lines_read_from [] chunks) as H. simpl in H.
  change (take_lines [] (concat chunks))
    with (removelast (split_lines (concat chunks)),
          default [] (last (split_lines (concat chunks)))) in H.
  destruct (lines_read [] chunks) as [ls b]. simpl in H. injection H as H1 H2.
  now rewrite H1, H2.
Qed.

(** The lines the read loop sees do not depend on how the body is cut into
    chunks: they are the lines of the whole text, cut at line feeds, short
    of what follows the last line feed.  That rest is what is left in the
    buffer when the body ends; the handlers do not look at it again, so a
    last line without a line feed is never processed. *)
Theorem lines_do_not_depend_on_chunks chunks :
  lines_read [] chunks
  = (removelast (split_lines (concat chunks)),
     default [] (last (split_lines (concat chunks))))
  /\ split_lines (concat chunks)
     = fst (lines_read [] chunks) ++ [snd (lines_read [] chunks)]
  /\ LF ∉ snd (lines_read [] chunks).
Proof.
  pose proof (lines_read_whole chunks) as H.
  destruct (lines_read [] chunks) as [ls b]. injection H as H1 H2.
  split; [now rewrite H1, H2|]. split.
  - simpl. rewrite H1, H2.
    destruct (split_lines_cons (concat chunks)) as (l & ls' & ->).
    apply removelast_last_default. discriminate.
  - simpl. rewrite H2. apply last_no_LF.
Qed.

Section OpenAIFacts.

Variable JSON_parse : str -> option (str * str).

Local Abbreviation openai_lines := (openai_lines JSON_parse).
Local Abbreviation openai_reads := (openai_reads JSON_parse).

Lemma openai_lines_cons line rest :
  openai_lines (line :: rest)
  = let trimmed := trim line in
    if falsy trimmed || negb (startsWith trimmed (lit "data: ")) then openai_lines rest
    else
      let jsonStr := slice trimmed 6 None in
      if str_eqb jsonStr (lit "[DONE]") then []
      else
        match JSON_parse jsonStr with
        | Some (content, reasoning_content) =>
            (if falsy content then [] else [Content content])
            ++ (if falsy reasoning_content then [] else [Reasoning reasoning_content])
            ++ openai_lines rest
        | None => openai_lines rest
        end.
Proof. reflexivity. Qed.

(** Up to a line that ends the loop, the lines are processed one by one. *)
Lemma openai_lines_app lines more :
  Forall (fun line => ~ done_line line) lines ->
  openai_lines (lines ++ more) = openai_lines lines ++ openai_lines more.
Proof.
  induction 1 as [|line lines Hline _ IH]; [done|].
  rewrite <- app_comm_cons, !openai_lines_cons. cbv zeta.
  destruct (falsy (trim line) || negb (startsWith (trim line) (lit "data: "))) eqn:E;
    [exact IH|].
  apply orb_false_iff in E as [_ E]. apply negb_false_iff in E.
  destruct (str_eqb _ _) eqn:Ed.
  - exfalso. apply Hline. split; [exact E|]. now apply str_eqb_eq.
  - destruct (JSON_parse _) as [[content reasoning]|]; [|exact IH].
    now rewrite IH, <- !app_assoc.
Qed.

Lemma openai_reads_lines buffer chunks :
  Forall (fun line => ~ done_line line) (fst (lines_read buffer chunks)) ->
  openai_reads buffer chunks = openai_lines (fst (lines_read buffer chunks)).
Proof.
  revert buffer. induction chunks as [|chunk chunks IH]; intros buffer; [done|].
  cbn [StreamReader.openai_reads lines_read].
  destruct (take_lines buffer chunk) as [lines b].
  specialize (IH b). destruct (lines_read b chunks) as [more b']. cbn [fst] in *.
  intros H. apply Forall_app in H as [H1 H2].
  now rewrite IH, openai_lines_app.
Qed.

(** As long as no line is [data: [DONE]], what the OpenAI handler feeds the
    parser does not depend on how the body is cut into chunks: it is what
    one read of the whole body would feed. *)
Theorem openai_feed_does_not_depend_on_chunks chunks :
  Forall (fun line => ~ done_line line) (removelast (split_lines (concat chunks))) ->
  openai_reads [] chunks = openai_reads [] [concat chunks].
Proof.
  intros H. pose proof (lines_read_whole chunks) as E.
  rewrite openai_reads_lines by now rewrite E.
  rewrite E. cbn [fst StreamReader.openai_reads]. unfold take_lines.
  cbn [app concat]. now rewrite !app_nil_r.
Qed.

(** A [data: [DONE]] line ends the loop over the lines of the read it
    arrives in, and only that: the lines after it in the same read are
    skipped, and reading goes on with the next chunk. *)
Theorem openai_done_ends_one_read buffer chunk rest lines line more :
  fst (take_lines buffer chunk) = lines ++ line :: more ->
  Forall (fun line => ~ done_line line) lines ->
  done_line line ->
  openai_reads buffer (chunk :: rest)
  = openai_lines lines ++ openai_reads (snd (take_lines buffer chunk)) rest.
Proof.
  intros Heq Hlines [Hd1 Hd2]. cbn [StreamReader.openai_reads].
  destruct (take_lines buffer chunk) as [ls b]. cbn [fst snd] in *. subst ls.
  rewrite openai_lines_app by assumption. rewrite <- app_assoc. f_equal.
  rewrite openai_lines_cons. cbv zeta. rewrite Hd1, Hd2.
  replace (falsy (trim line)) with false.
  - reflexivity.
  - destruct (trim line); [discriminate Hd1|reflexivity].
Qed.

End OpenAIFacts.

Section AnthropicFacts.

Variable JSON_parse : str -> option (str * str).

Local Abbreviation anthropic_lines := (anthropic_lines JSON_parse).
Local Abbreviation anthropic_reads := (anthropic_reads JSON_parse).

Lemma anthropic_lines_cons eventType line rest :
  anthropic_lines eventType (line :: rest)
  = let trimmed := trim line in
    if falsy trimmed then anthropic_lines eventType rest
    else if startsWith trimmed (lit "event: ")
    then anthropic_lines (slice trimmed 7 None) rest
    else if startsWith trimmed (lit "data: ") then
      let jsonStr := slice trimmed 6 None in
      match JSON_parse jsonStr with
      | Some (delta_type, text) =>
          (if str_eqb eventType (lit "content_block_delta")
              && str_eqb delta_type (lit "text_delta") && negb (falsy text)
           then [Content text] else [])
          ++ anthropic_lines eventType rest
      | None => anthropic_lines eventType rest
      end
    else anthropic_lines eventType rest.
Proof. reflexivity. Qed.

Lemma anthropic_lines_no_event eventType lines :
  eventType <> lit "content_block_delta" ->
  Forall (fun line => ~ event_line line) lines ->
  anthropic_lines eventType lines = [].
Proof.
  intros He. induction 1 as [|line lines Hline _ IH]; [done|].
  rewrite anthropic_lines_cons. cbv zeta.
  destruct (falsy (trim line)); [exact IH|].
  destruct (startsWith (trim line) (lit "event: ")) eqn:E.
  - now destruct Hline.
  - destruct (startsWith (trim line) (lit "data: ")); [|exact IH].
    destruct (JSON_parse _) as [[delta_type text]|]; [|exact IH].
    rewrite IH, app_nil_r.
    replace (str_eqb eventType (lit "content_block_delta")) with false; [done|].
    symmetry. apply bool_decide_eq_false. exact He.
Qed.

(** The Anthropic handler forgets the event type between two reads: a read
    none of whose lines is an [event:] line feeds nothing to the parser,
    whatever its [data:] lines carry. *)
Theorem anthropic_event_type_is_per_read buffer chunk rest :
  Forall (fun line => ~ event_line line) (fst (take_lines buffer chunk)) ->
  anthropic_reads buffer (chunk :: rest)
  = anthropic_reads (snd (take_lines buffer chunk)) rest.
Proof.
  intros H. cbn [StreamReader.anthropic_reads].
  destruct (take_lines buffer chunk) as [lines b]. cbn [fst snd] in *.
  now rewrite anthropic_lines_no_event.
Qed.

End AnthropicFacts.

Lemma anthropic_event_type_is_per_read_witness :
  Forall (fun line => ~ event_line line)
    (fst (take_lines [] (lit "data: Hi" ++ [LF])))
  /\ anthropic_reads parse_text [] [lit "data: Hi" ++ [LF]]
     = anthropic_reads parse_text (snd (take_lines [] (lit "data: Hi" ++ [LF]))) [].
Proof.
  assert (H : Forall (fun line => ~ event_line line)
                (fst (take_lines [] (lit "data: Hi" ++ [LF])))).
  { repeat constructor. unfold event_line. vm_compute. discriminate. }
  exact (conj H (anthropic_event_type_is_per_read parse_text []
                   (lit "data: Hi" ++ [LF]) [] H)).
Defined.

(** A text delta whose [event:] line and [data:] line arrive in one read is
    fed to the parser; when the two lines arrive in two reads it is not. *)
Example anthropic_delta_split_over_two_reads :
  anthropic_reads parse_text []
    [lit "event: content_block_delta" ++ [LF] ++ lit "data: Hi" ++ [LF]]
  = [Content (lit "Hi")]
  /\ anthropic_reads parse_text []
       [lit "event: content_block_delta" ++ [LF]; lit "data: Hi" ++ [LF]]
     = [].
Proof. vm_compute. split; reflexivity. Qed.

(** A last line without a line feed is not processed, and lines after
    [data: [DONE]] are processed when they come in a later read. *)
Example openai_edge_reads :
  openai_reads (fun s => Some (s, [])) [] [lit "data: Hi"] = []
  /\ openai_reads (fun s => Some (s, [])) []
       [lit "data: [DONE]" ++ [LF] ++ lit "data: late" ++ [LF]]
     = []
  /\ openai_reads (fun s => Some (s, [])) []
       [lit "data: [DONE]" ++ [LF]; lit "data: late" ++ [LF]]
     = [Content (lit "late")].
Proof. vm_compute. repeat split; reflexivity. Qed.

End ReadLoop.

(** * Building message lists *)

Section ContextBuilderFacts.

Import ContextBuilder.

(** [truncateMessages] returns the last messages of the list: a suffix of
    it, all of it when it is no longer than [maxMessages], and otherwise
    [maxMessages] messages, none when [maxMessages] is zero or negative.
    Truncating twice is truncating once. *)
Theorem truncateMessages_keeps_latest messages maxMessages :
  truncateMessages messages maxMessages `suffix_of` messages
  /\ Z.of_nat (length (truncateMessages messages maxMessages))
     = Z.min (Z.of_nat (length messages)) (Z.max 0 maxMessages)
  /\ truncateMessages (truncateMessages messages maxMessages) maxMessages
     = truncateMessages messages maxMessages.
Proof.
  assert (H : truncateMessages messages maxMessages `suffix_of` messages
              /\ Z.of_nat (length (truncateMessages messages maxMessages))
                 = Z.min (Z.of_nat (length messages)) (Z.max 0 maxMessages)).
  { unfold truncateMessages.
    destruct (Z.leb_spec (Z.of_nat (length messages)) maxMessages) as [Hle|Hgt].
    - split; [done|]. lia.
    - split; [apply suffix_drop|]. rewrite length_drop. lia. }
  destruct H as [H1 H2]. split; [exact H1|]. split; [exact H2|].
  unfold truncateMessages at 1.
  destruct (Z.leb_spec (Z.of_nat (length (truncateMessages messages maxMessages)))
              maxMessages) as [Hle|Hgt]; [done|].
  destruct (truncateMessages messages maxMessages) as [|m l]; [apply drop_nil|].
  simpl length in *. lia.
Qed.

(** *** [estimateMessageLength] *)

Lemma fold_add {A} (f : A -> nat) (l : list A) (n : nat) :
  fold_left (fun total x => (total + f x)%nat) l n
  = (n + fold_left (fun total x => (total + f x)%nat) l 0)%nat.
Proof.
  revert n. induction l as [|x l IH]; intros n; simpl; [lia|].
  rewrite (IH (n + f x)%nat), (IH (f x)). lia.
Qed.

Lemma estimate_app l1 l2 :
  estimateMessageLength (l1 ++ l2)
  = (estimateMessageLength l1 + estimateMessageLength l2)%nat.
Proof.
  unfold estimateMessageLength. rewrite fold_left_app.
  apply (fold_add message_length).
Qed.

Lemma estimate_singleton m : estimateMessageLength [m] = message_length m.
Proof. reflexivity. Qed.

(** *** [mergeMessages] *)

Lemma mergeMessages_flat heap messageLists :
  mergeMessages heap messageLists = fold_left merge_one (concat messageLists) (heap, []).
Proof.
  unfold mergeMessages. generalize (heap, @nil nat).
  induction messageLists as [|l ls IH]; intros st; simpl; [done|].
  now rewrite fold_left_app, IH.
Qed.

Lemma set_content_role heap ref c r : role (set_content heap ref c r) = role (heap r).
Proof. unfold set_content. case_bool_decide; [now subst|done]. Qed.

Lemma set_content_same heap ref c : content (set_content heap ref c ref) = c.
Proof. unfold set_content. now rewrite bool_decide_true. Qed.

Lemma set_content_other heap ref c r : r <> ref -> set_content heap ref c r = heap r.
Proof. intros H. unfold set_content. now rewrite bool_decide_false. Qed.

Lemma set_content_is_text heap ref a b r :
  content (heap ref) = StringContent a ->
  is_text (set_content heap ref (StringContent b)) r <-> is_text heap r.
Proof.
  intros Ha. unfold is_text, set_content. case_bool_decide as Hr; [|done].
  subst r. simpl. now rewrite Ha.
Qed.

(** What one round of the loop does: it appends the message, or it writes
    the joined text into the last message of the list. *)
Lemma merge_one_cases heap merged msg :
  merge_one (heap, merged) msg = (heap, merged ++ [msg])
  /\ (forall lastMsg, last merged = Some lastMsg -> ~ mergeable heap lastMsg msg)
  \/ exists lastMsg a b,
       last merged = Some lastMsg
       /\ role (heap lastMsg) = role (heap msg)
       /\ content (heap lastMsg) = StringContent a
       /\ content (heap msg) = StringContent b
       /\ merge_one (heap, merged) msg
          = (set_content heap lastMsg (StringContent (a ++ separator ++ b)), merged).
Proof.
  unfold merge_one. destruct (last merged) as [l|] eqn:Hl.
  - destruct (str_eqb (role (heap l)) (role (heap msg))) eqn:Hr.
    + apply str_eqb_eq in Hr.
      destruct (content (heap l)) as [a|bs] eqn:Ha.
      * destruct (content (heap msg)) as [b|bs] eqn:Hb.
        -- right. exists l, a, b. done.
        -- left. split; [done|]. intros ? [= <-] (_ & _ & Ht).
           unfold is_text in Ht. now rewrite Hb in Ht.
      * left. split; [done|]. intros ? [= <-] (_ & Ht & _).
        unfold is_text in Ht. now rewrite Ha in Ht.
    + left. split; [done|]. intros ? [= <-] (He & _).
      apply str_eqb_eq in He. congruence.
  - left. split; [done|]. intros ? H. discriminate H.
Qed.

Lemma merged_through_snoc heap merged msg :
  merged_through heap (merged ++ [msg])
  <-> merged_through heap merged
      /\ (forall lastMsg, last merged = Some lastMsg -> ~ mergeable heap lastMsg msg).
Proof.
  induction merged as [|a merged IH]; simpl.
  - split; [intros _; split; [done|]; intros ? H; discriminate H|done].
  - destruct merged as [|b merged].
    + simpl. split.
      * intros [H _]. split; [done|]. now intros ? [= <-].
      * intros [_ H]. split; [|done]. now apply H.
    + change ((b :: merged) ++ [msg]) with (b :: (merged ++ [msg])) in *.
      rewrite last_cons_cons. simpl in IH. rewrite IH. simpl. tauto.
Qed.

Lemma merged_through_ext heap heap' refs :
  (forall a b, mergeable heap a b <-> mergeable heap' a b) ->
  merged_through heap refs -> merged_through heap' refs.
Proof.
  intros He. induction refs as [|a [|b refs] IH]; simpl; try done.
  intros [H1 H2]. split; [now rewrite <- He|now apply IH].
Qed.

Lemma set_content_mergeable heap ref a c x y :
  content (heap ref) = StringContent a ->
  mergeable heap x y <-> mergeable (set_content heap ref (StringContent c)) x y.
Proof.
  intros Ha. unfold mergeable.
  now rewrite !set_content_role, !(set_content_is_text heap ref a c).
Qed.

Lemma merge_one_through heap merged msg :
  merged_through heap merged ->
  merged_through (merge_one (heap, merged) msg).1 (merge_one (heap, merged) msg).2.
Proof.
  intros H.
  destruct (merge_one_cases heap merged msg)
    as [[-> Hn]|(l & a & b & Hl & Hr & Ha & Hb & ->)]; simpl.
  - now apply merged_through_snoc.
  - eapply merged_through_ext; [|exact H].
    intros x y. now apply (set_content_mergeable heap l a).
Qed.

Lemma fold_merge_through msgs st :
  merged_through st.1 st.2 ->
  merged_through (fold_left merge_one msgs st).1 (fold_left merge_one msgs st).2.
Proof.
  revert st. induction msgs as [|msg msgs IH]; intros [heap merged] H; [done|].
  cbn [fold_left]. apply IH. now apply merge_one_through.
Qed.

(** In the list [mergeMessages] returns no message can be merged into the
    one before it: two neighbours never have the same role with both of
    them text. *)
Theorem mergeMessages_leaves_nothing_to_merge heap messageLists :
  merged_through (mergeMessages heap messageLists).1
    (mergeMessages heap messageLists).2.
Proof. rewrite mergeMessages_flat. now apply fold_merge_through. Qed.

Lemma merged_through_middle heap acc x rest lastMsg :
  merged_through heap (acc ++ x :: rest) -> last acc = Some lastMsg ->
  ~ mergeable heap lastMsg x.
Proof.
  induction acc as [|a acc IH]; [discriminate|].
  destruct acc as [|b acc]; simpl.
  - intros [H _] [= <-]. exact H.
  - intros [_ H] Hl. apply IH; [exact H|]. exact Hl.
Qed.

Lemma fold_merge_merged heap msgs acc :
  merged_through heap (acc ++ msgs) ->
  fold_left merge_one msgs (heap, acc) = (heap, acc ++ msgs).
Proof.
  revert acc. induction msgs as [|msg msgs IH]; intros acc H.
  - now rewrite app_nil_r.
  - cbn [fold_left].
    destruct (merge_one_cases heap acc msg)
      as [[-> _]|(l & a & b & Hl & Hr & Ha & Hb & _)].
    + rewrite IH; [now rewrite <- app_assoc|]. now rewrite <- app_assoc.
    + exfalso. apply (merged_through_middle heap acc msg msgs l H Hl).
      unfold mergeable, is_text. now rewrite Hr, Ha, Hb.
Qed.

(** Merging what [mergeMessages] returned changes nothing: neither the list
    nor any message. *)
Theorem mergeMessages_idempotent heap messageLists :
  let '(heap', merged) := mergeMessages heap messageLists in
  mergeMessages heap' [merged] = (heap', merged).
Proof.
  assert (H : merged_through (mergeMessages heap messageLists).1
                (mergeMessages heap messageLists).2)
    by (rewrite mergeMessages_flat; now apply fold_merge_through).
  destruct (mergeMessages heap messageLists) as [heap' merged]. simpl in H.
  rewrite mergeMessages_flat. simpl. rewrite app_nil_r.
  now apply (fold_merge_merged heap' merged []).
Qed.

Lemma grows_refl heap : grows heap heap.
Proof.
  intros r. split; [done|]. destruct (content (heap r)) as [a|bs]; [|done].
  exists []. now rewrite app_nil_r.
Qed.

Lemma grows_trans h1 h2 h3 : grows h1 h2 -> grows h2 h3 -> grows h1 h3.
Proof.
  intros H12 H23 r. destruct (H12 r) as [R1 C1]. destruct (H23 r) as [R2 C2].
  split; [congruence|].
  destruct (content (h1 r)) as [a|bs].
  - destruct C1 as [b C1]. rewrite C1 in C2. destruct C2 as [c C2].
    exists (b ++ c). now rewrite C2, app_assoc.
  - now rewrite C1 in C2.
Qed.

Lemma grows_set_content heap ref a b :
  content (heap ref) = StringContent a ->
  grows heap (set_content heap ref (StringContent (a ++ b))).
Proof.
  intros Ha r. split; [apply set_content_role|].
  unfold set_content. case_bool_decide as Hr.
  - subst r. rewrite Ha. simpl. eauto.
  - destruct (content (heap r)) as [c|bs]; [|done]. exists []. now rewrite app_nil_r.
Qed.

Lemma fold_merge_grows msgs heap merged :
  let '(heap', merged') := fold_left merge_one msgs (heap, merged) in
  grows heap heap'
  /\ (exists kept, merged' = merged ++ kept /\ kept `sublist_of` msgs)
  /\ (forall r, r ∉ merged' -> heap' r = heap r).
Proof.
  revert heap merged. induction msgs as [|msg msgs IH]; intros heap merged.
  - simpl. split; [apply grows_refl|]. split; [|done].
    exists []. now rewrite app_nil_r.
  - cbn [fold_left].
    destruct (merge_one_cases heap merged msg)
      as [[-> _]|(l & a & b & Hl & Hr & Ha & Hb & ->)].
    + specialize (IH heap (merged ++ [msg])).
      destruct (fold_left merge_one msgs (heap, merged ++ [msg])) as [heap' merged'].
      destruct IH as (H1 & (kept & -> & Hk) & H3).
      split; [exact H1|]. split; [|exact H3].
      exists (msg :: kept). rewrite <- app_assoc. split; [done|].
      now apply sublist_skip.
    + specialize (IH (set_content heap l (StringContent (a ++ separator ++ b))) merged).
      destruct (fold_left merge_one msgs _) as [heap' merged'].
      destruct IH as (H1 & (kept & -> & Hk) & H3).
      split; [|split].
      * eapply grows_trans; [|exact H1]. now apply grows_set_content.
      * exists kept. split; [done|]. now apply sublist_cons.
      * intros r Hr'. rewrite H3 by assumption.
        apply set_content_other. intros ->. apply Hr'.
        apply elem_of_app. left. apply last_Some_elem_of. exact Hl.
Qed.

(** What [mergeMessages] may change: the messages it returns are messages it
    was given, in their order; no message changes its role, no block
    content changes, and a text only gets text added at its end.  Messages
    that are not in the returned list are as they were; a message in it may
    have been written to, so the caller's own objects change. *)
Theorem mergeMessages_writes_only_text heap messageLists :
  let '(heap', merged) := mergeMessages heap messageLists in
  grows heap heap'
  /\ merged `sublist_of` concat messageLists
  /\ (forall r, r ∉ merged -> heap' r = heap r).
Proof.
  rewrite mergeMessages_flat.
  pose proof (fold_merge_grows (concat messageLists) heap []) as H.
  destruct (fold_left merge_one (concat messageLists) (heap, [])) as [heap' merged].
  destruct H as (H1 & (kept & -> & Hk) & H3). done.
Qed.

Lemma estimate_ext (heap heap' : Heap) refs :
  (forall r, r ∈ refs -> heap' r = heap r) ->
  estimateMessageLength (heap' <$> refs) = estimateMessageLength (heap <$> refs).
Proof.
  intros H. f_equal. apply list_fmap_ext. intros i r Hr. apply H.
  now apply list_elem_of_lookup_2 in Hr.
Qed.

Lemma fold_merge_conserves msgs heap :
  NoDup msgs ->
  let '(heap', merged) := fold_left merge_one msgs (heap, []) in
  (estimateMessageLength (heap' <$> merged) + 2 * length merged
   = estimateMessageLength (heap <$> msgs) + 2 * length msgs)%nat.
Proof.
  induction msgs as [|msg msgs IH] using rev_ind; intros Hnd; [done|].
  apply NoDup_app in Hnd as (Hnd & Hdis & _).
  specialize (IH Hnd). rewrite fold_left_app. cbn [fold_left].
  pose proof (fold_merge_grows msgs heap []) as Hg.
  destruct (fold_left merge_one msgs (heap, [])) as [h1 m1].
  destruct Hg as (_ & (kept & E & Hk) & Hout). simpl in E. subst kept.
  assert (Hmsg : msg ∉ m1).
  { intros Hin. apply (Hdis msg); [|apply list_elem_of_here].
    exact (elem_of_sublist _ _ _ Hin Hk). }
  assert (Hnd1 : NoDup m1) by exact (sublist_NoDup _ _ Hnd Hk).
  rewrite (fmap_app heap msgs [msg]), estimate_app, (length_app msgs [msg]).
  change (estimateMessageLength (heap <$> [msg])) with (message_length (heap msg)).
  change (length [msg]) with 1%nat.
  destruct (merge_one_cases h1 m1 msg)
    as [[-> _]|(l & a & b & Hl & Hr & Ha & Hb & ->)].
  - rewrite fmap_app, estimate_app, length_app.
    change (estimateMessageLength (h1 <$> [msg])) with (message_length (h1 msg)).
    change (length [msg]) with 1%nat.
    rewrite (Hout msg Hmsg). lia.
  - apply last_Some in Hl as [m0 ->].
    apply NoDup_app in Hnd1 as (_ & Hl0 & _).
    rewrite !fmap_app, !estimate_app in *.
    change (estimateMessageLength (?h <$> [l])) with (message_length (h l)) in *.
    rewrite (estimate_ext h1 (set_content h1 l _) m0).
    + unfold message_length at 1. rewrite set_content_same.
      assert (Hb' : message_length (heap msg) = length b).
      { rewrite <- (Hout msg Hmsg). unfold message_length. now rewrite Hb. }
      assert (Ha' : message_length (h1 l) = length a).
      { unfold message_length. now rewrite Ha. }
      rewrite !length_app in *. change (length separator) with 2%nat.
      change (length [l]) with 1%nat in *. lia.
    + intros r Hr'. apply set_content_other. intros ->.
      apply (Hl0 l Hr'). apply list_elem_of_here.
Qed.

(** When the messages given to [mergeMessages] are distinct objects, no text
    is lost or repeated: the text of the returned messages is as long as the
    text of the given ones, plus the two line feeds put in for each message
    that was merged into the one before it. *)
Theorem mergeMessages_conserves_text heap messageLists :
  NoDup (concat messageLists) ->
  let '(heap', merged) := mergeMessages heap messageLists in
  (estimateMessageLength (heap' <$> merged) + 2 * length merged
   = estimateMessageLength (heap <$> concat messageLists)
     + 2 * length (concat messageLists))%nat.
Proof. intros H. rewrite mergeMessages_flat. now apply fold_merge_conserves. Qed.

Lemma mergeMessages_conserves_text_witness :
  NoDup (concat [[0%nat; 1%nat]; [2%nat]])
  /\ let '(heap', merged) := mergeMessages sample_heap [[0%nat; 1%nat]; [2%nat]] in
     (estimateMessageLength (heap' <$> merged) + 2 * length merged
      = estimateMessageLength (sample_heap <$> concat [[0%nat; 1%nat]; [2%nat]])
        + 2 * length (concat [[0%nat; 1%nat]; [2%nat]]))%nat.
Proof.
  assert (H : NoDup (concat [[0%nat; 1%nat]; [2%nat]])).
  { apply (bool_decide_unpack _). vm_compute. exact I. }
  exact (conj H (mergeMessages_conserves_text sample_heap [[0%nat; 1%nat]; [2%nat]] H)).
Defined.

(** The first of two messages that are merged is written to, and a message
    object given twice has its text added to itself. *)
Example mergeMessages_writes_to_its_arguments :
  let '(heap', merged) := mergeMessages sample_heap [[0%nat; 1%nat]] in
  merged = [0%nat]
  /\ content (heap' 0%nat)
     = StringContent (lit "Hello" ++ separator ++ lit "again")
  /\ content (sample_heap 0%nat) = StringContent (lit "Hello")
  /\ let '(heap'', merged') := mergeMessages sample_heap [[0%nat; 0%nat]] in
     merged' = [0%nat]
     /\ content (heap'' 0%nat)
        = StringContent (lit "Hello" ++ separator ++ lit "Hello").
Proof. vm_compute. repeat split; reflexivity. Qed.

End ContextBuilderFacts.

(** * Intercepting tool_use blocks *)

Section InterceptorFacts.

Import ToolUseInterceptor.

Lemma observe_app s events more :
  observe s (events ++ more)
  = let '(s1, r1) := observe s events in
    let '(s2, r2) := observe s1 more in
    (s2, r1 ++ r2).
Proof.
  revert s. induction events as [|event events IH]; intros s.
  - simpl. now destruct (observe s more).
  - cbn [app observe]. destruct (handle s event) as [s1 b].
    rewrite IH. destruct (observe s1 events) as [s2 r2].
    now destruct (observe s2 more).
Qed.

(** The deltas of an intercepted block are all intercepted, and their
    pieces of tool input are added to the buffer. *)
Lemma observe_deltas_on index (ds : list delta) s :
  shouldInterceptCurrent s = true -> is_Some (currentToolUse s) ->
  observe s (ContentBlockDelta index <$> ds)
  = ({| webToolsConfig := webToolsConfig s;
        currentToolUse := currentToolUse s;
        shouldInterceptCurrent := true;
        inputJsonBuffer :=
          inputJsonBuffer s
          ++ received ToolInputChannel (ContentBlockDelta index <$> ds);
        ran := ran s |},
     replicate (length ds) true).
Proof.
  revert s. induction ds as [|d ds IH]; intros s Hs [cur Hc].
  - simpl. rewrite received_nil, app_nil_r. destruct s; simpl in *. now subst.
  - rewrite fmap_cons. cbn [observe handle]. unfold handleContentBlockDelta.
    rewrite Hs, Hc. cbn [negb].
    change (received ToolInputChannel (ContentBlockDelta index d :: ?r))
      with (carried ToolInputChannel (ContentBlockDelta index d)
            ++ received ToolInputChannel r).
    destruct d as [text|thinking|signature|partial_json];
      try (rewrite IH by (rewrite ?Hc; eauto); rewrite Hc; reflexivity).
    destruct partial_json as [|a partial_json]; cbn [falsy].
    + rewrite IH by (rewrite ?Hc; eauto). rewrite Hc. reflexivity.
    + rewrite IH by (simpl; eauto). cbn [carried]. simpl.
      now rewrite <- app_assoc.
Qed.

Lemma observe_deltas_off index (ds : list delta) s :
  shouldInterceptCurrent s = false ->
  observe s (ContentBlockDelta index <$> ds) = (s, replicate (length ds) false).
Proof.
  intros Hs. induction ds as [|d ds IH]; [done|].
  rewrite fmap_cons. cbn [observe handle]. unfold handleContentBlockDelta.
  rewrite Hs. cbn [negb]. now rewrite IH.
Qed.

Lemma observe_start s index id toolName :
  observe s [ContentBlockStart index (ToolUseBlock id toolName)]
  = ({| webToolsConfig := webToolsConfig s;
        currentToolUse := Some (id, toolName);
        shouldInterceptCurrent := shouldInterceptToolUse (webToolsConfig s) toolName;
        inputJsonBuffer := [];
        ran := ran s |},
     [shouldInterceptToolUse (webToolsConfig s) toolName]).
Proof.
  cbn [observe handle handleContentBlockStart].
  now destruct (shouldInterceptToolUse (webToolsConfig s) toolName).
Qed.

Lemma observe_stop s index :
  observe s [ContentBlockStop index] = (let '(s, b) := handleContentBlockStop
                                                         (ContentBlockStop index) s in
                                        (s, [b])).
Proof. cbn [observe handle]. now destruct (handleContentBlockStop _ s). Qed.

(** A tool_use block is forwarded whole or intercepted whole: its start,
    each of its deltas and its stop get the same answer, which is whether
    the tool is [web_search] or [web_fetch] with its switch on.  When the
    block is intercepted, the tool is run once its stop arrives, with the
    pieces of tool input of the deltas put together, and the interceptor is
    back in its initial state; when it is not, nothing is run. *)
Theorem interceptor_takes_whole_blocks s index id toolName (ds : list delta) :
  let block :=
    [ContentBlockStart index (ToolUseBlock id toolName)]
    ++ (ContentBlockDelta index <$> ds) ++ [ContentBlockStop index] in
  let intercepted := shouldInterceptToolUse (webToolsConfig s) toolName in
  (observe s block).2 = replicate (length block) intercepted
  /\ shouldInterceptCurrent (observe s block).1 = false
  /\ webToolsConfig (observe s block).1 = webToolsConfig s
  /\ (intercepted = true ->
      currentToolUse (observe s block).1 = None
      /\ inputJsonBuffer (observe s block).1 = []
      /\ ran (observe s block).1
         = ran s ++ [(toolName,
                      received ToolInputChannel (ContentBlockDelta index <$> ds))])
  /\ (intercepted = false -> ran (observe s block).1 = ran s).
Proof.
  intros block intercepted. subst block.
  rewrite observe_app, observe_start. cbv beta iota.
  rewrite observe_app. fold intercepted.
  rewrite !length_app, length_fmap. cbn [length].
  replace (1 + (length ds + 1))%nat with (S (S (length ds))) by lia.
  destruct intercepted eqn:Hi.
  - rewrite observe_deltas_on by (simpl; eauto). cbv beta iota.
    rewrite observe_stop. unfold handleContentBlockStop. cbn.
    assert (Hn : str_eqb toolName (lit "web_search") || str_eqb toolName (lit "web_fetch")
                 = true).
    { unfold intercepted, shouldInterceptToolUse in Hi.
      destruct (str_eqb toolName (lit "web_search")); [done|].
      destruct (str_eqb toolName (lit "web_fetch")); [done|]. discriminate Hi. }
    unfold lit in Hn. simpl in Hn. rewrite Hn.
    split; [|done]. f_equal. symmetry. apply (replicate_S_end (length ds)).
  - rewrite observe_deltas_off by reflexivity. cbv beta iota.
    rewrite observe_stop. unfold handleContentBlockStop. cbn.
    split; [|done]. f_equal. symmetry. apply (replicate_S_end (length ds)).
Qed.

Lemma handle_off s event :
  enableSearchIntercept (webToolsConfig s) = false ->
  enableFetchIntercept (webToolsConfig s) = false ->
  shouldInterceptCurrent s = false ->
  (handle s event).2 = false
  /\ shouldInterceptCurrent (handle s event).1 = false
  /\ webToolsConfig (handle s event).1 = webToolsConfig s
  /\ ran (handle s event).1 = ran s.
Proof.
  intros H1 H2 H3. destruct event as [| |i [| |id toolName]|i d|i| | |]; simpl; try done.
  - unfold shouldInterceptToolUse. rewrite H1, H2, !andb_false_r. done.
  - unfold handleContentBlockDelta. now rewrite H3.
  - unfold handleContentBlockStop. now rewrite H3.
Qed.

(** With both switches off the interceptor intercepts nothing and runs
    nothing, whatever events it is given. *)
Theorem interceptor_off_is_transparent config events :
  enableSearchIntercept config = false ->
  enableFetchIntercept config = false ->
  (observe (new config) events).2 = replicate (length events) false
  /\ ran (observe (new config) events).1 = [].
Proof.
  intros H1 H2.
  assert (H : forall s,
             webToolsConfig s = config -> shouldInterceptCurrent s = false ->
             (observe s events).2 = replicate (length events) false
             /\ ran (observe s events).1 = ran s).
  { induction events as [|event events IH]; intros s Hc Hs; [done|].
    cbn [observe].
    destruct (handle_off s event) as (A & B & C & D); rewrite ?Hc; try assumption.
    destruct (handle s event) as [s1 b]. simpl in A, B, C, D. subst b.
    destruct (IH s1) as [E F]; [congruence|assumption|].
    destruct (observe s1 events) as [s2 r]. simpl in *. split; congruence. }
  now apply (H (new config)).
Qed.

Lemma interceptor_off_is_transparent_witness :
  (observe (new {| enableSearchIntercept := false; enableFetchIntercept := false |})
     [ContentBlockStart 0 (ToolUseBlock (lit "toolu_1") (lit "web_search"));
      ContentBlockDelta 0 (InputJsonDelta (lit "{}"));
      ContentBlockStop 0]).2
  = replicate 3 false
  /\ ran (observe (new {| enableSearchIntercept := false;
                          enableFetchIntercept := false |})
            [ContentBlockStart 0 (ToolUseBlock (lit "toolu_1") (lit "web_search"));
             ContentBlockDelta 0 (InputJsonDelta (lit "{}"));
             ContentBlockStop 0]).1
     = [].
Proof.
  exact (interceptor_off_is_transparent
           {| enableSearchIntercept := false; enableFetchIntercept := false |}
           [ContentBlockStart 0 (ToolUseBlock (lit "toolu_1") (lit "web_search"));
            ContentBlockDelta 0 (InputJsonDelta (lit "{}"));
            ContentBlockStop 0]
           eq_refl eq_refl).
Defined.

End InterceptorFacts.

(** * Cleaning log metadata *)

Section LoggerFacts.

Import AIClientLogger.

Lemma includes_occurs s m : includes s m = true <-> occurs_in m s.
Proof.
  induction s as [|a s IH]; cbn [includes].
  - rewrite orb_false_r. unfold startsWith. rewrite bool_decide_eq_true. split.
    + intros [k ->]. exists [], k. reflexivity.
    + intros (k1 & k2 & E). symmetry in E.
      apply app_eq_nil in E as [-> E]. apply app_eq_nil in E as [-> ->].
      exists []. reflexivity.
  - rewrite orb_true_iff, IH. unfold startsWith. rewrite bool_decide_eq_true. split.
    + intros [[k ->]|(k1 & k2 & ->)].
      * exists [], k. reflexivity.
      * exists (a :: k1), k2. reflexivity.
    + intros (k1 & k2 & E). destruct k1 as [|b k1].
      * left. exists k2. exact E.
      * right. injection E as -> ->. exists k1, k2. reflexivity.
Qed.

Lemma set_entry_keys o key v :
  (set_entry o key v).*1 = if bool_decide (key ∈ o.*1) then o.*1 else o.*1 ++ [key].
Proof.
  induction o as [|[k w] r IH]; cbn [set_entry].
  - rewrite bool_decide_eq_false_2 by apply not_elem_of_nil. reflexivity.
  - unfold str_eqb. destruct (decide (k = key)) as [->|Hne].
    + rewrite bool_decide_eq_true_2 by reflexivity. cbn [fmap list_fmap fst].
      rewrite bool_decide_eq_true_2 by apply list_elem_of_here. reflexivity.
    + rewrite bool_decide_eq_false_2 by exact Hne. cbn [fmap list_fmap fst].
      change (list_fmap _ _ fst (set_entry r key v)) with ((set_entry r key v).*1).
      change (list_fmap _ _ fst r) with (r.*1).
      rewrite IH. destruct (decide (key ∈ r.*1)) as [Hin|Hnin].
      * rewrite !bool_decide_eq_true_2; [reflexivity|by apply list_elem_of_further|exact Hin].
      * rewrite !bool_decide_eq_false_2; [reflexivity| |exact Hnin].
        intros [E|Hin]%elem_of_cons; [by apply Hne|by apply Hnin].
Qed.

Lemma set_entry_elem o key v k x :
  (k, x) ∈ set_entry o key v -> (k, x) = (key, v) \/ (k, x) ∈ o.
Proof.
  induction o as [|[k0 w] r IH]; cbn [set_entry].
  - intros E%list_elem_of_singleton. left. exact E.
  - unfold str_eqb. destruct (decide (k0 = key)) as [->|Hne].
    + rewrite bool_decide_eq_true_2 by reflexivity.
      intros [E|Hin]%elem_of_cons; [left; exact E|right; by apply list_elem_of_further].
    + rewrite bool_decide_eq_false_2 by exact Hne.
      intros [E|Hin]%elem_of_cons.
      * right. rewrite E. apply list_elem_of_here.
      * destruct (IH Hin) as [E|Hin']; [left; exact E|right; by apply list_elem_of_further].
Qed.

Lemma set_entry_fresh o key v : key ∉ o.*1 -> set_entry o key v = o ++ [(key, v)].
Proof.
  induction o as [|[k w] r IH]; cbn [set_entry]; intros Hnin; [reflexivity|].
  unfold str_eqb. rewrite bool_decide_eq_false_2.
  - cbn [app]. f_equal. apply IH. intros Hin. apply Hnin.
    cbn [fmap list_fmap fst]. by apply list_elem_of_further.
  - intros ->. apply Hnin. apply list_elem_of_here.
Qed.

Lemma assign_elem o key v k x :
  (k, x) ∈ assign o key v -> (k, x) = (key, v) /\ key <> lit "__proto__" \/ (k, x) ∈ o.
Proof.
  unfold assign, str_eqb. case_bool_decide as Hp; [right; assumption|].
  intros [E|Hin]%set_entry_elem; [left; split; assumption|right; assumption].
Qed.

Lemma assign_keys o key v :
  (assign o key v).*1
  = if bool_decide (key = lit "__proto__") || bool_decide (key ∈ o.*1)
    then o.*1 else o.*1 ++ [key].
Proof.
  unfold assign, str_eqb. case_bool_decide; [reflexivity|]. apply set_entry_keys.
Qed.

Lemma assign_NoDup o key v : NoDup o.*1 -> NoDup (assign o key v).*1.
Proof.
  intros Hnd. rewrite assign_keys.
  destruct (bool_decide (key = lit "__proto__")); [exact Hnd|].
  case_bool_decide as Hin; [exact Hnd|].
  apply NoDup_app. split; [exact Hnd|]. split.
  - intros k Hk E%list_elem_of_singleton. subst k. by apply Hin.
  - apply NoDup_singleton.
Qed.

Lemma assign_key_elem o key v k :
  k ∈ (assign o key v).*1 -> k ∈ o.*1 \/ k = key /\ key <> lit "__proto__".
Proof.
  rewrite assign_keys. case_bool_decide as Hp; [left; assumption|].
  case_bool_decide as Hin; [left; assumption|].
  intros [Hk|E%list_elem_of_singleton]%elem_of_app; [left; assumption|right; split; assumption].
Qed.

Lemma tidy_nil : tidy [].
Proof. split; [apply NoDup_nil_2|apply not_elem_of_nil]. Qed.

Lemma tidy_assign o key v : tidy o -> tidy (assign o key v).
Proof.
  intros [Hnd Hp]. split; [by apply assign_NoDup|].
  intros [Hin|[E Hne]]%assign_key_elem; [by apply Hp|]. by apply Hne.
Qed.

Lemma redacted_nil : redacted [].
Proof. intros key value Hin. by apply elem_of_nil in Hin. Qed.

Lemma redacted_assign o key v :
  redacted o -> (sensitive key = true -> v = REDACTED) -> redacted (assign o key v).
Proof.
  intros Ho Hv k x [[E _]|Hin]%assign_elem Hs.
  - injection E as -> ->. by apply Hv.
  - by apply (Ho k).
Qed.

(** A step that assigns to the key of the entry it is given. *)
Lemma fold_assign_inv (P : list (str * Value) -> Prop)
    (step : list (str * Value) -> str * Value -> list (str * Value)) l acc :
  (forall o entry, P o -> P (step o entry)) -> P acc -> P (fold_left step l acc).
Proof.
  intros Hstep. revert acc. induction l as [|e l IH]; intros acc Hacc; [exact Hacc|].
  cbn [fold_left]. apply IH. by apply Hstep.
Qed.

Lemma sanitize_object_tidy objValue : tidy (sanitize_object objValue).
Proof.
  unfold sanitize_object. apply fold_assign_inv; [|exact tidy_nil].
  intros o [k v] Ho. destruct (sensitive k); by apply tidy_assign.
Qed.

Lemma sanitize_object_redacted objValue : redacted (sanitize_object objValue).
Proof.
  unfold sanitize_object. apply fold_assign_inv; [|exact redacted_nil].
  intros o [k v] Ho. destruct (sensitive k) eqn:Hs; apply redacted_assign; try assumption.
  - reflexivity.
  - rewrite Hs. discriminate.
Qed.

Lemma clean_nil : clean [].
Proof.
  split; [exact tidy_nil|]. split; [apply not_elem_of_nil|]. split; [exact redacted_nil|].
  intros key entries Hin. by apply elem_of_nil in Hin.
Qed.

Lemma clean_assign o key v :
  clean o -> key <> lit "requestId" ->
  (sensitive key = true -> v = REDACTED) ->
  (forall entries, v = ObjectValue entries -> tidy entries /\ redacted entries) ->
  clean (assign o key v).
Proof.
  intros (Ht & Hr & Hred & Hobj) Hkey Hv Hvo. split; [by apply tidy_assign|]. split.
  { intros [Hin|[E _]]%assign_key_elem; [by apply Hr|]. by apply Hkey. }
  split; [by apply redacted_assign|].
  intros k entries [[E _]|Hin]%assign_elem.
  - injection E as -> E. by apply Hvo.
  - by apply (Hobj k).
Qed.

Lemma sanitize_entry_clean o entry : clean o -> clean (sanitize_entry o entry).
Proof.
  intros Ho. destruct entry as [key value]. unfold sanitize_entry, str_eqb.
  case_bool_decide as Hr; [exact Ho|].
  destruct (sensitive key) eqn:Hs.
  - apply clean_assign; [exact Ho|exact Hr|reflexivity|discriminate].
  - destruct value as [text|items|objValue];
      (apply clean_assign; [exact Ho|exact Hr|rewrite Hs; discriminate|]).
    + discriminate.
    + discriminate.
    + intros entries [= <-]. split; [apply sanitize_object_tidy|apply sanitize_object_redacted].
Qed.

Lemma sanitizeMetadata_clean metadata : clean (sanitizeMetadata metadata).
Proof.
  destruct metadata as [metadata|]; [|exact clean_nil].
  unfold sanitizeMetadata. apply fold_assign_inv; [|exact clean_nil].
  intros o entry Ho. by apply sanitize_entry_clean.
Qed.

(** In what [sanitizeMetadata] returns, every entry whose key contains, in
    any case, one of the words apikey, api_key, authorization, token,
    password or secret holds the mark [[REDACTED]] in place of its value,
    and so does every such entry of an object that is the value of an
    entry; there is no [requestId] entry. *)
Theorem sanitizeMetadata_redacts metadata :
  redacted (sanitizeMetadata metadata)
  /\ (forall key entries,
        (key, ObjectValue entries) ∈ sanitizeMetadata metadata -> redacted entries)
  /\ lit "requestId" ∉ (sanitizeMetadata metadata).*1.
Proof.
  destruct (sanitizeMetadata_clean metadata) as (_ & Hr & Hred & Hobj).
  split; [exact Hred|]. split; [|exact Hr].
  intros key entries Hin. exact (proj2 (Hobj key entries Hin)).
Qed.

(** Folding a step that stores each entry under its own key, over entries
    with distinct keys that the object does not have yet, adds the entries
    at the end. *)
Lemma fold_assign_fresh (g : str * Value -> Value)
    (step : list (str * Value) -> str * Value -> list (str * Value)) l acc :
  (forall o entry, entry ∈ l -> step o entry = assign o entry.1 (g entry)) ->
  NoDup l.*1 -> lit "__proto__" ∉ l.*1 ->
  (forall k, k ∈ l.*1 -> k ∉ acc.*1) ->
  fold_left step l acc = acc ++ ((fun entry => (entry.1, g entry)) <$> l).
Proof.
  revert acc. induction l as [|[k v] l IH]; intros acc Hstep Hnd Hp Hfresh.
  - cbn. by rewrite app_nil_r.
  - cbn [fold_left]. cbn [fmap list_fmap fst] in Hnd, Hp, Hfresh.
    apply NoDup_cons in Hnd as [Hk Hnd].
    rewrite Hstep by apply list_elem_of_here. cbn [fst].
    unfold assign, str_eqb. rewrite bool_decide_eq_false_2.
    2:{ intros ->. apply Hp. apply list_elem_of_here. }
    rewrite set_entry_fresh by (apply Hfresh; apply list_elem_of_here).
    rewrite IH.
    + rewrite <- app_assoc. reflexivity.
    + intros o entry Hin. apply Hstep. by apply list_elem_of_further.
    + exact Hnd.
    + intros Hin. apply Hp. by apply list_elem_of_further.
    + intros k' Hk'. rewrite fmap_app. cbn [fmap list_fmap fst].
      intros [Hin|E%list_elem_of_singleton]%elem_of_app.
      * apply (Hfresh k'); [by apply list_elem_of_further|exact Hin].
      * subst k'. by apply Hk.
Qed.

Lemma sanitize_object_fixed entries :
  tidy entries -> redacted entries -> sanitize_object entries = entries.
Proof.
  intros [Hnd Hp] Hred. unfold sanitize_object.
  rewrite (fold_assign_fresh snd).
  - cbn [app]. rewrite <- (list_fmap_id entries) at 2. apply list_fmap_ext.
    intros i [k v] _. reflexivity.
  - intros o [k v] Hin. cbn [fst snd]. destruct (sensitive k) eqn:Hs; [|reflexivity].
    rewrite (Hred k v Hin Hs). reflexivity.
  - exact Hnd.
  - exact Hp.
  - intros k _. apply not_elem_of_nil.
Qed.

Lemma sanitizeMetadata_fixed o : clean o -> sanitizeMetadata (Some o) = o.
Proof.
  intros ([Hnd Hp] & Hr & Hred & Hobj). unfold sanitizeMetadata.
  rewrite (fold_assign_fresh snd).
  - cbn [app]. rewrite <- (list_fmap_id o) at 2. apply list_fmap_ext.
    intros i [k v] _. reflexivity.
  - intros acc [k v] Hin. cbn [fst snd]. unfold sanitize_entry, str_eqb.
    rewrite bool_decide_eq_false_2.
    2:{ intros ->. apply Hr. apply list_elem_of_fmap. exists (lit "requestId", v).
        split; [reflexivity|exact Hin]. }
    destruct (sensitive k) eqn:Hs.
    + rewrite (Hred k v Hin Hs). reflexivity.
    + destruct v as [text|items|entries]; try reflexivity.
      destruct (Hobj k entries Hin) as [Ht He].
      rewrite (sanitize_object_fixed entries Ht He). reflexivity.
  - exact Hnd.
  - exact Hp.
  - intros k _. apply not_elem_of_nil.
Qed.

(** Cleaning metadata that has been cleaned changes nothing. *)
Theorem sanitizeMetadata_idempotent metadata :
  sanitizeMetadata (Some (sanitizeMetadata metadata)) = sanitizeMetadata metadata.
Proof. apply sanitizeMetadata_fixed. apply sanitizeMetadata_clean. Qed.

(** [sanitizeMetadata] keeps the keys of a record in their order, short of
    [requestId]; an entry whose key is not sensitive and whose value is not
    an object is kept as it is, whatever the value holds: an array is not
    looked into. *)
Theorem sanitizeMetadata_keeps_other_entries metadata :
  NoDup metadata.*1 ->
  (sanitizeMetadata (Some metadata)).*1 = List.filter kept_key metadata.*1
  /\ forall key value,
       (key, value) ∈ metadata -> kept_key key = true -> sensitive key = false ->
       (forall entries, value <> ObjectValue entries) ->
       (key, value) ∈ sanitizeMetadata (Some metadata).
Proof.
  intros Hnd.
  set (g := fun entry : str * Value =>
              if sensitive entry.1 then REDACTED
              else match entry.2 with
                   | ObjectValue objValue => ObjectValue (sanitize_object objValue)
                   | value => value
                   end).
  set (kept := List.filter (fun entry : str * Value => kept_key entry.1) metadata).
  assert (Hfold : forall l acc,
             fold_left sanitize_entry l acc
             = fold_left sanitize_entry
                 (List.filter (fun entry : str * Value =>
                                 negb (str_eqb entry.1 (lit "requestId"))) l) acc).
  { induction l as [|[k v] l IH]; intros acc; [reflexivity|].
    cbn [fold_left List.filter fst]. unfold sanitize_entry at 2.
    destruct (str_eqb k (lit "requestId")) eqn:Hk; cbn [negb].
    - apply IH.
    - cbn [fold_left]. unfold sanitize_entry at 3. rewrite Hk. apply IH. }
  assert (Hproto : forall l acc,
             fold_left sanitize_entry l acc
             = fold_left sanitize_entry
                 (List.filter (fun entry : str * Value =>
                                 negb (str_eqb entry.1 (lit "__proto__"))) l) acc).
  { induction l as [|[k v] l IH]; intros acc; [reflexivity|].
    cbn [fold_left List.filter fst].
    destruct (str_eqb k (lit "__proto__")) eqn:Hk; cbn [negb].
    - rewrite <- IH. f_equal. unfold sanitize_entry, assign.
      rewrite Hk. apply bool_decide_eq_true in Hk. subst k.
      destruct (sensitive _); [reflexivity|]. destruct v; reflexivity.
    - cbn [fold_left]. apply IH. }
  assert (Hkept : sanitizeMetadata (Some metadata)
                  = (fun entry => (entry.1, g entry)) <$> kept).
  { unfold sanitizeMetadata. rewrite Hfold, Hproto.
    assert (E : List.filter (fun entry : str * Value => negb (str_eqb entry.1 (lit "__proto__")))
                  (List.filter (fun entry : str * Value => negb (str_eqb entry.1 (lit "requestId")))
                     metadata) = kept).
    { unfold kept, kept_key. clear. induction metadata as [|[k v] l IH]; [reflexivity|].
      cbn [List.filter fst].
      destruct (str_eqb k (lit "requestId")); cbn [negb andb]; [exact IH|].
      cbn [List.filter fst]. destruct (str_eqb k (lit "__proto__")); cbn [negb];
        [exact IH|by rewrite IH]. }
    rewrite E.
    assert (Hsub : forall entry, entry ∈ kept -> entry ∈ metadata /\ kept_key entry.1 = true).
    { intros entry Hin. unfold kept in Hin. apply list_elem_of_In in Hin.
      apply filter_In in Hin as [Hin Hk]. split; [by apply list_elem_of_In|exact Hk]. }
    rewrite (fold_assign_fresh g).
    - reflexivity.
    - intros o [k v] Hin. destruct (Hsub _ Hin) as [_ Hk]. cbn [fst] in Hk.
      unfold kept_key in Hk. apply andb_true_iff in Hk as [Hk _].
      unfold sanitize_entry, g. cbn [fst snd].
      destruct (str_eqb k (lit "requestId")); [discriminate Hk|].
      destruct (sensitive k); [reflexivity|]. destruct v; reflexivity.
    - unfold kept. clear -Hnd. induction metadata as [|[k v] l IH]; [apply NoDup_nil_2|].
      cbn [fmap list_fmap fst] in Hnd. apply NoDup_cons in Hnd as [Hk Hnd].
      cbn [List.filter fst]. destruct (kept_key k); [|by apply IH].
      cbn [fmap list_fmap fst]. apply NoDup_cons. split; [|by apply IH].
      intros Hin. apply Hk. apply list_elem_of_fmap in Hin as (e & -> & Hin).
      apply list_elem_of_In, filter_In in Hin as [Hin _].
      apply list_elem_of_fmap. exists e. split; [reflexivity|by apply list_elem_of_In].
    - intros Hin. apply list_elem_of_fmap in Hin as (e & E' & Hin).
      destruct (Hsub _ Hin) as [_ Hk]. rewrite <- E' in Hk. vm_compute in Hk. discriminate Hk.
    - intros k _. apply not_elem_of_nil. }
  split.
  - rewrite Hkept. rewrite <- list_fmap_compose. unfold kept. clear.
    induction metadata as [|[k v] l IH]; [reflexivity|].
    cbn [List.filter fmap list_fmap fst]. destruct (kept_key k).
    + cbn [fmap list_fmap compose fst]. f_equal. exact IH.
    + exact IH.
  - intros key value Hin Hk Hs Hobj. rewrite Hkept.
    apply list_elem_of_fmap. exists (key, value). split.
    + unfold g. cbn [fst snd]. rewrite Hs. destruct value; try reflexivity.
      exfalso. by apply (Hobj entries).
    + unfold kept. apply list_elem_of_In, filter_In. split; [by apply list_elem_of_In|exact Hk].
Qed.

Lemma sanitizeMetadata_keeps_other_entries_witness :
  NoDup deep_metadata.*1
  /\ (sanitizeMetadata (Some deep_metadata)).*1 = List.filter kept_key deep_metadata.*1
  /\ forall key value,
       (key, value) ∈ deep_metadata -> kept_key key = true -> sensitive key = false ->
       (forall entries, value <> ObjectValue entries) ->
       (key, value) ∈ sanitizeMetadata (Some deep_metadata).
Proof.
  assert (H : NoDup deep_metadata.*1).
  { apply (bool_decide_unpack _). vm_compute. exact I. }
  exact (conj H (sanitizeMetadata_keeps_other_entries deep_metadata H)).
Defined.

(** The token counts that AIClient.request passes to [logResponse] are
    redacted, their keys containing the word token; a secret two levels
    down, or inside an array, is not. *)
Example sanitizeMetadata_reach finishReason inputTokens outputTokens :
  sanitizeMetadata (Some (response_metadata finishReason inputTokens outputTokens))
  = [(lit "finishReason", Primitive finishReason);
     (lit "inputTokens", REDACTED); (lit "outputTokens", REDACTED)]
  /\ sanitizeMetadata (Some deep_metadata)
     = [(lit "upstream",
         ObjectValue
           [(lit "apiKey", REDACTED);
            (lit "headers",
             ObjectValue [(lit "Authorization", Primitive (lit "Bearer sk-1"))])]);
        (lit "channels",
         ArrayValue [ObjectValue [(lit "apiKey", Primitive (lit "sk-2"))]])].
Proof. split; vm_compute; reflexivity. Qed.

End LoggerFacts.

(** * Model names, escaping and protocol adapters *)

Section ModelNames.

Import Tiktoken.

Lemma lower_lower a : lower (lower a) = lower a.
Proof. destruct a as [[] [] [] [] [] [] [] []]; vm_compute; reflexivity. Qed.

Lemma lower_plus a : lower a = "+"%char <-> a = "+"%char.
Proof.
  split; [|intros ->; reflexivity].
  destruct a as [[] [] [] [] [] [] [] []]; vm_compute; intros H; first [reflexivity|discriminate H].
Qed.

Lemma toLowerCase_idemp s : toLowerCase (toLowerCase s) = toLowerCase s.
Proof.
  unfold toLowerCase. rewrite <- list_fmap_compose. apply list_fmap_ext.
  intros i a _. apply lower_lower.
Qed.

Lemma toLowerCase_plus s : "+"%char ∈ toLowerCase s <-> "+"%char ∈ s.
Proof.
  unfold toLowerCase. rewrite list_elem_of_fmap. split.
  - intros (a & E & Hin). symmetry in E. apply (proj1 (lower_plus a)) in E. by subst a.
  - intros Hin. exists "+"%char. split; [reflexivity|exact Hin].
Qed.

Lemma normalizeModelName_plain model :
  "+"%char ∉ model ->
  normalizeModelName model
  = if startsWith (toLowerCase model) (lit "claude-") then lit "gpt-4"
    else toLowerCase model.
Proof.
  intros Hn. unfold normalizeModelName.
  rewrite (proj2 (indexOf_None _ _) Hn). reflexivity.
Qed.

Lemma normalizeModelName_no_plus model :
  "+"%char ∉ model -> "+"%char ∉ normalizeModelName model.
Proof.
  intros Hn. rewrite normalizeModelName_plain by exact Hn.
  destruct (startsWith _ _).
  - intros Hin. vm_compute in Hin. apply list_elem_of_In in Hin. cbn in Hin.
    repeat (destruct Hin as [Hin|Hin]; [discriminate Hin|]). exact Hin.
  - by rewrite toLowerCase_plus.
Qed.

(** For a model name without a plus sign, [normalizeModelName] gives the
    same name whether or not a channel stands before it, whatever the case
    of its letters, and normalizing the result again changes nothing. *)
Theorem normalizeModelName_ignores_channel_and_case channelName modelName :
  "+"%char ∉ channelName -> "+"%char ∉ modelName ->
  normalizeModelName (channelName ++ "+"%char :: modelName) = normalizeModelName modelName
  /\ normalizeModelName (toLowerCase modelName) = normalizeModelName modelName
  /\ normalizeModelName (normalizeModelName modelName) = normalizeModelName modelName.
Proof.
  intros Hc Hm. split; [|split].
  - unfold normalizeModelName at 1.
    rewrite (indexOf_split _ _ _ Hc), slice_from, drop_after.
    symmetry. by apply normalizeModelName_plain.
  - rewrite !normalizeModelName_plain; [|exact Hm|by rewrite toLowerCase_plus].
    by rewrite toLowerCase_idemp.
  - rewrite (normalizeModelName_plain (normalizeModelName modelName))
      by (by apply normalizeModelName_no_plus).
    rewrite normalizeModelName_plain by exact Hm.
    destruct (startsWith (toLowerCase modelName) (lit "claude-")) eqn:Hs.
    + vm_compute. reflexivity.
    + by rewrite toLowerCase_idemp, Hs.
Qed.

Lemma normalizeModelName_ignores_channel_and_case_witness :
  normalizeModelName (lit "openrouter+Claude-3-Opus") = normalizeModelName (lit "Claude-3-Opus")
  /\ normalizeModelName (toLowerCase (lit "Claude-3-Opus"))
     = normalizeModelName (lit "Claude-3-Opus")
  /\ normalizeModelName (normalizeModelName (lit "Claude-3-Opus"))
     = normalizeModelName (lit "Claude-3-Opus").
Proof.
  apply (normalizeModelName_ignores_channel_and_case (lit "openrouter") (lit "Claude-3-Opus")).
  - intros Hin. apply list_elem_of_In in Hin. vm_compute in Hin.
    repeat (destruct Hin as [Hin|Hin]; [discriminate Hin|]). exact Hin.
  - intros Hin. apply list_elem_of_In in Hin. vm_compute in Hin.
    repeat (destruct Hin as [Hin|Hin]; [discriminate Hin|]). exact Hin.
Defined.

(** With two plus signs the name is cut at the first one only, so that
    normalizing again cuts once more. *)
Example normalizeModelName_two_plus_signs :
  normalizeModelName (lit "a+B+Claude-3") = lit "b+claude-3"
  /\ normalizeModelName (lit "b+claude-3") = lit "gpt-4".
Proof. split; vm_compute; reflexivity. Qed.

End ModelNames.

Section Escaping.

Import PromptInject.

Lemma replace_char_cons a by_ b text :
  replace_char a by_ (b :: text)
  = (if bool_decide (b = a) then by_ else [b]) ++ replace_char a by_ text.
Proof. reflexivity. Qed.

Lemma replace_char_app a by_ s t :
  replace_char a by_ (s ++ t) = replace_char a by_ s ++ replace_char a by_ t.
Proof. unfold replace_char. by rewrite fmap_app, concat_app. Qed.

Lemma replace_char_absent a by_ text : a ∉ text -> replace_char a by_ text = text.
Proof.
  induction text as [|b text IH]; [reflexivity|].
  intros [Hne Hn]%not_elem_of_cons. rewrite replace_char_cons, IH by exact Hn.
  rewrite bool_decide_eq_false_2 by (intros ->; by apply Hne). reflexivity.
Qed.

Lemma replace_char_elem a by_ text c :
  c ∈ replace_char a by_ text -> c ∈ by_ \/ c ∈ text /\ c <> a.
Proof.
  induction text as [|b text IH].
  - intros Hin. by apply elem_of_nil in Hin.
  - rewrite replace_char_cons. intros [Hin|Hin]%elem_of_app.
    + case_bool_decide as Hb; [left; exact Hin|].
      apply list_elem_of_singleton in Hin. subst c. right. split; [apply list_elem_of_here|exact Hb].
    + destruct (IH Hin) as [Hby|[Ht Hne]]; [left; exact Hby|].
      right. split; [by apply list_elem_of_further|exact Hne].
Qed.

Lemma not_in_lit (c : ascii) (s : str) :
  forallb (fun b => negb (bool_decide (b = c))) s = true -> c ∉ s.
Proof.
  intros H Hin. apply list_elem_of_In in Hin.
  rewrite forallb_forall in H. specialize (H c Hin).
  rewrite bool_decide_eq_true_2 in H by reflexivity. discriminate H.
Qed.

(** What [escapeText] returns holds neither [<] nor [>], so that it cannot
    open or close a tag of the tool list; text without them is returned as
    it is, and the text of two pieces is the escaped pieces one after the
    other. *)
Theorem escapeText_leaves_no_angle_bracket text :
  ("<"%char ∉ escapeText text) /\ (">"%char ∉ escapeText text)
  /\ ("<"%char ∉ text -> ">"%char ∉ text -> escapeText text = text)
  /\ forall more, escapeText (text ++ more) = escapeText text ++ escapeText more.
Proof.
  unfold escapeText. split; [|split; [|split]].
  - intros [Hin|[Hin _]]%replace_char_elem.
    + revert Hin. apply not_in_lit. reflexivity.
    + apply replace_char_elem in Hin as [Hin|[_ Hne]]; [|by apply Hne].
      revert Hin. apply not_in_lit. reflexivity.
  - intros [Hin|[_ Hne]]%replace_char_elem; [|by apply Hne].
    revert Hin. apply not_in_lit. reflexivity.
  - intros Hlt Hgt. by rewrite (replace_char_absent "<"%char), replace_char_absent.
  - intros more. by rewrite !replace_char_app.
Qed.

(** The ampersand is not escaped: a bracket and its entity give the same
    text, so the text cannot be recovered. *)
Example escapeText_keeps_ampersand :
  escapeText (lit "a<b") = lit "a&lt;b"
  /\ escapeText (lit "a&lt;b") = lit "a&lt;b".
Proof. split; vm_compute; reflexivity. Qed.

End Escaping.

Section Adapters.

Import Config ProtocolAdapter.

(** For an upstream whose protocol is openai or anthropic, the adapter that
    the non-streaming path of [forwardRequest] creates builds the headers
    that the streaming path sets by hand, in another order for anthropic.
    For gemini, creating the adapter throws, where the streaming path sends
    the anthropic headers. *)
Theorem adapter_headers_agree (upstreamConfig : RequestContext.UpstreamConfig) protocol :
  RequestContext.protocol upstreamConfig = Some protocol ->
  match create (Some protocol) with
  | Ok adapter =>
      getName adapter = protocol
      /\ exists headers,
           buildHeaders adapter (RequestContext.apiKey upstreamConfig) = Ok headers
           /\ headers ≡ₚ RequestContext.forwardRequest_headers upstreamConfig
  | Thrown message =>
      protocol = gemini
      /\ message = lit "Unsupported protocol: gemini"
      /\ (lit "anthropic-version", lit "2023-06-01")
         ∈ RequestContext.forwardRequest_headers upstreamConfig
  end.
Proof.
  destruct upstreamConfig as [baseUrl apiKey model p].
  cbn [RequestContext.protocol RequestContext.apiKey]. intros ->.
  unfold RequestContext.forwardRequest_headers.
  cbn [RequestContext.protocol RequestContext.apiKey].
  destruct protocol; unfold create, adapters; cbn [getName buildHeaders].
  - split; [reflexivity|]. eexists. split; [reflexivity|].
    destruct apiKey as [[|k key]|]; reflexivity.
  - split; [reflexivity|]. eexists. split; [reflexivity|].
    destruct apiKey as [[|k key]|]; cbn [app]; try reflexivity.
    apply perm_skip, perm_swap.
  - split; [reflexivity|]. split; [reflexivity|].
    apply list_elem_of_further, elem_of_app. right. apply list_elem_of_here.
Qed.

Lemma adapter_headers_agree_witness :
  RequestContext.protocol anthropic_upstream = Some anthropic
  /\ match create (Some anthropic) with
     | Ok adapter =>
         getName adapter = anthropic
         /\ exists headers,
              buildHeaders adapter (RequestContext.apiKey anthropic_upstream) = Ok headers
              /\ headers ≡ₚ RequestContext.forwardRequest_headers anthropic_upstream
     | Thrown message =>
         anthropic = gemini
         /\ message = lit "Unsupported protocol: gemini"
         /\ (lit "anthropic-version", lit "2023-06-01")
            ∈ RequestContext.forwardRequest_headers anthropic_upstream
     end.
Proof.
  exact (conj eq_refl (adapter_headers_agree anthropic_upstream anthropic eq_refl)).
Defined.

(** With a key the two paths set the anthropic headers in different orders;
    an adapter cannot be created when no protocol is set. *)
Example adapter_headers_orders :
  buildHeaders AnthropicAdapter (RequestContext.apiKey anthropic_upstream)
  = Ok [(lit "Content-Type", lit "application/json");
        (lit "anthropic-version", lit "2023-06-01");
        (lit "x-api-key", lit "sk-1")]
  /\ RequestContext.forwardRequest_headers anthropic_upstream
     = [(lit "Content-Type", lit "application/json");
        (lit "x-api-key", lit "sk-1");
        (lit "anthropic-version", lit "2023-06-01")]
  /\ create None = Thrown (lit "Unsupported protocol: undefined").
Proof. repeat split. Qed.

End Adapters.

(** * The retry path, frame by frame *)

Section RetryFrames.

Import ClaudeStream StreamHandler.

Variable countTokensWithTiktoken : str -> Z.
Variable JSON_stringify : list (str * str) -> str.
Variable generateToolId : nat -> str.
Variable adjustedOutputTokens : Z -> Z.
Variable retry : str -> str -> nat -> RetryResult.

Local Abbreviation handleEvents :=
  (handleEvents countTokensWithTiktoken JSON_stringify generateToolId
     adjustedOutputTokens).
Local Abbreviation run :=
  (run countTokensWithTiktoken JSON_stringify generateToolId adjustedOutputTokens).
Local Abbreviation afterEOF :=
  (afterEOF countTokensWithTiktoken JSON_stringify generateToolId
     adjustedOutputTokens retry).

Lemma pings_S k c : pings (S k) c = send Ping (pings k c).
Proof. reflexivity. Qed.

Lemma pings_run k acts c :
  pings k (run acts c) = run (acts ++ replicate k HandlerPing) c.
Proof.
  induction k as [|k IH].
  - cbn [replicate]. now rewrite app_nil_r.
  - rewrite pings_S, IH, replicate_S_end, app_assoc.
    unfold ClaudeStream.run at 2. now rewrite fold_left_app.
Qed.

Lemma handled_pings k : handled (replicate k HandlerPing) = [].
Proof. induction k as [|k IH]; [reflexivity|]. cbn [replicate]. now rewrite handled_cons. Qed.

Lemma pings_sent k c : sent (pings k c) = sent c ++ replicate k Ping.
Proof.
  induction k as [|k IH].
  - cbn [replicate]. now rewrite app_nil_r.
  - rewrite pings_S, replicate_S_end, app_assoc, <- IH. reflexivity.
Qed.

Lemma pings_state k c :
  pending (pings k c) = pending c
  /\ thinkingBlockOpen (pings k c) = thinkingBlockOpen c
  /\ nextBlockIndex (pings k c) = nextBlockIndex c
  /\ finished (pings k c) = finished c.
Proof. induction k as [|k IH]; [done|]. rewrite pings_S. exact IH. Qed.

Lemma max_retries_positive a : (1 <= max_retries a)%nat.
Proof.
  unfold max_retries. destruct (toolCallRetry a) as [r|]; [|lia].
  destruct (maxRetries r) as [[|n]|]; lia.
Qed.

(** What the handler does with a failed tool call when retrying is enabled.
    When the attempt [k] is the first one to succeed, the handler has sent
    a keep-alive ping before each attempt up to [k] and then hands the call
    to the writer: the stream gets one more tool_use block, with the name
    and the arguments of the call the retry returned.  When every attempt
    fails, the handler sends a keep-alive ping before each attempt, closes
    an open thinking block, and adds the failed text to the aggregator: it
    sends nothing else, and does not finish the message. *)
Lemma retry_frames rid input acts a events content prior :
  let c := run acts (new rid input) in
  let c' := afterEOF a events c in
  find tool_call_failed events = Some (ToolCallFailed content prior) ->
  retries a ->
  (forall k call,
      (1 <= k <= max_retries a)%nat ->
      retry content prior k = RetrySucceeded call ->
      (forall j, (1 <= j < k)%nat -> ~ succeeded (retry content prior j)) ->
      c' = handleEvents [ToolCall call] (pings (if keep_alive a then k else 0) c)
      /\ tool_uses (sent c')
         = tool_uses (sent c) ++ [(name call, JSON_stringify (arguments call))])
  /\ (Forall (fun k => ~ succeeded (retry content prior k)) (seq 1 (max_retries a)) ->
      sent c'
      = sent c ++ replicate (if keep_alive a then max_retries a else 0) Ping
        ++ (if thinkingBlockOpen c
            then [ContentBlockDelta (nextBlockIndex c - 1) (SignatureDelta []);
                  ContentBlockStop (nextBlockIndex c - 1)]
            else [])
      /\ pending c' = pending c ++ content
      /\ finished c' = finished c).
Proof.
  intros c c' Hfind (Hen & Hde & Hms & Hurl).
  assert (Hcond : retry_enabled a && delimiter a && (0 <? originalMessages_length a)%nat
                  && negb (falsy (upstreamUrl a)) = true).
  { rewrite Hen, Hde. simpl. apply andb_true_intro. split.
    - now apply Nat.ltb_lt.
    - destruct (upstreamUrl a); [contradiction|reflexivity]. }
  pose proof (max_retries_positive a) as HM.
  subst c'. unfold StreamHandler.afterEOF. rewrite Hfind, Hcond.
  set (c0 := if keep_alive a then send Ping c else c).
  assert (Hc0 : c0 = pings (if keep_alive a then 1 else 0) c).
  { subst c0. now destruct (keep_alive a). }
  pose proof (retryLoop_spec countTokensWithTiktoken JSON_stringify generateToolId
                adjustedOutputTokens retry (max_retries a) 1 (max_retries a)
                (keep_alive a) content prior c0 ltac:(lia)) as Hloop.
  destruct (retryLoop _ _ _ _ _ _ 1 _ _ content prior c0) as [[|] c1].
  - (* some attempt succeeded *)
    destruct Hloop as (k' & call' & Hk' & Hs' & Hfirst' & ->). split.
    + intros k call Hk Hs Hfirst.
      assert (k' = k) as ->.
      { destruct (lt_eq_lt_dec k' k) as [[Hlt| ->]|Hgt]; [|reflexivity|].
        - exfalso. apply (Hfirst k'); [lia|]. now rewrite Hs'.
        - exfalso. apply (Hfirst' k); [lia|]. now rewrite Hs. }
      rewrite Hs in Hs'. injection Hs' as <-.
      assert (E : pings (if keep_alive a then k - 1 else 0) c0
                  = pings (if keep_alive a then k else 0) c).
      { rewrite Hc0. unfold pings. rewrite <- Nat.iter_add. f_equal.
        destruct (keep_alive a); lia. }
      rewrite E. split; [reflexivity|].
      unfold c. rewrite pings_run.
      change (handleEvents [ToolCall call] (run ?l ?x))
        with (ClaudeStream.act countTokensWithTiktoken JSON_stringify generateToolId
                adjustedOutputTokens (run l x) (HandleEvents [ToolCall call])).
      rewrite (tu_act countTokensWithTiktoken JSON_stringify generateToolId
                 adjustedOutputTokens) by apply inv_run, inv_new.
      rewrite !(tu_run countTokensWithTiktoken JSON_stringify generateToolId
                  adjustedOutputTokens) by apply inv_new.
      rewrite handled_app, handled_pings, app_nil_r. reflexivity.
    + intros Hall. exfalso. rewrite Forall_forall in Hall.
      apply (Hall k'); [|now rewrite Hs']. apply list_elem_of_In, in_seq. lia.
  - (* every attempt failed *)
    destruct Hloop as (Hall & ->). split.
    + intros k call Hk Hs _. exfalso. apply (Hall k); [lia|]. now rewrite Hs.
    + intros _.
      assert (E : pings (if keep_alive a then max_retries a - 1 else 0) c0
                  = pings (if keep_alive a then max_retries a else 0) c).
      { rewrite Hc0. unfold pings. rewrite <- Nat.iter_add. f_equal.
        destruct (keep_alive a); lia. }
      rewrite E. set (p := pings _ c).
      destruct (pings_state (if keep_alive a then max_retries a else 0) c)
        as (Hp & Hth & Hn & Hf). fold p in Hp, Hth, Hn, Hf.
      pose proof (pings_sent (if keep_alive a then max_retries a else 0) c) as Hsent.
      fold p in Hsent.
      cbn [ClaudeStream.handleEvents fold_left ClaudeStream.handleEvent].
      unfold aggregator_add. rewrite Hth.
      destruct (thinkingBlockOpen c) eqn:Hopen.
      * unfold endThinkingBlock. rewrite Hth. cbn. rewrite Hsent, Hp, Hn, Hf.
        now rewrite <- !app_assoc.
      * cbn. rewrite Hsent, Hp, Hf. now rewrite app_nil_r.
Qed.

End RetryFrames.

Section RetryExhausted.

Import ClaudeStream StreamHandler.

(** C5.  Scenario S4 of the specification: the parser ends the stream with
    a failed tool call, retrying is enabled with one attempt, and that
    attempt fails.  The handler sends one keep-alive ping and nothing else:
    the failed text is added to the aggregator and stays there, no text
    block is opened and the message is not finished.  The end event that
    the parser gave is not handed to the writer on this path; a writer that
    is given the text and the end event sends the text as a text block and
    finishes the message with the stop reason end_turn. *)
Theorem retry_exhausted_sends_no_text :
  let c := Sample.run [Init] Sample.fresh in
  let c' := Sample.afterEOF (Sample.retrying 1) Sample.last_events c in
  Sample.last_events = [ToolCallFailed Sample.failed_call []; End]
  /\ Sample.second_time Sample.failed_call [] 1 = RetryFailed (lit "malformed")
  /\ max_retries (Sample.retrying 1) = 1%nat
  /\ sent c = [MessageStart (lit "msg_req1") 7; Ping]
  /\ sent c' = [MessageStart (lit "msg_req1") 7; Ping; Ping]
  /\ pending c' = Sample.failed_call
  /\ finished c' = false
  /\ sent (Sample.run [HandleEvents [Text Sample.failed_call; End]] c)
     = [MessageStart (lit "msg_req1") 7; Ping;
        ContentBlockStart 0 TextBlock;
        ContentBlockDelta 0 (TextDelta Sample.failed_call);
        ContentBlockStop 0;
        MessageDelta (lit "end_turn") (Z.of_nat (length Sample.failed_call));
        MessageStop].
Proof. vm_compute. repeat split; reflexivity. Qed.

(** [maxRetries || 1]: one attempt when the setting is missing or zero. *)
Example max_retries_default :
  max_retries (Sample.retrying 0) = 1%nat
  /\ max_retries (Sample.retrying 3) = 3%nat
  /\ max_retries {| toolCallRetry := None; delimiter := true;
                    originalMessages_length := 1; upstreamUrl := lit "u" |} = 1%nat
  /\ max_retries {| toolCallRetry :=
                      Some {| enabled := true; keepAlive := None; maxRetries := None |};
                    delimiter := true; originalMessages_length := 1;
                    upstreamUrl := lit "u" |} = 1%nat.
Proof. repeat split. Qed.

End RetryExhausted.

(** * Instances *)

Section MoreExamples.

Import ClaudeStream Config StreamReader.

Lemma message_delta_after_blocks_closed_witness :
  let fs :=
    sent (Sample.run
            [Init; HandleEvents [Text (lit "Checking."); ToolCall Sample.get_weather; End]]
            Sample.fresh) in
  fs = take 8 fs ++ MessageDelta (lit "tool_use") 11 :: [MessageStop]
  /\ open_blocks (take 8 fs) = []
  /\ forall i, i ∈ start_indices (take 8 fs) -> ContentBlockStop i ∈ take 8 fs.
Proof.
  split; [vm_compute; reflexivity|].
  apply (message_delta_after_blocks_closed Sample.count Sample.stringify Sample.toolId
           Sample.adjust (lit "req1") 7
           [Init; HandleEvents [Text (lit "Checking."); ToolCall Sample.get_weather; End]]
           _ (lit "tool_use") 11 [MessageStop]).
  vm_compute. reflexivity.
Defined.

Lemma loaded_upstream_is_usable_witness :
  exists config u,
    loadConfig (fun _ => Fin 0) gapped_env = Ok config
    /\ Upstream.selectUpstreamConfig config (lit "one") = Ok u
    /\ baseUrl u <> [] /\ nameModel u = lit "one".
Proof.
  let r := eval vm_compute in (loadConfig (fun _ => Fin 0) gapped_env) in
  lazymatch r with
  | Ok ?config =>
      let s := eval vm_compute in (Upstream.selectUpstreamConfig config (lit "one")) in
      lazymatch s with
      | Ok ?u =>
          exists config, u;
          assert (E1 : loadConfig (fun _ => Fin 0) gapped_env = Ok config)
            by (vm_compute; reflexivity);
          assert (E2 : Upstream.selectUpstreamConfig config (lit "one") = Ok u)
            by (vm_compute; reflexivity);
          exact (conj E1 (conj E2
                   (loaded_upstream_is_usable (fun _ => Fin 0) gapped_env config
                      (lit "one") u E1 E2)))
      end
  end.
Defined.

Lemma openai_feed_does_not_depend_on_chunks_witness :
  Forall (fun line => ~ done_line line)
    (removelast (split_lines (concat [lit "data: H"; lit "i" ++ [LF]])))
  /\ openai_reads (fun s => Some (s, [])) [] [lit "data: H"; lit "i" ++ [LF]]
     = openai_reads (fun s => Some (s, [])) [] [concat [lit "data: H"; lit "i" ++ [LF]]].
Proof.
  assert (H : Forall (fun line => ~ done_line line)
                (removelast (split_lines (concat [lit "data: H"; lit "i" ++ [LF]])))).
  { repeat constructor. intros [_ H]. vm_compute in H. discriminate H. }
  exact (conj H (openai_feed_does_not_depend_on_chunks (fun s => Some (s, []))
                   [lit "data: H"; lit "i" ++ [LF]] H)).
Defined.

Lemma openai_done_ends_one_read_witness :
  openai_reads (fun s => Some (s, [])) []
    [lit "data: a" ++ [LF] ++ lit "data: [DONE]" ++ [LF] ++ lit "data: b" ++ [LF];
     lit "data: c" ++ [LF]]
  = openai_lines (fun s => Some (s, [])) [lit "data: a"]
    ++ openai_reads (fun s => Some (s, []))
         (snd (take_lines []
                 (lit "data: a" ++ [LF] ++ lit "data: [DONE]" ++ [LF]
                  ++ lit "data: b" ++ [LF])))
         [lit "data: c" ++ [LF]].
Proof.
  apply (openai_done_ends_one_read (fun s => Some (s, [])) []
           (lit "data: a" ++ [LF] ++ lit "data: [DONE]" ++ [LF] ++ lit "data: b" ++ [LF])
           [lit "data: c" ++ [LF]] [lit "data: a"] (lit "data: [DONE]") [lit "data: b"]).
  - vm_compute. reflexivity.
  - repeat constructor. intros [_ H]. vm_compute in H. discriminate H.
  - split; vm_compute; reflexivity.
Defined.

End MoreExamples.
